(** * The player quiver (crawl-ref/source/quiver.cc)

    A shallow embedding of the quiver: the polymorphic [action] values, the
    per-kind validity and fire-order enumerations, the action cyclers, the
    interactive targeting loop, persistence of actions, and the ammo
    history.  Game state that quiver.cc only reads (inventory, options,
    answers of other subsystems) is gathered in the records [collab] and
    [player]; state it writes is the record [game]. *)

From Stdlib Require Import ZArith Lia Bool.
From stdpp Require Import base numbers option list strings gmap sorting functions.

Local Open Scope Z_scope.

(** ** Pointers and aborting calls *)

(** A [shared_ptr<T>] or [const T*]: [None] is [nullptr]. *)
Abbreviation ptr A := (option A).

(** A call either returns or aborts (a failed [ASSERT], a null pointer
    dereference). *)
Inductive outcome (A : Type) : Type :=
  | Done (a : A)
  | Crash.
Arguments Done {A} a.
Arguments Crash {A}.

#[export] Instance outcome_ret : MRet outcome := @Done.
#[export] Instance outcome_bind : MBind outcome := fun A B f m =>
  match m with
  | Done a => f a
  | Crash => Crash
  end.

#[export] Instance outcome_fmap : FMap outcome := fun A B f m =>
  match m with
  | Done a => Done (f a)
  | Crash => Crash
  end.

(** ** Actions

    [action] is the base class; the seven structs derived from it carry one
    integer each.  The transient members ([target], [error]) take no part in
    comparison or persistence and are left out. *)

Inductive action : Type :=
  | base_action
  | ammo_action (ammo_slot : Z)
  | fumble_action (ammo_slot : Z)
  | spell_action (spell : Z)
  | ability_action (ability : Z)
  | wand_action (wand_slot : Z)
  | misc_action (wand_slot : Z)
  | artefact_evoke_action (wand_slot : Z).

#[export] Instance action_eq_dec : EqDecision action.
Proof. solve_decision. Defined.

(** The dynamic type of an action, as [typeid] sees it. *)
Inductive action_type : Type :=
  | T_action | T_ammo | T_fumble | T_spell | T_ability
  | T_wand | T_misc | T_artefact_evoke.

#[export] Instance action_type_eq_dec : EqDecision action_type.
Proof. solve_decision. Defined.

Definition typeid (a : action) : action_type :=
  match a with
  | base_action => T_action
  | ammo_action _ => T_ammo
  | fumble_action _ => T_fumble
  | spell_action _ => T_spell
  | ability_action _ => T_ability
  | wand_action _ => T_wand
  | misc_action _ => T_misc
  | artefact_evoke_action _ => T_artefact_evoke
  end.

(** The integer member of an action: [ammo_slot], [spell], [ability] or
    [wand_slot]. *)
Definition payload (a : action) : option Z :=
  match a with
  | base_action => None
  | ammo_action n | fumble_action n | spell_action n | ability_action n
  | wand_action n | misc_action n | artefact_evoke_action n => Some n
  end.

(** [equals]: each override compares the integer member after a
    [static_cast] of [other] to its own struct ("type ensured in base
    class"); [fumble_action] inherits the override of [ammo_action], and
    [misc_action] and [artefact_evoke_action] that of [wand_action]. *)
(** Modelled from the spec: [action::equals] of the base class is defined in
    quiver.h, which is not among the sources.  Spec, data model: "two
    actions are equal iff same kind and same payload"; the base action has
    no payload, so its [equals] answers [true]. *)
Definition equals (a other : action) : bool :=
  match a, payload other with
  | base_action, _ => true
  | ammo_action n, Some m | fumble_action n, Some m
  | spell_action n, Some m | ability_action n, Some m
  | wand_action n, Some m | misc_action n, Some m
  | artefact_evoke_action n, Some m => n =? m
  | _, None => false
  end.

(** Modelled from the spec: [action::operator==] is defined in quiver.h,
    which is not among the sources.  Spec, data model: "equality is defined
    by (kind, payload) only"; the dynamic types are compared first (the
    overrides of [equals] rely on it), then [equals] is called. *)
Definition action_eqb (a other : action) : bool :=
  bool_decide (typeid other = typeid a) && equals a other.

(** ** Persistence of an action *)

(** A value of a [CrawlHashTable]: only strings and ints are stored here,
    and reading a value as the other type is a failed [ASSERT]. *)
Inductive store_value : Type :=
  | SV_STR (s : string)
  | SV_INT (n : Z).

Definition get_string (v : store_value) : outcome string :=
  match v with SV_STR s => Done s | SV_INT _ => Crash end.

Definition get_int (v : store_value) : outcome Z :=
  match v with SV_INT n => Done n | SV_STR _ => Crash end.

(** [source[key]]: the keys read here are checked with [exists] first. *)
Definition table_at (source : gmap string store_value) (key : string)
  : outcome store_value :=
  match source !! key with
  | Some v => Done v
  | None => Crash
  end.

Definition save (a : action) (save_target : gmap string store_value)
  : gmap string store_value :=
  match a with
  | base_action => <["type" := SV_STR "action"]> save_target
  | ammo_action ammo_slot =>
      <["param" := SV_INT ammo_slot]>
        (<["type" := SV_STR "ammo_action"]> save_target)
  | fumble_action ammo_slot =>
      <["param" := SV_INT ammo_slot]>
        (<["type" := SV_STR "fumble_action"]> save_target)
  | spell_action spell =>
      <["param" := SV_INT spell]>
        (<["type" := SV_STR "spell_action"]> save_target)
  | ability_action ability =>
      <["param" := SV_INT ability]>
        (<["type" := SV_STR "ability_action"]> save_target)
  | wand_action wand_slot =>
      <["param" := SV_INT wand_slot]>
        (<["type" := SV_STR "wand_action"]> save_target)
  | misc_action wand_slot =>
      <["param" := SV_INT wand_slot]>
        (<["type" := SV_STR "misc_action"]> save_target)
  | artefact_evoke_action wand_slot =>
      <["param" := SV_INT wand_slot]>
        (<["type" := SV_STR "artefact_evoke_action"]> save_target)
  end.

Definition _load_action (source : gmap string store_value)
  : outcome (ptr action) :=
  if negb (bool_decide (is_Some (source !! "type")))
     || negb (bool_decide (is_Some (source !! "param")))
  then Done (Some (ammo_action (-1)))
  else
    tv ← table_at source "type";
    type ← get_string tv;
    pv ← table_at source "param";
    param ← get_int pv;
    if String.eqb type "ammo_action" then Done (Some (ammo_action param))
    else if String.eqb type "spell_action" then Done (Some (spell_action param))
    else if String.eqb type "ability_action"
      then Done (Some (ability_action param))
    else if String.eqb type "wand_action" then Done (Some (wand_action param))
    else if String.eqb type "misc_action" then Done (Some (misc_action param))
    else if String.eqb type "artefact_evoke_action"
      then Done (Some (artefact_evoke_action param))
    else if String.eqb type "fumble_action"
      then Done (Some (fumble_action param))
    else Done (Some base_action).

(** The seven concrete kinds: every action but the base one. *)
Definition concrete (a : action) : bool :=
  negb (bool_decide (typeid a = T_action)).
(** ** Items, the inventory and the other subsystems *)

Inductive object_class : Type :=
  | OBJ_WEAPONS
  | OBJ_MISSILES
  | OBJ_WANDS
  | OBJ_MISCELLANY
  | OBJ_OTHER (tag : Z).

#[export] Instance object_class_eq_dec : EqDecision object_class.
Proof. solve_decision. Defined.

(** The members of [item_def] that quiver.cc reads or writes. *)
Record item_def : Type := {
  base_type : object_class;
  sub_type : Z;
  quantity : Z;
  inscription : string;
  link : Z;
  slot : Z;
  unrand_idx : Z;
}.

Definition with_quantity (q : Z) (item : item_def) : item_def :=
  {| base_type := base_type item; sub_type := sub_type item; quantity := q;
     inscription := inscription item; link := link item; slot := slot item;
     unrand_idx := unrand_idx item |}.

Inductive launch_retval : Type := FUMBLED | LAUNCHED | THROWN | BUGGY.

#[export] Instance launch_retval_eq_dec : EqDecision launch_retval.
Proof. solve_decision. Defined.

(** [quiver::launcher], the index type of the ammo history. *)
Inductive launcher : Type := AMMO_THROW | AMMO_BOW | AMMO_SLING | AMMO_CROSSBOW.

#[export] Instance launcher_eq_dec : EqDecision launcher.
Proof. solve_decision. Defined.

(** One inventory slot per letter a-z, A-Z. *)
Definition ENDOFPACK : Z := 52.

Definition letter_to_index_a : Z := 0.
Definition letter_to_index_b : Z := 1.

(** What quiver.cc takes from headers and from other translation units and
    that does not depend on the state of the game: the values of the
    enumerators it names, predicates on items, and the members of the base
    class [action] that quiver.h defines inline.  All of it is a parameter
    of the development. *)
Record collab : Type := {
  (* weapon_type *)
  WPN_HUNTING_SLING : Z; WPN_FUSTIBALUS : Z; WPN_SHORTBOW : Z;
  WPN_LONGBOW : Z; WPN_HAND_CROSSBOW : Z; WPN_ARBALEST : Z;
  WPN_TRIPLE_CROSSBOW : Z;
  (* missile_type *)
  MI_STONE : Z; MI_JAVELIN : Z; MI_LARGE_ROCK : Z; MI_THROWING_NET : Z;
  MI_BOOMERANG : Z; MI_DART : Z;
  WAND_DIGGING : Z;
  MISC_ZIGGURAT : Z;
  (* fire_type bits *)
  FIRE_LAUNCHER : Z; FIRE_DART : Z; FIRE_STONE : Z; FIRE_JAVELIN : Z;
  FIRE_ROCK : Z; FIRE_NET : Z; FIRE_BOOMERANG : Z; FIRE_INSCRIBED : Z;
  SPELL_NO_SPELL : Z;
  (* ability_type *)
  ABIL_NON_ABILITY : Z; NUM_ABILITIES : Z;
  ABIL_FIRST_SACRIFICE : Z; ABIL_FINAL_SACRIFICE : Z;
  ABIL_HEPLIAKLQANA_FIRST_TYPE : Z; ABIL_HEPLIAKLQANA_LAST_TYPE : Z;
  ABIL_END_TRANSFORMATION : Z; ABIL_CANCEL_PPROJ : Z; ABIL_EXSANGUINATE : Z;
  ABIL_REVIVIFY : Z; ABIL_EVOKE_TURN_VISIBLE : Z; ABIL_ZIN_DONATE_GOLD : Z;
  ABIL_TSO_BLESS_WEAPON : Z; ABIL_KIKU_BLESS_WEAPON : Z;
  ABIL_KIKU_GIFT_NECRONOMICON : Z; ABIL_SIF_MUNA_FORGET_SPELL : Z;
  ABIL_LUGONU_BLESS_WEAPON : Z; ABIL_BEOGH_GIFT_ITEM : Z;
  ABIL_ASHENZARI_CURSE : Z; ABIL_RU_REJECT_SACRIFICES : Z;
  ABIL_HEPLIAKLQANA_IDENTITY : Z; ABIL_STOP_RECALL : Z;
  ABIL_RENOUNCE_RELIGION : Z; ABIL_CONVERT_TO_BEOGH : Z; ABIL_FLY : Z;
  ABIL_TRAN_BAT : Z;
  UNRAND_DISPATER : Z; UNRAND_OLGREB : Z;
  COL_UNKNOWN : Z; COL_FORBIDDEN : Z;
  (* item_def() *)
  item_def_new : item_def;
  (* item.defined() *)
  defined : item_def -> bool;
  (* item.launched_by(launcher) *)
  launched_by : item_def -> item_def -> bool;
  is_unrandom_artefact : item_def -> bool;
  (* get_unrand_entry(idx) exists and has evoke_func or targeted_evoke_func *)
  unrand_entry_evokes : Z -> bool;
  items_similar : item_def -> item_def -> bool;
  in_inventory : item_def -> bool;
  is_valid_spell : Z -> bool;
  (* members of the base class, from quiver.h *)
  action_is_valid : bool;
  action_is_enabled : bool;
  action_get_item : Z;
  action_find_replacement : ptr action;
  action_get_fire_order : list action;
  (* default arguments of action_cycler::cycle, from quiver.h *)
  cycle_default_dir : Z;
  cycle_default_allow_disabled : bool;
}.

(** The state of the game as quiver.cc reads it: members of [you] and of
    [Options], and the answers of the other subsystems in this state. *)
Record player : Type := {
  (* you.species == SP_FELID *)
  is_felid : bool;
  (* you.inv[i] for a slot i of the pack, 0 <= i < ENDOFPACK; where the
     source leaves the index unbounded the read goes through [inv_at] *)
  inv : Z -> item_def;
  (* you.equip[EQ_WEAPON] *)
  equip_weapon : Z;
  (* you.weapon() *)
  weapon : ptr item_def;
  (* Options *)
  auto_switch : bool;
  fire_items_start : Z;
  fire_order : list Z;
  fail_severity_to_quiver : Z;
  (* is_launched(&you, launcher, item) *)
  is_launched : ptr item_def -> item_def -> launch_retval;
  (* fire_warn_if_impossible(true) *)
  fire_warn_if_impossible : bool;
  (* check_warning_inscriptions(item, OPER_FIRE) *)
  check_warning_inscriptions : item_def -> bool;
  item_is_equipped : item_def -> bool;
  (* evoke_check(slot, true) *)
  evoke_check : Z -> bool;
  (* enough_hp(n, true), enough_mp(n, true) *)
  enough_hp : Z -> bool;
  enough_mp : Z -> bool;
  has_spell : Z -> bool;
  (* can_cast_spells(true) *)
  can_cast_spells : bool;
  (* spell_is_useless(spell, true, false) *)
  spell_is_useless : Z -> bool;
  (* get_spell_by_letter(index_to_letter(i)) *)
  get_spell_by_letter : Z -> Z;
  fail_severity : Z -> Z;
  (* spell_highlight_by_utility(s, col) *)
  spell_highlight_by_utility : Z -> Z -> Z;
  (* the [which] members of your_talents(false, true), in order *)
  your_talents : list Z;
  (* check_ability_possible(ability, true) *)
  check_ability_possible : Z -> bool;
}.

(** [strstr(hay, needle) != nullptr], [hay.find(needle, 0) != npos]. *)
Fixpoint contains (needle hay : string) : bool :=
  String.prefix needle hay
  || match hay with
     | EmptyString => false
     | String _ rest => contains needle rest
     end.

(** Conversions of 32-bit integers. *)
Definition to_unsigned (z : Z) : Z := z mod 2 ^ 32.
Definition to_int (z : Z) : Z := (z + 2 ^ 31) mod 2 ^ 32 - 2 ^ 31.

Section quiver.
Context (C : collab).

Definition flag_set (types bit : Z) : bool := negb (Z.land types bit =? 0).

Definition _get_weapon_ammo_type (weapon : ptr item_def) : launcher :=
  match weapon with
  | None => AMMO_THROW
  | Some weapon =>
      if negb (bool_decide (base_type weapon = OBJ_WEAPONS)) then AMMO_THROW
      else
        let t := sub_type weapon in
        if (t =? WPN_HUNTING_SLING C) || (t =? WPN_FUSTIBALUS C)
        then AMMO_SLING
        else if (t =? WPN_SHORTBOW C) || (t =? WPN_LONGBOW C)
        then AMMO_BOW
        else if (t =? WPN_HAND_CROSSBOW C) || (t =? WPN_ARBALEST C)
                || (t =? WPN_TRIPLE_CROSSBOW C)
        then AMMO_CROSSBOW
        else AMMO_THROW
  end.

(** The source opens [_item_matches] with [ASSERT(item.defined())].  Every
    call of it in quiver.cc comes after a test of [defined()] on the same
    item (lines 192, 246, 350, 1314 and 1320, and 322 before
    [launcher_check]), so the assertion is left out and the function is
    pure. *)
Definition _item_matches (item : item_def) (types : Z)
    (launcher : ptr item_def) (manual : bool) : bool :=
  if flag_set types (FIRE_INSCRIBED C)
     && contains (if manual then "+F" else "+f") (inscription item)
  then true
  else if negb (bool_decide (base_type item = OBJ_MISSILES)) then false
  else if flag_set types (FIRE_STONE C) && (sub_type item =? MI_STONE C)
  then true
  else if flag_set types (FIRE_JAVELIN C) && (sub_type item =? MI_JAVELIN C)
  then true
  else if flag_set types (FIRE_ROCK C) && (sub_type item =? MI_LARGE_ROCK C)
  then true
  else if flag_set types (FIRE_NET C)
          && (sub_type item =? MI_THROWING_NET C)
  then true
  else if flag_set types (FIRE_BOOMERANG C)
          && (sub_type item =? MI_BOOMERANG C)
  then true
  else if flag_set types (FIRE_DART C) && (sub_type item =? MI_DART C)
  then true
  else if flag_set types (FIRE_LAUNCHER C)
  then match launcher with
       | Some l => launched_by C item l
       | None => false
       end
  else false.

Definition _items_similar (a b : item_def) (force : bool) : bool :=
  items_similar C a b && (force || (slot a =? slot b)).

Section in_state.
Context (you : player).

Definition _autoswitch_active : bool :=
  auto_switch you
  && ((equip_weapon you =? letter_to_index_a)
      || (equip_weapon you =? letter_to_index_b)).

Definition _autoswitch_ammo_check (ammo : item_def) : bool :=
  if negb (defined C ammo) then false
  else
    let w1 := inv you letter_to_index_a in
    let w2 := inv you letter_to_index_b in
    (defined C w1 && _item_matches ammo 0xffff (Some w1) false)
    || (defined C w2 && _item_matches ammo 0xffff (Some w2) false).

(** The test of the inner loop of [_get_item_fire_order], at one entry
    of [Options.fire_order]. *)
Definition fire_flag_test (item : item_def) (launcher : ptr item_def)
    (manual : bool) (flags : Z) : bool :=
  _item_matches item flags launcher manual
  || match launcher with
     | Some l =>
         _autoswitch_active
         && ((link l =? letter_to_index_a) || (link l =? letter_to_index_b))
         && _autoswitch_ammo_check item
     | None => false
     end.

(** The first [i_flags], counting from [i], at which the test holds. *)
Fixpoint first_flag (test : Z -> bool) (i : Z) (flags : list Z)
  : option Z :=
  match flags with
  | [] => None
  | f :: flags' =>
      if test f then Some i else first_flag test (i + 1) flags'
  end.

(** [(i_flags<<16) | (i_inv & 0xffff)], computed in [unsigned int] and
    stored in a [vector<int>]. *)
Definition fire_key (i_flags i_inv : Z) : Z :=
  to_int (Z.lor (to_unsigned (Z.shiftl i_flags 16))
                (to_unsigned (Z.land i_inv 0xffff))).

(** The body of the loop over the inventory: the key pushed for slot
    [i_inv], if any. *)
Definition fire_candidate (ignore_inscription_etc : bool)
    (launcher : ptr item_def) (manual : bool) (i_inv : Z) : option Z :=
  let item := inv you i_inv in
  if negb (defined C item) then None
  else
    let l := is_launched you launcher item in
    if negb manual
       && negb (bool_decide (_get_weapon_ammo_type launcher = AMMO_THROW))
       && bool_decide (l = THROWN)
    then None
    else if negb ignore_inscription_etc
            && contains (if manual then "=F" else "=f") (inscription item)
    then None
    else
      match first_flag (fire_flag_test item launcher manual) 0
              (fire_order you) with
      | Some i_flags => Some (fire_key i_flags i_inv)
      | None => None
      end.

(** [order] is the vector passed in; every caller passes an empty one. *)
Definition _get_item_fire_order (order : list Z)
    (ignore_inscription_etc : bool) (launcher : ptr item_def)
    (manual : bool) : list Z :=
  let inv_start :=
    if ignore_inscription_etc then 0 else fire_items_start you in
  let order :=
    order ++ omap (fire_candidate ignore_inscription_etc launcher manual)
               (seqZ inv_start (ENDOFPACK - inv_start)) in
  (fun k => Z.land k 0xffff) <$> merge_sort Z.le order.

(** *** Validity, per kind *)

Definition ammo_action_is_valid (ammo_slot : Z) : bool :=
  if is_felid you then false
  else if (ammo_slot <? 0) || (ENDOFPACK <=? ammo_slot) then false
  else
    let ammo := inv you ammo_slot in
    if negb (defined C ammo) then false
    else if _autoswitch_active then _autoswitch_ammo_check ammo
    else _item_matches ammo 0xffff (weapon you) false.

Definition fumble_action_is_valid (ammo_slot : Z) : bool :=
  if is_felid you then false
  else if (ammo_slot <? 0) || (ENDOFPACK <=? ammo_slot) then false
  else
    let ammo := inv you ammo_slot in
    if negb (defined C ammo) then false
    else if ammo_action_is_valid ammo_slot then false
    else true.

Definition spell_action_is_valid (spell : Z) : bool :=
  is_valid_spell C spell && has_spell you spell.

Definition ability_action_is_valid (ability : Z) : bool :=
  if (ability =? ABIL_NON_ABILITY C) || (ability =? NUM_ABILITIES C)
  then false
  else existsb (fun which => which =? ability) (your_talents you).

Definition wand_action_is_valid (wand_slot : Z) : bool :=
  if (wand_slot <? 0) || (ENDOFPACK <=? wand_slot) then false
  else
    let wand := inv you wand_slot in
    if negb (defined C wand)
       || negb (bool_decide (base_type wand = OBJ_WANDS))
    then false
    else true.

Definition misc_action_is_valid (wand_slot : Z) : bool :=
  if (wand_slot <? 0) || (ENDOFPACK <=? wand_slot) then false
  else
    let wand := inv you wand_slot in
    if negb (defined C wand)
       || negb (bool_decide (base_type wand = OBJ_MISCELLANY))
    then false
    else true.

Definition artefact_evoke_action_is_valid (wand_slot : Z) : bool :=
  if (wand_slot <? 0) || (ENDOFPACK <=? wand_slot) then false
  else
    let item := inv you wand_slot in
    if negb (defined C item) || negb (is_unrandom_artefact C item)
       || negb (item_is_equipped you item)
    then false
    else if negb (unrand_entry_evokes C (unrand_idx item)) then false
    else true.

Definition is_valid (a : action) : bool :=
  match a with
  | base_action => action_is_valid C
  | ammo_action ammo_slot => ammo_action_is_valid ammo_slot
  | fumble_action ammo_slot => fumble_action_is_valid ammo_slot
  | spell_action spell => spell_action_is_valid spell
  | ability_action ability => ability_action_is_valid ability
  | wand_action wand_slot => wand_action_is_valid wand_slot
  | misc_action wand_slot => misc_action_is_valid wand_slot
  | artefact_evoke_action wand_slot =>
      artefact_evoke_action_is_valid wand_slot
  end.

(** *** Enablement, per kind *)

(** [ammo_action::is_enabled]; [valid] and [launcher_check] are the
    virtual calls, resolved by the caller. *)
Definition ammo_is_enabled_with (valid launcher_check : bool)
    (ammo_slot : Z) : bool :=
  if negb valid then false
  else if fire_warn_if_impossible you then false
  else if negb launcher_check then false
  else
    let ammo := inv you ammo_slot in
    check_warning_inscriptions you ammo
    && match weapon you with
       | None => true
       | Some w =>
           negb (bool_decide (is_launched you (Some w) ammo = LAUNCHED))
           || check_warning_inscriptions you w
       end.

Definition ammo_action_launcher_check (ammo_slot : Z) : bool :=
  if ammo_slot <? 0 then false
  else _item_matches (inv you ammo_slot) 0xffff (weapon you) false.

Definition artefact_evoke_check (wand_slot : Z) : bool :=
  if negb (artefact_evoke_action_is_valid wand_slot) then false
  else
    let idx := unrand_idx (inv you wand_slot) in
    if idx =? UNRAND_DISPATER C then enough_hp you 14 && enough_mp you 4
    else if idx =? UNRAND_OLGREB C then enough_mp you 4
    else true.

Definition is_enabled (a : action) : bool :=
  match a with
  | base_action => action_is_enabled C
  | ammo_action ammo_slot =>
      ammo_is_enabled_with (ammo_action_is_valid ammo_slot)
        (ammo_action_launcher_check ammo_slot) ammo_slot
  | fumble_action ammo_slot =>
      ammo_is_enabled_with (fumble_action_is_valid ammo_slot) true
        ammo_slot
  | spell_action spell =>
      can_cast_spells you && negb (spell_is_useless you spell)
  | ability_action ability =>
      ability_action_is_valid ability
      && check_ability_possible you ability
  | wand_action wand_slot | misc_action wand_slot => evoke_check you wand_slot
  | artefact_evoke_action wand_slot => artefact_evoke_check wand_slot
  end.

Definition get_item (a : action) : Z :=
  match a with
  | ammo_action ammo_slot | fumble_action ammo_slot => ammo_slot
  | wand_action wand_slot | misc_action wand_slot
  | artefact_evoke_action wand_slot => wand_slot
  | base_action | spell_action _ | ability_action _ => action_get_item C
  end.

(** *** Fire order, per kind *)

(** The test every [get_fire_order] applies to a freshly made action. *)
Definition offered (allow_disabled : bool) (a : action) : bool :=
  is_valid a && (allow_disabled || is_enabled a).

Definition ammo_action_get_fire_order (allow_disabled : bool)
  : list action :=
  let fire_order := _get_item_fire_order [] false (weapon you) true in
  filter (fun a => offered allow_disabled a = true)
         (ammo_action <$> fire_order).

Definition spell_action_get_fire_order (allow_disabled : bool)
  : list action :=
  omap (fun i =>
          let s := get_spell_by_letter you i in
          let a := spell_action s in
          if offered allow_disabled a
             && (fail_severity you s <? fail_severity_to_quiver you)
             && negb (spell_highlight_by_utility you s (COL_UNKNOWN C)
                      =? COL_FORBIDDEN C)
          then Some a else None)
       (seqZ 0 52).

Definition _pseudoability (a : Z) : bool :=
  if ((ABIL_FIRST_SACRIFICE C <=? a) && (a <=? ABIL_FINAL_SACRIFICE C))
     || ((ABIL_HEPLIAKLQANA_FIRST_TYPE C <=? a)
         && (a <=? ABIL_HEPLIAKLQANA_LAST_TYPE C))
  then true
  else
    bool_decide (a ∈ [ ABIL_END_TRANSFORMATION C; ABIL_CANCEL_PPROJ C;
      ABIL_EXSANGUINATE C; ABIL_REVIVIFY C; ABIL_EVOKE_TURN_VISIBLE C;
      ABIL_ZIN_DONATE_GOLD C; ABIL_TSO_BLESS_WEAPON C;
      ABIL_KIKU_BLESS_WEAPON C; ABIL_KIKU_GIFT_NECRONOMICON C;
      ABIL_SIF_MUNA_FORGET_SPELL C; ABIL_LUGONU_BLESS_WEAPON C;
      ABIL_BEOGH_GIFT_ITEM C; ABIL_ASHENZARI_CURSE C;
      ABIL_RU_REJECT_SACRIFICES C; ABIL_HEPLIAKLQANA_IDENTITY C;
      ABIL_STOP_RECALL C; ABIL_RENOUNCE_RELIGION C;
      ABIL_CONVERT_TO_BEOGH C; ABIL_FLY C; ABIL_TRAN_BAT C ]).

Definition ability_action_get_fire_order (allow_disabled : bool)
  : list action :=
  omap (fun which =>
          if _pseudoability which then None
          else
            let a := ability_action which in
            if offered allow_disabled a then Some a else None)
       (your_talents you).

Definition wand_action_get_fire_order (allow_disabled : bool)
  : list action :=
  omap (fun slot =>
          let w := wand_action slot in
          if offered allow_disabled w
             && negb (sub_type (inv you slot) =? WAND_DIGGING C)
          then Some w else None)
       (seqZ 0 ENDOFPACK).

Definition misc_action_get_fire_order (allow_disabled : bool)
  : list action :=
  omap (fun slot =>
          let w := misc_action slot in
          if offered allow_disabled w
             && negb (sub_type (inv you slot) =? MISC_ZIGGURAT C)
          then Some w else None)
       (seqZ 0 ENDOFPACK).

Definition artefact_evoke_action_get_fire_order (allow_disabled : bool)
  : list action :=
  omap (fun slot =>
          let w := artefact_evoke_action slot in
          if offered allow_disabled w then Some w else None)
       (seqZ 0 ENDOFPACK).

Definition get_fire_order (a : action) (allow_disabled : bool)
  : list action :=
  match a with
  | base_action => action_get_fire_order C
  | ammo_action _ | fumble_action _ =>
      ammo_action_get_fire_order allow_disabled
  | spell_action _ => spell_action_get_fire_order allow_disabled
  | ability_action _ => ability_action_get_fire_order allow_disabled
  | wand_action _ => wand_action_get_fire_order allow_disabled
  | misc_action _ => misc_action_get_fire_order allow_disabled
  | artefact_evoke_action _ =>
      artefact_evoke_action_get_fire_order allow_disabled
  end.

(** *** [action::find_next] *)

(** The index at which the search loop stops: that of the first element
    equal to [this], or the size of [o]. *)
Fixpoint first_index (this : action) (o : list action) : nat :=
  match o with
  | [] => 0%nat
  | x :: o' =>
      if action_eqb x this then 0%nat else S (first_index this o')
  end.

Definition find_next (this : action) (dir : Z)
    (allow_disabled loop : bool) : ptr action :=
  let o := get_fire_order this allow_disabled in
  if (length o =? 0)%nat then None
  else
    let o := if dir <? 0 then reverse o else o in
    if negb (is_valid this) then o !! 0%nat
    else
      let i := first_index this o in
      if (i =? length o)%nat then o !! 0%nat
      else
        let i := S i in
        if negb loop && (length o <=? i)%nat then None
        else o !! (i mod length o)%nat.

(** *** [_get_next_action_type] *)

(** The index at which the search for the type of [a] stops. *)
Fixpoint type_index (a : action) (action_types : list action) : nat :=
  match action_types with
  | [] => 0%nat
  | rep :: rest =>
      if bool_decide (typeid rep = typeid a) then 0%nat
      else S (type_index a rest)
  end.

(** The final loop: the first valid [find_next] of a representative. *)
Fixpoint first_valid_next (action_types : list action) (dir : Z)
    (allow_disabled : bool) : ptr action :=
  match action_types with
  | [] => None
  | result :: rest =>
      match find_next result dir allow_disabled false with
      | Some n =>
          if is_valid n then Some n
          else first_valid_next rest dir allow_disabled
      | None => first_valid_next rest dir allow_disabled
      end
  end.

Definition type_order : list action :=
  [ ammo_action (-1); wand_action (-1); misc_action (-1);
    artefact_evoke_action (-1); spell_action (SPELL_NO_SPELL C);
    ability_action (ABIL_NON_ABILITY C) ].

Definition _get_next_action_type (a : ptr action) (dir : Z)
    (allow_disabled : bool) : ptr action :=
  let action_types := type_order in
  let action_types :=
    if dir <? 0 then reverse action_types else action_types in
  let '(i, skip_first) :=
    match a with
    | None => (0%nat, false)
    | Some a_ref =>
        let i := type_index a_ref action_types in
        if (length action_types <=? i)%nat then (0%nat, false)
        else (i, true)
    end in
  let i := if skip_first then (S i mod length action_types)%nat else i in
  let action_types := drop i action_types ++ take i action_types in
  first_valid_next action_types dir allow_disabled.

End in_state.
End quiver.

(** ** The state quiver.cc writes *)

(** [ammo_history::m_last_used_of_type], an array indexed by [launcher]. *)
Abbreviation ammo_history := (launcher -> item_def).

(** The two cyclers of the player, [you.quiver_action] (an
    [action_cycler]) and [you.launcher_action] (a
    [launcher_action_cycler]), are named by a tag; their [current] members
    are fields of [game]. *)
Inductive cycler : Type := the_quiver_action | the_launcher_action.

#[export] Instance cycler_eq_dec : EqDecision cycler.
Proof. solve_decision. Defined.

Record game : Type := {
  you : player;
  quiver_action : ptr action;
  launcher_action : ptr action;
  m_quiver_history : ammo_history;
  redraw_quiver : bool;
  wield_change : bool;
}.

Definition current (this : cycler) (g : game) : ptr action :=
  match this with
  | the_quiver_action => quiver_action g
  | the_launcher_action => launcher_action g
  end.

Definition with_current (this : cycler) (n : ptr action) (g : game) : game :=
  match this with
  | the_quiver_action =>
      {| you := you g; quiver_action := n;
         launcher_action := launcher_action g;
         m_quiver_history := m_quiver_history g;
         redraw_quiver := redraw_quiver g; wield_change := wield_change g |}
  | the_launcher_action =>
      {| you := you g; quiver_action := quiver_action g;
         launcher_action := n;
         m_quiver_history := m_quiver_history g;
         redraw_quiver := redraw_quiver g; wield_change := wield_change g |}
  end.

Definition with_history (h : ammo_history) (g : game) : game :=
  {| you := you g; quiver_action := quiver_action g;
     launcher_action := launcher_action g; m_quiver_history := h;
     redraw_quiver := redraw_quiver g; wield_change := wield_change g |}.

Definition with_redraw_quiver (b : bool) (g : game) : game :=
  {| you := you g; quiver_action := quiver_action g;
     launcher_action := launcher_action g;
     m_quiver_history := m_quiver_history g;
     redraw_quiver := b; wield_change := wield_change g |}.

Definition with_wield_change (b : bool) (g : game) : game :=
  {| you := you g; quiver_action := quiver_action g;
     launcher_action := launcher_action g;
     m_quiver_history := m_quiver_history g;
     redraw_quiver := redraw_quiver g; wield_change := b |}.

Definition with_you (p : player) (g : game) : game :=
  {| you := p; quiver_action := quiver_action g;
     launcher_action := launcher_action g;
     m_quiver_history := m_quiver_history g;
     redraw_quiver := redraw_quiver g; wield_change := wield_change g |}.

(** Commands passed back through [dist::cmd_result]; [CMD_OTHER] stands for
    every other member of [command_type]. *)
Inductive command_type : Type :=
  | CMD_NO_CMD
  | CMD_FIRE
  | CMD_TARGET_CYCLE_QUIVER_FORWARD
  | CMD_TARGET_CYCLE_QUIVER_BACKWARD
  | CMD_TARGET_SELECT_ACTION
  | CMD_OTHER.

#[export] Instance command_type_eq_dec : EqDecision command_type.
Proof. solve_decision. Defined.

(** What the rest of the game does during one pass of the targeting loop:
    [engine] is the effect on the game of triggering the current action
    (direction chooser, execution, and whatever these call back),
    [cmd_result] is the command left in the target of the action, and
    [menu_choice] is the action handed to [set_to_quiver] by the selection
    menu when that is opened ([None]: a null pointer, or nothing chosen). *)
Record response : Type := {
  engine : game -> game;
  cmd_result : command_type;
  menu_choice : ptr action;
}.

(** [you.inv[slot]] where the source does not bound the index from above:
    the pack has [ENDOFPACK] slots, and a read outside it is a failure of
    the call. *)
Definition inv_at (p : player) (slot : Z) : outcome item_def :=
  if (0 <=? slot) && (slot <? ENDOFPACK) then Done (inv p slot) else Crash.

Section cyclers.
Context (C : collab).

(** [slot >= 0 && you.inv[slot].defined() && test(you.inv[slot])]: the pack
    is read as soon as [slot] is not negative. *)
Definition defined_at (p : player) (slot : Z) (test : item_def -> bool)
  : outcome bool :=
  if 0 <=? slot then
    item ← inv_at p slot;
    Done (defined C item && test item)
  else Done false.

(** *** Ammo history *)

Definition ammo_history_new : ammo_history := fun _ => item_def_new C.

Definition set_quiver (item : item_def) (ammo_type : launcher) (g : game)
  : game :=
  with_redraw_quiver true
    (with_history (<[ammo_type := with_quantity 1 item]> (m_quiver_history g))
       g).

Definition on_item_fired (item : item_def) (explicitly_chosen : bool)
    (g : game) : game :=
  if negb explicitly_chosen then with_redraw_quiver true g
  else
    match weapon (you g) with
    | Some w =>
        if launched_by C item w then
          let t := _get_weapon_ammo_type C (Some w) in
          with_redraw_quiver true
            (with_history (<[t := with_quantity 1 item]> (m_quiver_history g))
               g)
        else
          let projected := is_launched (you g) (Some w) item in
          if bool_decide (projected = FUMBLED) then g
          else
            with_redraw_quiver true
              (with_history
                 (<[AMMO_THROW := with_quantity 1 item]> (m_quiver_history g))
                 g)
    | None =>
        let projected := is_launched (you g) None item in
        if bool_decide (projected = FUMBLED) then g
        else
          with_redraw_quiver true
            (with_history
               (<[AMMO_THROW := with_quantity 1 item]> (m_quiver_history g))
               g)
    end.

(** The first slot of the pack that passes [test]. *)
Definition first_slot (test : Z -> bool) : option Z :=
  head (filter (fun i => test i = true) (seqZ 0 ENDOFPACK)).

Definition _get_pack_slot (p : player) (item : item_def) : Z :=
  if negb (defined C item) then -1
  else if in_inventory C item
          && _items_similar C item (inv p (link item)) false
  then link item
  else
    match first_slot (fun i => negb (quantity (inv p i) =? 0)
                               && _items_similar C item (inv p i) false) with
    | Some i => i
    | None =>
        match first_slot (fun i => negb (quantity (inv p i) =? 0)
                                   && _items_similar C item (inv p i) true) with
        | Some i => if contains "=f" (inscription (inv p i)) then -1 else i
        | None => -1
        end
    end.

Definition get_last_ammo (g : game) (type : launcher) : outcome Z :=
  let slot := _get_pack_slot (you g) (m_quiver_history g type) in
  if slot <? ENDOFPACK then
    if slot =? -1 then Done slot
    else
      item ← inv_at (you g) slot;
      if defined C item then Done slot else Crash
  else Crash.

(** *** The cyclers *)

Definition action_cycler_new : ptr action := Some (ammo_action (-1)).

Definition action_cycler_get (this : cycler) (g : game) : outcome action :=
  match current this g with
  | Some a => Done a
  | None => Crash
  end.

Definition get_ptr (this : cycler) (g : game) : ptr action := current this g.

Definition action_cycler_set_needs_redraw (g : game) : game :=
  with_redraw_quiver true g.

Definition launcher_action_cycler_set_needs_redraw (g : game) : game :=
  with_wield_change true (action_cycler_set_needs_redraw g).

(** The virtual call [set_needs_redraw()]. *)
Definition set_needs_redraw (this : cycler) (g : game) : game :=
  match this with
  | the_quiver_action => action_cycler_set_needs_redraw g
  | the_launcher_action => launcher_action_cycler_set_needs_redraw g
  end.

Definition action_cycler_set (this : cycler) (new_act : ptr action)
    (g : game) : outcome (bool * game) :=
  let n := match new_act with Some a => a | None => base_action end in
  old ← action_cycler_get this g;
  let diff := negb (action_eqb n old) in
  let g := with_current this (Some n) g in
  g ←
    (if diff then
       let item_slot := get_item C n in
       has_item ← defined_at (you g) item_slot (fun _ => true);
       if (has_item : bool) then
         let item := inv (you g) item_slot in
         let t :=
           match weapon (you g) with
           | Some w =>
               if launched_by C item w then _get_weapon_ammo_type C (Some w)
               else AMMO_THROW
           | None => AMMO_THROW
           end in
         Done (set_quiver (inv (you g) item_slot) t g)
       else Done g
     else Done g);
  Done (diff, set_needs_redraw this g).

Definition _is_currently_launched_ammo (p : player) (slot : Z)
  : outcome bool :=
  match weapon p with
  | Some w => defined_at p slot (fun item => launched_by C item w)
  | None => Done false
  end.

Definition launcher_action_cycler_set (new_act : ptr action) (g : game)
  : outcome (bool * game) :=
  match new_act with
  | None => Crash
  | Some a =>
      launched ← _is_currently_launched_ammo (you g) (get_item C a);
      if (launched : bool) || action_eqb a base_action
      then action_cycler_set the_launcher_action new_act g
      else Done (false, launcher_action_cycler_set_needs_redraw g)
  end.

(** The virtual call [set(new_act)]. *)
Definition cycler_set (this : cycler) (new_act : ptr action) (g : game)
  : outcome (bool * game) :=
  match this with
  | the_quiver_action => action_cycler_set the_quiver_action new_act g
  | the_launcher_action => launcher_action_cycler_set new_act g
  end.

(** [action_cycler::set(const action_cycler &other)], as far as the state
    goes.  The [bool] the source returns compares the two [shared_ptr]s;
    actions are held by value here, so it is left out. *)
Definition action_cycler_set_from (this other : cycler) (g : game) : game :=
  set_needs_redraw this (with_current this (current other g) g).

Definition action_cycler_next (this : cycler) (dir : Z)
    (allow_disabled : bool) (g : game) : outcome (ptr action) :=
  a ← action_cycler_get this g;
  let result := find_next C (you g) a dir allow_disabled false in
  let result :=
    match result with
    | Some r =>
        if is_valid C (you g) r then result
        else _get_next_action_type C (you g) (get_ptr this g) dir
               allow_disabled
    | None =>
        _get_next_action_type C (you g) (get_ptr this g) dir allow_disabled
    end in
  match result with
  | None => Done (Some (ammo_action (-1)))
  | Some _ => Done result
  end.

Definition action_cycler_cycle (this : cycler) (dir : Z)
    (allow_disabled : bool) (g : game) : outcome (bool * game) :=
  n ← action_cycler_next this dir allow_disabled g;
  cycler_set this n g.

Definition action_cycler_clear (this : cycler) (g : game)
  : outcome (bool * game) :=
  cycler_set this (Some base_action) g.

(** The error text of the result is transient and left out. *)
Definition find_action_from_launcher (item : ptr item_def) (g : game)
  : outcome (ptr action) :=
  if is_felid (you g) then Done (Some (ammo_action (-1)))
  else
    cur_launcher ← action_cycler_get the_launcher_action g;
    cur_quiver ← action_cycler_get the_quiver_action g;
    let cur_launcher_item := get_item C cur_launcher in
    let cur_quiver_item := get_item C cur_quiver in
    let fits := fun ammo =>
      _item_matches C ammo (FIRE_LAUNCHER C) item false in
    slot ←
      (launcher_fits ← defined_at (you g) cur_launcher_item fits;
       if (launcher_fits : bool) then Done cur_launcher_item
       else
         quiver_fits ← defined_at (you g) cur_quiver_item fits;
         if (quiver_fits : bool) then Done cur_quiver_item
         else get_last_ammo g (_get_weapon_ammo_type C item));
    let slot :=
      if slot =? -1 then
        match _get_item_fire_order C (you g) [] false item false with
        | first :: _ => first
        | [] => slot
        end
      else slot in
    Done (Some (ammo_action slot)).

Definition find_replacement (a : action) (g : game) : outcome (ptr action) :=
  match a with
  | ammo_action _ | fumble_action _ =>
      find_action_from_launcher (weapon (you g)) g
  | _ => Done (action_find_replacement C)
  end.

Definition action_cycler_on_actions_changed (this : cycler) (g : game)
  : outcome game :=
  a ← action_cycler_get this g;
  g ←
    (if negb (is_valid C (you g) a) then
       r ← find_replacement a g;
       match r with
       | Some ra =>
           if is_valid C (you g) ra then snd <$> cycler_set this r g
           else snd <$> action_cycler_cycle this (cycle_default_dir C)
                          (cycle_default_allow_disabled C) g
       | None =>
           snd <$> action_cycler_cycle this (cycle_default_dir C)
                     (cycle_default_allow_disabled C) g
       end
     else Done g);
  Done (set_needs_redraw this g).

(** [quiver::on_actions_changed()]. *)
Definition on_actions_changed (g : game) : outcome game :=
  g ← action_cycler_on_actions_changed the_quiver_action g;
  action_cycler_on_actions_changed the_launcher_action g.

(** [ActionSelectMenu::set_to_quiver], for the menu opened on [cur_quiver]. *)
Definition set_to_quiver (cur_quiver : cycler) (allow_empty : bool)
    (s : ptr action) (g : game) : outcome (bool * game) :=
  match s with
  | Some sa =>
      if is_valid C (you g) sa
         && (allow_empty || negb (action_eqb sa base_action))
      then
        '(_, g) ← cycler_set cur_quiver s g;
        g ← (if bool_decide (cur_quiver = the_quiver_action)
             then snd <$> launcher_action_cycler_set s g
             else Done g);
        Done (true, g)
      else Done (false, g)
  | None => Done (false, g)
  end.

(** [choose(cur_quiver, allow_empty)]: the menu ends by handing one action
    to [set_to_quiver], or none. *)
Definition choose (cur_quiver : cycler) (allow_empty : bool)
    (picked : ptr action) (g : game) : outcome game :=
  snd <$> set_to_quiver cur_quiver allow_empty picked g.

(** *** The targeting loop *)

(** The body of the [do ... while] of [action_cycler::target], repeated
    while the user's responses last.  The result is [None] when they run out
    before the loop ends, and otherwise the game with the final values of
    [what_happened] and [force_restore_initial].  When [do_target] returns
    [nullptr] it has asked nothing of the user. *)
Fixpoint target_loop (this : cycler) (script : list response) (g : game)
  : outcome (option (game * command_type * bool)) :=
  let a := get_ptr this g in
  match a with
  | None => Done (Some (g, CMD_NO_CMD, true))
  | Some a_ref =>
      if negb (is_valid C (you g) a_ref)
      then Done (Some (g, CMD_NO_CMD, true))
      else
        match script with
        | [] => Done None
        | r :: script' =>
            let g := engine r g in
            let force_restore_initial := negb (is_valid C (you g) a_ref) in
            match cmd_result r with
            | CMD_TARGET_CYCLE_QUIVER_FORWARD =>
                '(_, g) ← action_cycler_cycle this 1 false g;
                target_loop this script' g
            | CMD_TARGET_CYCLE_QUIVER_BACKWARD =>
                '(_, g) ← action_cycler_cycle this (-1) false g;
                target_loop this script' g
            | CMD_TARGET_SELECT_ACTION =>
                g ← choose this false (menu_choice r) g;
                target_loop this script' g
            | CMD_FIRE => Done (Some (g, CMD_FIRE, force_restore_initial))
            | CMD_NO_CMD | CMD_OTHER =>
                Done (Some (g, CMD_NO_CMD, force_restore_initial))
            end
        end
  end.

Definition action_cycler_target (this : cycler) (script : list response)
    (g : game) : outcome (option game) :=
  let initial := get_ptr this g in
  r ← target_loop this script g;
  match r with
  | None => Done None
  | Some (g, what_happened, force_restore_initial) =>
      match initial with
      | Some i =>
          if (bool_decide (what_happened = CMD_NO_CMD)
              || force_restore_initial)
             && is_valid C (you g) i
          then '(_, g) ← cycler_set this initial g; Done (Some g)
          else Done (Some g)
      | None => Done (Some g)
      end
  end.

(** [action_cycler::save] and [action_cycler::load] on the table
    [you.props[key]]; [props] holds that table, if the key exists. *)
Definition action_cycler_save (this : cycler) (g : game)
    (props : option (gmap string store_value))
  : outcome (gmap string store_value) :=
  a ← action_cycler_get this g;
  Done (save a (default ∅ props)).

Definition action_cycler_load (this : cycler) (g : game)
    (props : option (gmap string store_value)) : outcome game :=
  '(g, target) ←
    match props with
    | Some target => Done (g, target)
    | None =>
        r ← find_action_from_launcher (weapon (you g)) g;
        '(_, g) ← cycler_set this r g;
        a ← action_cycler_get this g;
        g ← (if negb (is_valid C (you g) a)
             then snd <$> action_cycler_cycle this (cycle_default_dir C)
                            (cycle_default_allow_disabled C) g
             else Done g);
        target ← action_cycler_save this g None;
        Done (g, target)
    end;
  n ← _load_action target;
  '(_, g) ← cycler_set this n g;
  action_cycler_on_actions_changed this g.

End cyclers.

(** ** Runs of operations *)

Section runs.
Context (C : collab).

(** A freshly constructed game: both cyclers as their constructor leaves
    them, an ammo history of default-constructed items, no flag set. *)
Definition game_new (p : player) : game :=
  {| you := p;
     quiver_action := action_cycler_new;
     launcher_action := action_cycler_new;
     m_quiver_history := ammo_history_new C;
     redraw_quiver := false;
     wield_change := false |}.

(** Calls on a cycler, and changes of the state they read in between. *)
Inductive cycler_op : Type :=
  | op_set (this : cycler) (new_act : ptr action)
  | op_set_from (this other : cycler)
  | op_cycle (this : cycler) (dir : Z) (allow_disabled : bool)
  | op_clear (this : cycler)
  | op_world (p : player).

Definition run_cycler_op (op : cycler_op) (g : game) : outcome game :=
  match op with
  | op_set this new_act => snd <$> cycler_set C this new_act g
  | op_set_from this other => Done (action_cycler_set_from this other g)
  | op_cycle this dir allow_disabled =>
      snd <$> action_cycler_cycle C this dir allow_disabled g
  | op_clear this => snd <$> action_cycler_clear C this g
  | op_world p => Done (with_you p g)
  end.

Fixpoint run_cycler_ops (ops : list cycler_op) (g : game) : outcome game :=
  match ops with
  | [] => Done g
  | op :: ops' => g ← run_cycler_op op g; run_cycler_ops ops' g
  end.

(** The one call that dereferences a null pointer: [set(nullptr)] on the
    launcher cycler. *)
Definition null_launcher_set (op : cycler_op) : bool :=
  match op with
  | op_set the_launcher_action None => true
  | _ => false
  end.

(** A [set] of an action whose slot is at or past the end of the pack; the
    call may read [you.inv] there. *)
Definition set_past_pack (op : cycler_op) : bool :=
  match op with
  | op_set _ (Some a) => ENDOFPACK <=? get_item C a
  | _ => false
  end.

(** Both cyclers of the player hold an action. *)
Definition cyclers_ok (g : game) : Prop :=
  is_Some (quiver_action g) /\ is_Some (launcher_action g).

(** Calls on the ammo history, and changes of the game state in between. *)
Inductive history_op : Type :=
  | h_set_quiver (item : item_def) (ammo_type : launcher)
  | h_on_item_fired (item : item_def) (explicitly_chosen : bool)
  | h_world (p : player).

Definition run_history_op (op : history_op) (g : game) : game :=
  match op with
  | h_set_quiver item ammo_type => set_quiver item ammo_type g
  | h_on_item_fired item explicitly_chosen =>
      on_item_fired C item explicitly_chosen g
  | h_world p => with_you p g
  end.

Definition run_history_ops (ops : list history_op) (g : game) : game :=
  foldl (fun g op => run_history_op op g) g ops.

(** [find_next(1, allow_disabled, true)] applied [n] times, starting at
    [a]. *)
Fixpoint cycle_forward (p : player) (allow_disabled : bool) (n : nat)
    (a : action) : ptr action :=
  match n with
  | O => Some a
  | S n' =>
      match find_next C p a 1 allow_disabled true with
      | Some b => cycle_forward p allow_disabled n' b
      | None => None
      end
  end.

(** The fire order as [find_next] walks it. *)
Definition directed_order (p : player) (a : action) (dir : Z)
    (allow_disabled : bool) : list action :=
  if dir <? 0 then reverse (get_fire_order C p a allow_disabled)
  else get_fire_order C p a allow_disabled.

(** *** Sort keys of the ammo fire order *)

(** The rank the code gives the item in slot [i_inv]: the first index of
    [Options.fire_order] at which the test of the inner loop holds. *)
Definition fire_rank (p : player) (launcher : ptr item_def) (manual : bool)
    (i_inv : Z) : option Z :=
  first_flag (fire_flag_test C p (inv p i_inv) launcher manual) 0
    (fire_order p).

(** The rank in the words of the specification: "position of first matching
    filter in the configured filter list". *)
Definition first_matching_filter (p : player) (launcher : ptr item_def)
    (manual : bool) (i_inv : Z) : option Z :=
  first_flag (fun flags => _item_matches C (inv p i_inv) flags launcher manual)
    0 (fire_order p).

(** Lexicographic order on (rank, slot); an item without a rank is no
    candidate and sorts as rank 0. *)
Definition by_rank_then_slot (rank : Z -> option Z) (s1 s2 : Z) : Prop :=
  default 0 (rank s1) < default 0 (rank s2)
  \/ (default 0 (rank s1) = default 0 (rank s2) /\ s1 < s2).

#[export] Instance by_rank_then_slot_dec rank s1 s2 :
  Decision (by_rank_then_slot rank s1 s2).
Proof. unfold by_rank_then_slot. apply _. Defined.

(** The slots of a list of ammo actions. *)
Definition slots_of (o : list action) : list Z := get_item C <$> o.

(** No fire order of the six kinds that [_get_next_action_type] walks offers
    an action; [SPELL_NO_SPELL] is taken not to be a spell of the player. *)
Definition nothing_offered (p : player) (allow_disabled : bool) : Prop :=
  ammo_action_get_fire_order C p allow_disabled = []
  /\ wand_action_get_fire_order C p allow_disabled = []
  /\ misc_action_get_fire_order C p allow_disabled = []
  /\ artefact_evoke_action_get_fire_order C p allow_disabled = []
  /\ ability_action_get_fire_order C p allow_disabled = []
  /\ (spell_action_is_valid C p (SPELL_NO_SPELL C) = false ->
      spell_action_get_fire_order C p allow_disabled = []).

(** What the enumerations of the other subsystems and the options are
    expected to satisfy: the pack is listed from a slot that exists, no
    talent is listed twice, and no spell the player has sits on two
    letters. *)
Definition enumerations_distinct (p : player) : Prop :=
  0 <= fire_items_start p
  /\ NoDup (your_talents p)
  /\ (forall i j, 0 <= i < 52 -> 0 <= j < 52 ->
        get_spell_by_letter p i = get_spell_by_letter p j ->
        spell_action_is_valid C p (get_spell_by_letter p i) = true ->
        i = j).

End runs.

(** ** Sample game states

    One assignment of the parameters, and a few inventories, on which the
    definitions above are run. *)

Definition MI_ARROW_sample : Z := 1.

Definition item_unassigned : item_def :=
  {| base_type := OBJ_OTHER 0; sub_type := 0; quantity := 0;
     inscription := ""; link := -1; slot := 0; unrand_idx := 0 |}.

Definition sample_collab : collab :=
  {| WPN_HUNTING_SLING := 20; WPN_FUSTIBALUS := 21; WPN_SHORTBOW := 22;
     WPN_LONGBOW := 23; WPN_HAND_CROSSBOW := 24; WPN_ARBALEST := 25;
     WPN_TRIPLE_CROSSBOW := 26;
     MI_STONE := 4; MI_JAVELIN := 7; MI_LARGE_ROCK := 6;
     MI_THROWING_NET := 8; MI_BOOMERANG := 9; MI_DART := 0;
     WAND_DIGGING := 5;
     MISC_ZIGGURAT := 12;
     FIRE_LAUNCHER := 0x0001; FIRE_DART := 0x0002; FIRE_STONE := 0x0004;
     FIRE_JAVELIN := 0x0010; FIRE_ROCK := 0x0100; FIRE_NET := 0x0200;
     FIRE_BOOMERANG := 0x0800; FIRE_INSCRIBED := 0x1000;
     SPELL_NO_SPELL := 0;
     ABIL_NON_ABILITY := 0; NUM_ABILITIES := 1000;
     ABIL_FIRST_SACRIFICE := 500; ABIL_FINAL_SACRIFICE := 520;
     ABIL_HEPLIAKLQANA_FIRST_TYPE := 600; ABIL_HEPLIAKLQANA_LAST_TYPE := 602;
     ABIL_END_TRANSFORMATION := 701; ABIL_CANCEL_PPROJ := 702;
     ABIL_EXSANGUINATE := 703; ABIL_REVIVIFY := 704;
     ABIL_EVOKE_TURN_VISIBLE := 705; ABIL_ZIN_DONATE_GOLD := 706;
     ABIL_TSO_BLESS_WEAPON := 707; ABIL_KIKU_BLESS_WEAPON := 708;
     ABIL_KIKU_GIFT_NECRONOMICON := 709; ABIL_SIF_MUNA_FORGET_SPELL := 710;
     ABIL_LUGONU_BLESS_WEAPON := 711; ABIL_BEOGH_GIFT_ITEM := 712;
     ABIL_ASHENZARI_CURSE := 713; ABIL_RU_REJECT_SACRIFICES := 714;
     ABIL_HEPLIAKLQANA_IDENTITY := 715; ABIL_STOP_RECALL := 716;
     ABIL_RENOUNCE_RELIGION := 717; ABIL_CONVERT_TO_BEOGH := 718;
     ABIL_FLY := 719; ABIL_TRAN_BAT := 720;
     UNRAND_DISPATER := 30; UNRAND_OLGREB := 31;
     COL_UNKNOWN := -1; COL_FORBIDDEN := 100;
     item_def_new := item_unassigned;
     defined := fun item =>
       negb (bool_decide (base_type item = OBJ_OTHER 0))
       && (0 <? quantity item);
     launched_by := fun item l =>
       bool_decide (base_type item = OBJ_MISSILES)
       && (sub_type item =? MI_ARROW_sample)
       && bool_decide (base_type l = OBJ_WEAPONS)
       && ((sub_type l =? 22) || (sub_type l =? 23));
     is_unrandom_artefact := fun item => negb (unrand_idx item =? 0);
     unrand_entry_evokes := fun idx => (idx =? 30) || (idx =? 31);
     items_similar := fun a b =>
       bool_decide (base_type a = base_type b) && (sub_type a =? sub_type b);
     in_inventory := fun item => 0 <=? link item;
     is_valid_spell := fun s => 0 <? s;
     action_is_valid := true;
     action_is_enabled := false;
     action_get_item := -1;
     action_find_replacement := None;
     action_get_fire_order := [];
     cycle_default_dir := 1;
     cycle_default_allow_disabled := true |}.

(** An item of class [cls] and sub-type [sub], [n] of them, in slot [i]. *)
Definition item_in_slot (cls : object_class) (sub n i : Z) : item_def :=
  {| base_type := cls; sub_type := sub; quantity := n; inscription := "";
     link := i; slot := i; unrand_idx := 0 |}.

(** The pack holding the listed items, each in the slot of its [link]. *)
Fixpoint pack_of (items : list item_def) (i : Z) : item_def :=
  match items with
  | [] => item_unassigned
  | item :: items' => if link item =? i then item else pack_of items' i
  end.

(** A player without spells or talents who carries [items], wields the item
    in slot [wielded] (none when negative), and has the given [auto_switch]
    and [fire_order] options; [can_evoke] is the answer of [evoke_check]. *)
Definition sample_player_with (can_evoke : bool) (items : list item_def)
    (wielded : Z) (autoswitch : bool) (filters : list Z) : player :=
  {| is_felid := false;
     inv := pack_of items;
     equip_weapon := wielded;
     weapon := if wielded <? 0 then None else Some (pack_of items wielded);
     auto_switch := autoswitch;
     fire_items_start := 0;
     fire_order := filters;
     fail_severity_to_quiver := 3;
     is_launched := fun l item =>
       match l with
       | Some w =>
           if launched_by sample_collab item w then LAUNCHED
           else if bool_decide (base_type item = OBJ_MISSILES) then THROWN
           else FUMBLED
       | None =>
           if bool_decide (base_type item = OBJ_MISSILES) then THROWN
           else FUMBLED
       end;
     fire_warn_if_impossible := false;
     check_warning_inscriptions := fun _ => true;
     item_is_equipped := fun item => link item =? wielded;
     evoke_check := fun _ => can_evoke;
     enough_hp := fun _ => true;
     enough_mp := fun _ => true;
     has_spell := fun _ => false;
     can_cast_spells := true;
     spell_is_useless := fun _ => false;
     get_spell_by_letter := fun _ => 0;
     fail_severity := fun _ => 0;
     spell_highlight_by_utility := fun _ col => col;
     your_talents := [];
     check_ability_possible := fun _ => true |}.

Definition sample_player : list item_def -> Z -> bool -> list Z -> player :=
  sample_player_with true.

Definition sample_game (p : player) (quivered : action) : game :=
  {| you := p;
     quiver_action := Some quivered;
     launcher_action := action_cycler_new;
     m_quiver_history := ammo_history_new sample_collab;
     redraw_quiver := false;
     wield_change := false |}.

(** The default of the [fire_order] option: launcher ammo first. *)
Definition filters_launcher_first : list Z :=
  [0x0001; 0x0800; 0x0010; 0x0002; 0x0004; 0x0100; 0x0200; 0x1000].

(** A shortbow wielded from slot a, arrows in slots 3 and 5. *)
Definition archer : player :=
  sample_player
    [ item_in_slot OBJ_WEAPONS 22 1 0;
      item_in_slot OBJ_MISSILES MI_ARROW_sample 20 3;
      item_in_slot OBJ_MISSILES MI_ARROW_sample 7 5 ]
    0 false filters_launcher_first.

(** A club wielded from slot a with [auto_switch] on, javelins in slot 3
    and stones in slot 5; the filter list asks for stones first, then
    javelins. *)
Definition switcher : player :=
  sample_player
    [ item_in_slot OBJ_WEAPONS 0 1 0;
      item_in_slot OBJ_MISSILES 7 4 3;
      item_in_slot OBJ_MISSILES 4 30 5 ]
    0 true [0x0004; 0x0010].

(** The stacks of [switcher] with [auto_switch] off and nothing wielded,
    under a filter list of 32768 filters for javelins followed by one for
    stones. *)
Definition many_filters : player :=
  sample_player
    [ item_in_slot OBJ_MISSILES 7 4 3;
      item_in_slot OBJ_MISSILES 4 30 5 ]
    (-1) false (replicate (Z.to_nat 32768) 0x0010 ++ [0x0004]).

(** Nothing wielded; three wands in slots 0, 1 and 2. *)
Definition wand_bearer : player :=
  sample_player
    [ item_in_slot OBJ_WANDS 1 1 0;
      item_in_slot OBJ_WANDS 2 1 1;
      item_in_slot OBJ_WANDS 3 1 2 ]
    (-1) false filters_launcher_first.

(** The pack of [wand_bearer] while nothing can be evoked: the wands are
    valid and disabled. *)
Definition unable_to_evoke : player :=
  sample_player_with false
    [ item_in_slot OBJ_WANDS 1 1 0;
      item_in_slot OBJ_WANDS 2 1 1;
      item_in_slot OBJ_WANDS 3 1 2 ]
    (-1) false filters_launcher_first.

(** Nothing wielded; a wand of digging in slot 0 and nothing else. *)
Definition digger : player :=
  sample_player [ item_in_slot OBJ_WANDS 5 1 0 ] (-1) false
    filters_launcher_first.

(** Nothing wielded; one wand in slot 0, and the state once it is used up. *)
Definition last_charge : player :=
  sample_player [ item_in_slot OBJ_WANDS 1 1 0 ] (-1) false
    filters_launcher_first.

Definition empty_handed : player :=
  sample_player [] (-1) false filters_launcher_first.

(** [p] with the talents [talents]. *)
Definition with_talents (talents : list Z) (p : player) : player :=
  {| is_felid := is_felid p;
     inv := inv p;
     equip_weapon := equip_weapon p;
     weapon := weapon p;
     auto_switch := auto_switch p;
     fire_items_start := fire_items_start p;
     fire_order := fire_order p;
     fail_severity_to_quiver := fail_severity_to_quiver p;
     is_launched := is_launched p;
     fire_warn_if_impossible := fire_warn_if_impossible p;
     check_warning_inscriptions := check_warning_inscriptions p;
     item_is_equipped := item_is_equipped p;
     evoke_check := evoke_check p;
     enough_hp := enough_hp p;
     enough_mp := enough_mp p;
     has_spell := has_spell p;
     can_cast_spells := can_cast_spells p;
     spell_is_useless := spell_is_useless p;
     get_spell_by_letter := get_spell_by_letter p;
     fail_severity := fail_severity p;
     spell_highlight_by_utility := spell_highlight_by_utility p;
     your_talents := talents;
     check_ability_possible := check_ability_possible p |}.

(** Nothing in the pack; [your_talents] lists ability 3 twice, then 7. *)
Definition twice_talented : player := with_talents [3; 3; 7] empty_handed.

(** Zapping the last charge: the wand is gone from the pack, and the item
    code then calls [quiver::on_actions_changed()]. *)
Definition zap_last_charge : response :=
  {| engine := fun g =>
       match on_actions_changed sample_collab (with_you empty_handed g) with
       | Done g' => g'
       | Crash => g
       end;
     cmd_result := CMD_FIRE;
     menu_choice := None |}.

(** Responses of a user who changes nothing in the game. *)
Definition press (cmd : command_type) : response :=
  {| engine := fun g => g; cmd_result := cmd; menu_choice := None |}.

(** ** More of quiver.cc

    The functions of the file that the development above does not use. *)

(** A token of the stream the ammo history is marshalled to. *)
Inductive marshalled : Type :=
  | M_short (n : Z)
  | M_item (item : item_def)
  | M_int (n : Z).

(** Conversion to [short]. *)
Definition to_short (z : Z) : Z := (z + 2 ^ 15) mod 2 ^ 16 - 2 ^ 15.

Definition QUIVER_COOKIE : Z := to_short 0xb015.

Definition unmarshallShort (inf : list marshalled)
  : outcome (Z * list marshalled) :=
  match inf with
  | M_short n :: rest => Done (n, rest)
  | _ => Crash
  end.

Definition unmarshallInt (inf : list marshalled)
  : outcome (Z * list marshalled) :=
  match inf with
  | M_int n :: rest => Done (n, rest)
  | _ => Crash
  end.

Definition unmarshallItem (inf : list marshalled)
  : outcome (item_def * list marshalled) :=
  match inf with
  | M_item item :: rest => Done (item, rest)
  | _ => Crash
  end.

(** The enumerators of spell_type that quiver.cc names, and what it asks
    about the targeting of a spell. *)
Record spell_targeting : Type := {
  SPELL_FULMINANT_PRISM : Z; SPELL_GRAVITAS : Z; SPELL_PASSWALL : Z;
  SPELL_GOLUBRIAS_PASSAGE : Z; SPELL_LRD : Z; SPELL_INVISIBILITY : Z;
  SPELL_APPORTATION : Z;
  (* Options.simple_targeting *)
  simple_targeting : bool;
  (* find_spell_targeter(s, 100, LOS_RADIUS) is non-null and its
     can_affect_outside_range() holds *)
  targeter_affects_outside_range : Z -> bool;
  (* get_spell_flags(spell) & spflag::targeting_mask is non-zero *)
  has_targeting_flag : Z -> bool;
  spell_has_targeter : Z -> bool;
}.

Definition _spell_needs_manual_targeting (S : spell_targeting) (s : Z)
  : bool :=
  if (s =? SPELL_FULMINANT_PRISM S) || (s =? SPELL_GRAVITAS S)
     || (s =? SPELL_PASSWALL S) || (s =? SPELL_GOLUBRIAS_PASSAGE S)
  then true
  else false.

Definition _spell_autotarget_incompatible (S : spell_targeting) (s : Z)
  : bool :=
  if negb (simple_targeting S) && targeter_affects_outside_range S s
  then true
  else if (s =? SPELL_LRD S) || (s =? SPELL_INVISIBILITY S)
          || (s =? SPELL_APPORTATION S)
  then true
  else _spell_needs_manual_targeting S s.

Definition spell_action_is_dynamic_targeted (S : spell_targeting) (spell : Z)
  : bool :=
  has_targeting_flag S spell.

Definition spell_action_is_targeted (S : spell_targeting) (spell : Z)
  : bool :=
  spell_action_is_dynamic_targeted S spell || spell_has_targeter S spell.

Definition spell_action_allow_autofight (S : spell_targeting) (spell : Z)
  : bool :=
  spell_action_is_dynamic_targeted S spell
  && negb (_spell_autotarget_incompatible S spell).

(** The part of [dist] that [spell_action::trigger] sets up before it
    casts. *)
Record dist : Type := {
  target : Z * Z;
  find_target : bool;
  interactive : bool;
}.

(** [spell_action::trigger], from [target = t] to the call of
    [cast_a_spell]: the target the spell is cast with; [pos] is
    [you.pos()]. *)
Definition spell_action_trigger_target (S : spell_targeting) (spell : Z)
    (pos : Z * Z) (t : dist) : dist :=
  if _spell_needs_manual_targeting S spell then
    {| target := (-1, -1); find_target := false; interactive := true |}
  else if _spell_autotarget_incompatible S spell then
    {| target := (-1, -1); find_target := true;
       interactive := interactive t |}
  else if negb (spell_action_is_dynamic_targeted S spell) then
    {| target := pos; find_target := find_target t;
       interactive := interactive t |}
  else t.

Section more_quiver.
Context (C : collab).

(** [slot_to_action(slot, force)]; [worn] holds [you.equip[i]] for [i] from
    [EQ_MIN_ARMOUR] to [EQ_MAX_WORN]. *)
Definition slot_to_action (p : player) (worn : list Z) (slot : Z)
    (force : bool) : ptr action :=
  if (slot <? 0) || (ENDOFPACK <=? slot) || negb (defined C (inv p slot))
  then None
  else if existsb (fun equipped => equipped =? slot) worn
  then Some (ammo_action (-1))
  else if bool_decide (base_type (inv p slot) = OBJ_WANDS)
  then Some (wand_action slot)
  else if bool_decide (base_type (inv p slot) = OBJ_MISCELLANY)
  then Some (misc_action slot)
  else if is_unrandom_artefact C (inv p slot)
  then Some (artefact_evoke_action slot)
  else
    let a := ammo_action slot in
    if force && negb (is_valid C p a) then Some (fumble_action slot)
    else Some a.

(** [action_cycler::set_from_slot]; [force] is the default argument of
    [slot_to_action], which quiver.h declares. *)
Definition action_cycler_set_from_slot (this : cycler) (worn : list Z)
    (force : bool) (slot : Z) (g : game) : outcome (bool * game) :=
  cycler_set C this (slot_to_action (you g) worn slot force) g.

Definition action_cycler_spell_is_quivered (this : cycler) (s : Z) (g : game)
  : outcome bool :=
  a ← action_cycler_get this g;
  Done (action_eqb a (spell_action s)).

Definition action_cycler_item_is_quivered (this : cycler) (item_slot : Z)
    (g : game) : outcome bool :=
  if (0 <=? item_slot) && (item_slot <? ENDOFPACK) then
    a ← action_cycler_get this g;
    Done (get_item C a =? item_slot)
  else Done false.

(** [choose]: the actions gathered for the menu, each fire order with the
    default [allow_disabled = true], and those that get an entry. *)
Definition choose_actions (p : player) : list action :=
  get_fire_order C p (ammo_action (-1)) true
  ++ get_fire_order C p (wand_action (-1)) true
  ++ get_fire_order C p (misc_action (-1)) true
  ++ get_fire_order C p (artefact_evoke_action (-1)) true
  ++ get_fire_order C p (spell_action (SPELL_NO_SPELL C)) true
  ++ get_fire_order C p (ability_action (ABIL_NON_ABILITY C)) true.

Definition choose_entries (p : player) : list action :=
  filter (fun a => is_valid C p a = true) (choose_actions p).

(** [ammo_history::save]; [layout] lists the launchers in the order of
    their enumerators, which is the order of the array. *)
Definition ammo_history_save (layout : list launcher) (h : ammo_history)
    (outf : list marshalled) : list marshalled :=
  outf
  ++ [M_short QUIVER_COOKIE; M_item (item_def_new C); M_int 0;
      M_int (Z.of_nat (length layout))]
  ++ ((fun t => M_item (h t)) <$> layout).

(** The loop of [ammo_history::load] over the first entries of the array. *)
Fixpoint unmarshall_entries (entries : list launcher) (h : ammo_history)
    (inf : list marshalled) : outcome (ammo_history * list marshalled) :=
  match entries with
  | [] => Done (h, inf)
  | t :: entries' =>
      '(item, inf) ← unmarshallItem inf;
      unmarshall_entries entries' (<[t := item]> h) inf
  end.

Definition ammo_history_load (layout : list launcher) (h : ammo_history)
    (inf : list marshalled) : outcome (ammo_history * list marshalled) :=
  '(cooky, inf) ← unmarshallShort inf;
  if negb (cooky =? QUIVER_COOKIE) then Crash
  else
    '(_, inf) ← unmarshallItem inf;
    '(_, inf) ← unmarshallInt inf;
    '(n, inf) ← unmarshallInt inf;
    let count := to_unsigned n in
    if negb (count <=? Z.of_nat (length layout)) then Crash
    else unmarshall_entries (take (Z.to_nat count) layout) h inf.

End more_quiver.

(** A pack of one of each: a wand, a miscellany item, javelins, a potion. *)
Definition hoarder : player :=
  sample_player
    [ item_in_slot OBJ_WANDS 1 1 0;
      item_in_slot OBJ_MISCELLANY 1 1 1;
      item_in_slot OBJ_MISSILES 7 4 2;
      item_in_slot (OBJ_OTHER 8) 0 1 3 ]
    (-1) false filters_launcher_first.

(** The order of the enumerators of [quiver::launcher]. *)
Definition sample_layout : list launcher :=
  [AMMO_THROW; AMMO_BOW; AMMO_SLING; AMMO_CROSSBOW].

Definition sample_history : ammo_history :=
  <[AMMO_BOW := item_in_slot OBJ_MISSILES MI_ARROW_sample 1 3]>
    (<[AMMO_THROW := item_in_slot OBJ_MISSILES 7 1 2]>
       (ammo_history_new sample_collab)).

Definition sample_spell_targeting : spell_targeting :=
  {| SPELL_FULMINANT_PRISM := 11; SPELL_GRAVITAS := 12; SPELL_PASSWALL := 13;
     SPELL_GOLUBRIAS_PASSAGE := 14; SPELL_LRD := 15; SPELL_INVISIBILITY := 16;
     SPELL_APPORTATION := 17;
     simple_targeting := false;
     targeter_affects_outside_range := fun s => s =? 20;
     has_targeting_flag := fun s => negb (s =? 13);
     spell_has_targeter := fun _ => true |}.

(** * Properties *)

(** ** Comparison and persistence of actions *)

Lemma action_eqb_eq (a b : action) : action_eqb a b = true <-> a = b.
Proof.
  unfold action_eqb. split.
  - intros H. apply andb_prop in H as [Ht He].
    apply bool_decide_eq_true in Ht.
    destruct a, b; simpl in *; try discriminate; try reflexivity;
      apply Z.eqb_eq in He; congruence.
  - intros ->. apply andb_true_intro. split.
    + by apply bool_decide_eq_true.
    + destruct b; simpl; try reflexivity; apply Z.eqb_refl.
Qed.

Lemma action_eqb_refl (a : action) : action_eqb a a = true.
Proof. by apply action_eqb_eq. Qed.

Lemma action_eqb_sym (a b : action) : action_eqb a b = action_eqb b a.
Proof.
  destruct (action_eqb a b) eqn:Hab, (action_eqb b a) eqn:Hba; try reflexivity.
  - apply action_eqb_eq in Hab as ->. by rewrite action_eqb_refl in Hba.
  - apply action_eqb_eq in Hba as ->. by rewrite action_eqb_refl in Hab.
Qed.

Lemma action_eqb_neq (a b : action) : action_eqb a b = false <-> a <> b.
Proof.
  rewrite <- action_eqb_eq. destruct (action_eqb a b); split; congruence.
Qed.

Lemma saved_type (ty p : store_value) (tbl : gmap string store_value) :
  (<["param" := p]> (<["type" := ty]> tbl)) !! "type" = Some ty.
Proof. rewrite lookup_insert_ne by done. apply lookup_insert_eq. Qed.

Lemma saved_param (ty p : store_value) (tbl : gmap string store_value) :
  (<["param" := p]> (<["type" := ty]> tbl)) !! "param" = Some p.
Proof. apply lookup_insert_eq. Qed.

Lemma load_save (a : action) (tbl : gmap string store_value) :
  concrete a = true -> _load_action (save a tbl) = Done (Some a).
Proof.
  intros Hc. unfold _load_action, table_at.
  destruct a; try discriminate Hc; unfold save;
    rewrite saved_type, saved_param;
    rewrite !bool_decide_eq_true_2 by eauto; reflexivity.
Qed.

(** C1.  For an action [a] of any of the seven concrete kinds and any
    integer payload, loading the record that [a.save] wrote (into any table)
    returns an action that [equals] and [operator==] find equal to [a], with
    the same dynamic type and the same payload; no state of the game is
    consulted, so this holds whether or not the payload still resolves, and
    the loaded action is valid exactly when [a] is.  Moreover [operator==],
    which is [equals] on actions of one kind, is reflexive and symmetric on
    all actions. *)
Theorem save_load_round_trip (a : action) (tbl : gmap string store_value) :
  (concrete a = true ->
   exists a', _load_action (save a tbl) = Done (Some a')
     /\ equals a' a = true /\ action_eqb a' a = true
     /\ typeid a' = typeid a /\ payload a' = payload a
     /\ forall C p, is_valid C p a' = is_valid C p a)
  /\ action_eqb a a = true
  /\ (forall b, action_eqb a b = action_eqb b a).
Proof.
  split; [| split].
  - intros Hc. exists a. rewrite (load_save a tbl Hc).
    pose proof (action_eqb_refl a) as Hr. unfold action_eqb in Hr.
    apply andb_prop in Hr as [_ He]. by rewrite action_eqb_refl, He.
  - apply action_eqb_refl.
  - apply action_eqb_sym.
Qed.

Lemma save_load_round_trip_witness :
  exists a', _load_action (save (ability_action 7) ∅) = Done (Some a')
     /\ equals a' (ability_action 7) = true
     /\ action_eqb a' (ability_action 7) = true
     /\ typeid a' = T_ability /\ payload a' = Some 7
     /\ forall C p, is_valid C p a' = is_valid C p (ability_action 7).
Proof.
  exact (proj1 (save_load_round_trip (ability_action 7) ∅) eq_refl).
Defined.

(** ** The cyclers *)

Section cycler_facts.
Context (C : collab).

Lemma action_cycler_get_current (this : cycler) (g : game) (a : action) :
  current this g = Some a -> action_cycler_get this g = Done a.
Proof. unfold action_cycler_get. by intros ->. Qed.

Lemma current_set_needs_redraw (this other : cycler) (g : game) :
  current other (set_needs_redraw this g) = current other g.
Proof. by destruct this, other. Qed.

Lemma you_set_needs_redraw (this : cycler) (g : game) :
  you (set_needs_redraw this g) = you g.
Proof. by destruct this. Qed.

Lemma history_set_needs_redraw (this : cycler) (g : game) :
  m_quiver_history (set_needs_redraw this g) = m_quiver_history g.
Proof. by destruct this. Qed.

Lemma current_with_current_eq (this : cycler) (n : ptr action) (g : game) :
  current this (with_current this n g) = n.
Proof. by destruct this. Qed.

Lemma current_with_current_ne (this other : cycler) (n : ptr action)
    (g : game) :
  other <> this -> current other (with_current this n g) = current other g.
Proof. by destruct this, other. Qed.

Lemma you_with_current (this : cycler) (n : ptr action) (g : game) :
  you (with_current this n g) = you g.
Proof. by destruct this. Qed.

(** *** Reads of the pack *)

Lemma defined_at_in_pack (p : player) (slot : Z) (test : item_def -> bool) :
  slot < ENDOFPACK ->
  defined_at C p slot test
  = Done ((0 <=? slot) && defined C (inv p slot) && test (inv p slot)).
Proof.
  intros H. unfold defined_at, inv_at.
  destruct (0 <=? slot) eqn:E; [| done].
  destruct (slot <? ENDOFPACK) eqn:E2; [done | apply Z.ltb_ge in E2; lia].
Qed.

Lemma defined_at_past_pack (p : player) (slot : Z) (test : item_def -> bool) :
  ENDOFPACK <= slot -> defined_at C p slot test = Crash.
Proof.
  intros H. unfold defined_at, inv_at.
  destruct (0 <=? slot) eqn:E;
    [| apply Z.leb_gt in E; unfold ENDOFPACK in H; lia].
  destruct (slot <? ENDOFPACK) eqn:E2; [apply Z.ltb_lt in E2; lia | done].
Qed.

Lemma defined_at_done (p : player) (slot : Z) (test : item_def -> bool)
    (b : bool) :
  defined_at C p slot test = Done b ->
  slot < ENDOFPACK
  /\ b = (0 <=? slot) && defined C (inv p slot) && test (inv p slot).
Proof.
  destruct (Z.lt_ge_cases slot ENDOFPACK) as [H | H].
  - rewrite defined_at_in_pack by done. by intros [= <-].
  - by rewrite defined_at_past_pack.
Qed.

Lemma is_currently_launched_in_pack (p : player) (slot : Z) :
  slot < ENDOFPACK ->
  _is_currently_launched_ammo C p slot
  = Done match weapon p with
         | Some w =>
             (0 <=? slot) && defined C (inv p slot)
             && launched_by C (inv p slot) w
         | None => false
         end.
Proof.
  intros H. unfold _is_currently_launched_ammo.
  destruct (weapon p); [by apply defined_at_in_pack | done].
Qed.

Lemma ammo_minus_one_invalid (p : player) :
  is_valid C p (ammo_action (-1)) = false.
Proof. simpl. unfold ammo_action_is_valid. by destruct (is_felid p). Qed.

(** An action that passes [is_valid] names no slot past the pack, as long
    as the [get_item] of the base class does not. *)
Lemma valid_in_pack (p : player) (a : action) :
  get_item C base_action < ENDOFPACK ->
  is_valid C p a = true -> get_item C a < ENDOFPACK.
Proof.
  intros Hbase Hv. destruct a; simpl in *; try exact Hbase;
    unfold ammo_action_is_valid, fumble_action_is_valid,
      wand_action_is_valid, misc_action_is_valid,
      artefact_evoke_action_is_valid in Hv;
    repeat match type of Hv with
           | (if ?b then _ else _) = true =>
               destruct b eqn:?; try discriminate Hv
           end;
    match goal with
    | E : (_ <? 0) || (ENDOFPACK <=? _) = false |- _ =>
        apply orb_false_elim in E as [_ E]; by apply Z.leb_gt in E
    end.
Qed.

(** *** [set] *)

(** What [action_cycler::set] has done when it returns: it has stored its
    argument (the base action for a null pointer), and left the other cycler
    and the state it reads alone. *)
Lemma action_cycler_set_done (this : cycler) (new_act : ptr action)
    (g : game) (a : action) (d : bool) (g' : game) :
  current this g = Some a ->
  action_cycler_set C this new_act g = Done (d, g') ->
  d = negb (action_eqb (default base_action new_act) a)
  /\ current this g' = Some (default base_action new_act)
  /\ (forall other, other <> this -> current other g' = current other g)
  /\ you g' = you g.
Proof.
  intros Ha. unfold action_cycler_set.
  rewrite (action_cycler_get_current this g a Ha). simpl.
  set (n := match new_act with Some a0 => a0 | None => base_action end).
  assert (Hn : default base_action new_act = n) by (by destruct new_act).
  rewrite Hn.
  destruct (negb (action_eqb n a)).
  - destruct (defined_at C _ _ _) as [b |]; [simpl | discriminate].
    destruct b; simpl; intros [= <- <-]; unfold set_quiver;
      (split; [done |]); (split; [| split]);
      try (destruct this; reflexivity);
      try (intros other Ho; destruct this, other; done).
  - simpl. intros [= <- <-]. (split; [done |]); (split; [| split]);
      try (destruct this; reflexivity);
      try (intros other Ho; destruct this, other; done).
Qed.

(** [action_cycler::set] returns whenever the cycler holds an action and the
    action set names no slot past the pack. *)
Lemma action_cycler_set_spec (this : cycler) (new_act : ptr action)
    (g : game) (a : action) :
  current this g = Some a ->
  get_item C (default base_action new_act) < ENDOFPACK ->
  exists g',
    action_cycler_set C this new_act g
    = Done (negb (action_eqb (default base_action new_act) a), g')
    /\ current this g' = Some (default base_action new_act)
    /\ (forall other, other <> this -> current other g' = current other g)
    /\ you g' = you g.
Proof.
  intros Ha Hb.
  assert (Hret : exists r, action_cycler_set C this new_act g = Done r).
  { unfold action_cycler_set.
    rewrite (action_cycler_get_current this g a Ha). simpl.
    replace (match new_act with Some a0 => a0 | None => base_action end)
      with (default base_action new_act) by (by destruct new_act).
    destruct (negb (action_eqb (default base_action new_act) a));
      [| simpl; eauto].
    rewrite defined_at_in_pack by exact Hb. simpl.
    destruct (_ && _); simpl; eauto. }
  destruct Hret as [[d g'] Hret].
  destruct (action_cycler_set_done this new_act g a d g' Ha Hret)
    as (-> & Hrest).
  by exists g'.
Qed.

(** Setting the action the cycler already holds reads nothing. *)
Lemma action_cycler_set_same (this : cycler) (g : game) (a : action) :
  current this g = Some a ->
  action_cycler_set C this (Some a) g = Done (false, set_needs_redraw this g).
Proof.
  intros Ha. unfold action_cycler_set.
  rewrite (action_cycler_get_current this g a Ha). simpl.
  rewrite action_eqb_refl. simpl. do 3 f_equal.
  destruct this, g; simpl in *; by rewrite Ha.
Qed.

Lemma launcher_set_done (a : action) (g : game) (c : action) (d : bool)
    (g' : game) :
  launcher_action g = Some c ->
  launcher_action_cycler_set C (Some a) g = Done (d, g') ->
  is_Some (launcher_action g')
  /\ quiver_action g' = quiver_action g
  /\ you g' = you g.
Proof.
  intros Hc. unfold launcher_action_cycler_set.
  destruct (_is_currently_launched_ammo C (you g) (get_item C a))
    as [launched |]; [simpl | discriminate].
  destruct (launched || action_eqb a base_action).
  - intros H.
    destruct (action_cycler_set_done the_launcher_action (Some a) g c d g'
                Hc H) as (_ & Hcur & Hother & Hyou).
    split; [| split].
    + simpl in Hcur. rewrite Hcur. eauto.
    + apply (Hother the_quiver_action). done.
    + done.
  - intros [= <- <-]. simpl. rewrite Hc. eauto.
Qed.

Lemma launcher_set_some (a : action) (g : game) (c : action) :
  launcher_action g = Some c ->
  get_item C a < ENDOFPACK ->
  exists d g',
    launcher_action_cycler_set C (Some a) g = Done (d, g')
    /\ is_Some (launcher_action g')
    /\ quiver_action g' = quiver_action g
    /\ you g' = you g.
Proof.
  intros Hc Hb.
  assert (Hret : exists r, launcher_action_cycler_set C (Some a) g = Done r).
  { unfold launcher_action_cycler_set.
    rewrite is_currently_launched_in_pack by exact Hb. simpl.
    destruct (_ || _); [| eauto].
    destruct (action_cycler_set_spec the_launcher_action (Some a) g c Hc Hb)
      as (g' & -> & _). eauto. }
  destruct Hret as [[d g'] Hret]. exists d, g'. split; [exact Hret |].
  by apply (launcher_set_done a g c d g').
Qed.

(** The virtual [set], when it returns, leaves an action in both cyclers. *)
Lemma cycler_set_done (this : cycler) (new_act : ptr action) (g : game)
    (d : bool) (g' : game) :
  cyclers_ok g ->
  cycler_set C this new_act g = Done (d, g') ->
  cyclers_ok g' /\ you g' = you g.
Proof.
  intros [[q Hq] [l Hl]]. destruct this; simpl.
  - intros H.
    destruct (action_cycler_set_done the_quiver_action new_act g q d g' Hq H)
      as (_ & Hcur & Hother & Hyou).
    split; [| done]. split.
    + simpl in Hcur. rewrite Hcur. eauto.
    + specialize (Hother the_launcher_action). simpl in Hother.
      rewrite Hother by done. rewrite Hl. eauto.
  - destruct new_act as [a |]; [| discriminate].
    intros H.
    destruct (launcher_set_done a g l d g' Hl H) as (Hl' & Hq' & Hyou).
    split; [| done]. split; [| done]. rewrite Hq', Hq. eauto.
Qed.

(** It returns unless it is handed a null pointer on the launcher cycler or
    an action that names a slot past the pack. *)
Lemma cycler_set_ok (this : cycler) (new_act : ptr action) (g : game) :
  cyclers_ok g ->
  null_launcher_set (op_set this new_act) = false ->
  get_item C (default base_action new_act) < ENDOFPACK ->
  exists d g',
    cycler_set C this new_act g = Done (d, g')
    /\ cyclers_ok g' /\ you g' = you g.
Proof.
  intros Hok Hsafe Hb.
  assert (Hret : exists r, cycler_set C this new_act g = Done r).
  { destruct Hok as [[q Hq] [l Hl]]. destruct this; simpl.
    - destruct (action_cycler_set_spec the_quiver_action new_act g q Hq Hb)
        as (g' & -> & _). eauto.
    - destruct new_act as [a |]; [| discriminate Hsafe].
      destruct (launcher_set_some a g l Hl Hb) as (d & g' & -> & _). eauto. }
  destruct Hret as [[d g'] Hret]. exists d, g'. split; [exact Hret |].
  by apply (cycler_set_done this new_act g d g').
Qed.

(** *** [next] and [cycle] *)

Lemma first_valid_next_valid (p : player) (action_types : list action)
    (dir : Z) (allow_disabled : bool) (n : action) :
  first_valid_next C p action_types dir allow_disabled = Some n ->
  is_valid C p n = true.
Proof.
  induction action_types as [| rep rest IH]; simpl; [discriminate |].
  destruct (find_next C p rep dir allow_disabled false) as [m |]; [| exact IH].
  destruct (is_valid C p m) eqn:E; [| exact IH].
  by intros [= <-].
Qed.

Lemma get_next_action_type_valid (p : player) (a : ptr action) (dir : Z)
    (allow_disabled : bool) (n : action) :
  _get_next_action_type C p a dir allow_disabled = Some n ->
  is_valid C p n = true.
Proof.
  unfold _get_next_action_type.
  destruct (match a with Some _ => _ | None => _ end) as [i skip_first].
  apply first_valid_next_valid.
Qed.

Lemma next_result_valid_or_fallback (this : cycler) (dir : Z)
    (allow_disabled : bool) (g : game) (r : action) :
  action_cycler_next C this dir allow_disabled g = Done (Some r) ->
  is_valid C (you g) r = true \/ r = ammo_action (-1).
Proof.
  unfold action_cycler_next.
  destruct (action_cycler_get this g) as [a |]; [simpl | discriminate].
  destruct (find_next C (you g) a dir allow_disabled false) as [n |].
  - destruct (is_valid C (you g) n) eqn:E.
    + intros [= <-]. by left.
    + destruct (_get_next_action_type _ _ _ _ _) as [m |] eqn:Hm.
      * intros [= <-]. left. by apply get_next_action_type_valid in Hm.
      * intros [= <-]. by right.
  - destruct (_get_next_action_type _ _ _ _ _) as [m |] eqn:Hm.
    + intros [= <-]. left. by apply get_next_action_type_valid in Hm.
    + intros [= <-]. by right.
Qed.


(** [next] never returns a null pointer. *)
Lemma action_cycler_next_not_null (this : cycler) (dir : Z)
    (allow_disabled : bool) (g : game) (a : action) :
  current this g = Some a ->
  exists r, action_cycler_next C this dir allow_disabled g = Done (Some r).
Proof.
  intros Ha. unfold action_cycler_next.
  rewrite (action_cycler_get_current this g a Ha). simpl.
  destruct (find_next C (you g) a dir allow_disabled false) as [r |].
  - destruct (is_valid C (you g) r); [eauto |].
    destruct (_get_next_action_type _ _ _ _ _); eauto.
  - destruct (_get_next_action_type _ _ _ _ _); eauto.
Qed.

Lemma next_in_pack (this : cycler) (dir : Z) (allow_disabled : bool)
    (g : game) (r : action) :
  get_item C base_action < ENDOFPACK ->
  action_cycler_next C this dir allow_disabled g = Done (Some r) ->
  get_item C r < ENDOFPACK.
Proof.
  intros Hbase Hr. apply next_result_valid_or_fallback in Hr as [Hv | ->].
  - by apply (valid_in_pack (you g)).
  - done.
Qed.

Lemma cycle_done (this : cycler) (dir : Z) (allow_disabled : bool)
    (g : game) (d : bool) (g' : game) :
  cyclers_ok g ->
  action_cycler_cycle C this dir allow_disabled g = Done (d, g') ->
  cyclers_ok g' /\ you g' = you g.
Proof.
  intros Hok. unfold action_cycler_cycle.
  destruct (action_cycler_next C this dir allow_disabled g) as [n |];
    [simpl | discriminate].
  by apply cycler_set_done.
Qed.

Lemma cycle_ok (this : cycler) (dir : Z) (allow_disabled : bool) (g : game) :
  get_item C base_action < ENDOFPACK ->
  cyclers_ok g ->
  exists d g',
    action_cycler_cycle C this dir allow_disabled g = Done (d, g')
    /\ cyclers_ok g' /\ you g' = you g.
Proof.
  intros Hbase Hok. unfold action_cycler_cycle.
  assert (exists a, current this g = Some a) as [a Ha].
  { destruct Hok as [[q Hq] [l Hl]]. destruct this; simpl; eauto. }
  destruct (action_cycler_next_not_null this dir allow_disabled g a Ha)
    as [r Hr].
  rewrite Hr. simpl. apply cycler_set_ok; [done | by destruct this |].
  by apply (next_in_pack this dir allow_disabled g).
Qed.

(** *** Runs *)

Lemma run_cycler_op_ok (op : cycler_op) (g : game) :
  get_item C base_action < ENDOFPACK ->
  cyclers_ok g ->
  null_launcher_set op = false ->
  set_past_pack C op = false ->
  exists g', run_cycler_op C op g = Done g' /\ cyclers_ok g'.
Proof.
  intros Hbase Hok Hsafe Hpack.
  destruct op as [this new_act | this other | this dir ad | this | p]; simpl.
  - destruct (cycler_set_ok this new_act g Hok Hsafe)
      as (d & g' & -> & Hok' & _); [| eauto].
    destruct new_act as [a |]; [| exact Hbase].
    simpl in Hpack. by apply Z.leb_gt in Hpack.
  - eexists. split; [reflexivity |]. destruct Hok as [Hq Hl].
    unfold action_cycler_set_from. destruct this, other; split; simpl;
      assumption.
  - destruct (cycle_ok this dir ad g Hbase Hok) as (d & g' & -> & Hok' & _).
    eauto.
  - unfold action_cycler_clear.
    destruct (cycler_set_ok this (Some base_action) g Hok)
      as (d & g' & -> & Hok' & _); [by destruct this | exact Hbase | eauto].
  - eexists. split; [reflexivity |]. exact Hok.
Qed.

Lemma run_cycler_ops_ok (ops : list cycler_op) (g : game) :
  get_item C base_action < ENDOFPACK ->
  cyclers_ok g ->
  Forall (fun op => null_launcher_set op = false
                    /\ set_past_pack C op = false) ops ->
  exists g', run_cycler_ops C ops g = Done g' /\ cyclers_ok g'.
Proof.
  intros Hbase. revert g.
  induction ops as [| op ops IH]; intros g Hok Hsafe; simpl.
  - eauto.
  - apply Forall_cons_1 in Hsafe as [[Hop Hpack] Hops].
    destruct (run_cycler_op_ok op g Hbase Hok Hop Hpack) as (g1 & -> & Hok1).
    simpl. by apply IH.
Qed.

Lemma set_needs_redraw_ok (this : cycler) (g : game) :
  cyclers_ok g -> cyclers_ok (set_needs_redraw this g).
Proof. intros [Hq Hl]. by destruct this. Qed.

(** [on_actions_changed], when it returns, leaves both cyclers holding an
    action. *)
Lemma on_actions_changed_ok (this : cycler) (g g' : game) :
  cyclers_ok g ->
  action_cycler_on_actions_changed C this g = Done g' ->
  cyclers_ok g'.
Proof.
  intros Hok. unfold action_cycler_on_actions_changed.
  destruct (action_cycler_get this g) as [a |]; [simpl | discriminate].
  assert (Hcyc : forall dir ad g1,
             snd <$> action_cycler_cycle C this dir ad g = Done g1 ->
             cyclers_ok g1).
  { intros dir ad g1.
    destruct (action_cycler_cycle C this dir ad g) as [[d g2] |] eqn:E;
      [simpl | discriminate].
    intros [= <-]. by apply (cycle_done this dir ad g d g2). }
  assert (Hset : forall ra g1,
             snd <$> cycler_set C this (Some ra) g = Done g1 ->
             cyclers_ok g1).
  { intros ra g1.
    destruct (cycler_set C this (Some ra) g) as [[d g2] |] eqn:E;
      [simpl | discriminate].
    intros [= <-]. by apply (cycler_set_done this (Some ra) g d g2). }
  destruct (negb (is_valid C (you g) a)); simpl.
  - destruct (find_replacement C a g) as [r |]; [simpl | discriminate].
    destruct r as [ra |]; [destruct (is_valid C (you g) ra) |].
    + destruct (snd <$> cycler_set C this (Some ra) g) as [g1 |] eqn:E;
        [simpl | discriminate].
      intros [= <-]. apply set_needs_redraw_ok. by apply (Hset ra).
    + destruct (snd <$> action_cycler_cycle C this _ _ g) as [g1 |] eqn:E;
        [simpl | discriminate].
      intros [= <-]. apply set_needs_redraw_ok. by apply Hcyc in E.
    + destruct (snd <$> action_cycler_cycle C this _ _ g) as [g1 |] eqn:E;
        [simpl | discriminate].
      intros [= <-]. apply set_needs_redraw_ok. by apply Hcyc in E.
  - intros [= <-]. by apply set_needs_redraw_ok.
Qed.

Lemma set_to_quiver_ok (cur_quiver : cycler) (allow_empty : bool)
    (s : ptr action) (g : game) :
  get_item C base_action < ENDOFPACK ->
  cyclers_ok g ->
  exists b g',
    set_to_quiver C cur_quiver allow_empty s g = Done (b, g')
    /\ cyclers_ok g'.
Proof.
  intros Hbase Hok. unfold set_to_quiver.
  destruct s as [sa |]; [| eauto].
  destruct (is_valid C (you g) sa) eqn:Hv; [| simpl; eauto].
  destruct (allow_empty || negb (action_eqb sa base_action));
    [simpl | simpl; eauto].
  assert (Hb : get_item C sa < ENDOFPACK) by (by apply (valid_in_pack (you g))).
  destruct (cycler_set_ok cur_quiver (Some sa) g Hok)
    as (d & g1 & -> & Hok1 & _); [by destruct cur_quiver | exact Hb |].
  cbn [mbind outcome_bind].
  destruct (bool_decide (cur_quiver = the_quiver_action));
    [| simpl; eauto].
  destruct Hok1 as [Hq1 [l1 Hl1]].
  destruct (launcher_set_some sa g1 l1 Hl1 Hb)
    as (d2 & g2 & H2 & Hl2 & Hq2 & _).
  unfold launcher_action_cycler_set in H2. rewrite H2. simpl.
  eexists _, g2. split; [reflexivity |]. split; [| done].
  by rewrite Hq2.
Qed.

(** While the rest of the game leaves an action in both cyclers, the
    targeting loop does not abort, and it leaves an action in both. *)
Lemma target_loop_ok (this : cycler) (script : list response) (g : game) :
  get_item C base_action < ENDOFPACK ->
  (forall r g0, r ∈ script -> cyclers_ok g0 -> cyclers_ok (engine r g0)) ->
  cyclers_ok g ->
  exists res,
    target_loop C this script g = Done res
    /\ forall g1 wh fr, res = Some (g1, wh, fr) -> cyclers_ok g1.
Proof.
  intros Hbase. revert g.
  induction script as [| r script IH]; intros g Heng Hok.
  - simpl. unfold get_ptr. destruct (current this g) as [a |].
    + destruct (negb (is_valid C (you g) a)).
      * eexists. split; [reflexivity |]. by intros ? ? ? [= <- _ _].
      * eexists. split; [reflexivity |]. discriminate.
    + eexists. split; [reflexivity |]. by intros ? ? ? [= <- _ _].
  - assert (Hok' : cyclers_ok (engine r g)) by (apply Heng; [left | done]).
    assert (Heng' : forall r0 g0, r0 ∈ script -> cyclers_ok g0 ->
                                  cyclers_ok (engine r0 g0)).
    { intros r0 g0 Hr0. apply Heng. by right. }
    simpl. unfold get_ptr. destruct (current this g) as [a |].
    + destruct (negb (is_valid C (you g) a)).
      * eexists. split; [reflexivity |]. by intros ? ? ? [= <- _ _].
      * destruct (cmd_result r).
        -- eexists. split; [reflexivity |]. by intros ? ? ? [= <- _ _].
        -- eexists. split; [reflexivity |]. by intros ? ? ? [= <- _ _].
        -- destruct (cycle_ok this 1 false (engine r g) Hbase Hok')
             as (d & g1 & -> & Hok1 & _).
           simpl. by apply IH.
        -- destruct (cycle_ok this (-1) false (engine r g) Hbase Hok')
             as (d & g1 & -> & Hok1 & _).
           simpl. by apply IH.
        -- unfold choose.
           destruct (set_to_quiver_ok this false (menu_choice r) (engine r g)
                       Hbase Hok') as (b & g1 & -> & Hok1).
           simpl. by apply IH.
        -- eexists. split; [reflexivity |]. by intros ? ? ? [= <- _ _].
    + eexists. split; [reflexivity |]. by intros ? ? ? [= <- _ _].
Qed.

Lemma target_ok (this : cycler) (script : list response) (g : game) :
  get_item C base_action < ENDOFPACK ->
  (forall r g0, r ∈ script -> cyclers_ok g0 -> cyclers_ok (engine r g0)) ->
  cyclers_ok g ->
  exists res,
    action_cycler_target C this script g = Done res
    /\ forall g', res = Some g' -> cyclers_ok g'.
Proof.
  intros Hbase Heng Hok. unfold action_cycler_target.
  destruct (target_loop_ok this script g Hbase Heng Hok) as (res & -> & Hres).
  simpl. destruct res as [[[g1 wh] fr] |].
  - specialize (Hres g1 wh fr eq_refl).
    destruct (get_ptr this g) as [i |].
    + destruct (is_valid C (you g1) i) eqn:Hv.
      * destruct (bool_decide (wh = CMD_NO_CMD) || fr); simpl.
        -- destruct (cycler_set_ok this (Some i) g1 Hres)
             as (d & g2 & -> & Hok2 & _);
             [by destruct this | by apply (valid_in_pack (you g1)) |].
           simpl. eexists. split; [reflexivity |]. by intros ? [= <-].
        -- eexists. split; [reflexivity |]. by intros ? [= <-].
      * rewrite andb_false_r.
        eexists. split; [reflexivity |]. by intros ? [= <-].
    + eexists. split; [reflexivity |]. by intros ? [= <-].
  - eexists. split; [reflexivity |]. discriminate.
Qed.

(** C9.  The constructor of [action_cycler] installs [ammo_action(-1)],
    which is not valid in any state of the game.  [action_cycler::set] on a
    cycler that holds an action returns for a null argument, and the cycler
    then holds the base action.  After any sequence of [set], [set] from
    another cycler, [cycle] and [clear] on the two cyclers of a freshly
    constructed game, interleaved with arbitrary changes of the state they
    read, free of the call [set(nullptr)] on the launcher cycler and of a
    [set] of an action that names a slot at or past [ENDOFPACK], the run has
    returned and [get()] yields an action on either cycler.
    [on_actions_changed], when it returns, and the targeting loop keep an
    action in both cyclers (the loop as long as the code it calls into
    does).  Where a call is said to return, the [get_item] of the base
    class, which quiver.h declares, is taken to name no slot at or past
    [ENDOFPACK]. *)
Theorem current_never_null (p : player) :
  (action_cycler_new = Some (ammo_action (-1))
   /\ is_valid C p (ammo_action (-1)) = false)
  /\ (forall this g a,
        get_item C base_action < ENDOFPACK ->
        current this g = Some a ->
        exists d g', action_cycler_set C this None g = Done (d, g')
                     /\ action_cycler_get this g' = Done base_action)
  /\ (forall ops this,
        get_item C base_action < ENDOFPACK ->
        Forall (fun op => null_launcher_set op = false
                          /\ set_past_pack C op = false) ops ->
        exists g a, run_cycler_ops C ops (game_new C p) = Done g
                    /\ action_cycler_get this g = Done a)
  /\ (forall this g g',
        cyclers_ok g ->
        action_cycler_on_actions_changed C this g = Done g' ->
        cyclers_ok g')
  /\ (forall this script g,
        get_item C base_action < ENDOFPACK ->
        (forall r g0, r ∈ script -> cyclers_ok g0 ->
                      cyclers_ok (engine r g0)) ->
        cyclers_ok g ->
        exists res, action_cycler_target C this script g = Done res
                    /\ forall g', res = Some g' -> cyclers_ok g').
Proof.
  split; [| split; [| split; [| split]]].
  - split; [reflexivity | apply ammo_minus_one_invalid].
  - intros this g a Hbase Ha.
    destruct (action_cycler_set_spec this None g a Ha Hbase)
      as (g' & Hset & Hcur & _).
    eexists _, g'. split; [exact Hset |].
    by apply action_cycler_get_current.
  - intros ops this Hbase Hsafe.
    destruct (run_cycler_ops_ok ops (game_new C p) Hbase)
      as (g & Hrun & Hok).
    { split; simpl; eauto. }
    { exact Hsafe. }
    destruct Hok as [[q Hq] [l Hl]].
    exists g. destruct this.
    + exists q. split; [exact Hrun |]. by apply action_cycler_get_current.
    + exists l. split; [exact Hrun |]. by apply action_cycler_get_current.
  - apply on_actions_changed_ok.
  - apply target_ok.
Qed.

(** C3.  When the action handed to [launcher_action_cycler::set] is not the
    base action and the slot it names does not hold ammo launched by the
    wielded weapon ([_is_currently_launched_ammo] returns false on its
    item), the call returns [false], the action the launcher cycler held
    stays in place, and nothing is written but the redraw request of the
    launcher cycler (its [set_needs_redraw]: [you.redraw_quiver] and
    [you.wield_change]). *)
Theorem launcher_set_rejects (g : game) (a : action) :
  _is_currently_launched_ammo C (you g) (get_item C a) = Done false ->
  a <> base_action ->
  exists g',
    launcher_action_cycler_set C (Some a) g = Done (false, g')
    /\ launcher_action g' = launcher_action g
    /\ g' = with_wield_change true (with_redraw_quiver true g)
    /\ quiver_action g' = quiver_action g
    /\ m_quiver_history g' = m_quiver_history g
    /\ you g' = you g
    /\ redraw_quiver g' = true.
Proof.
  intros Hl Hb. unfold launcher_action_cycler_set. rewrite Hl.
  apply action_eqb_neq in Hb. simpl. rewrite Hb. simpl.
  eexists. split; [reflexivity |]. done.
Qed.

End cycler_facts.

(** C10.  [launcher_action_cycler::set] dereferences its argument and
    aborts on a null pointer; but a non-null argument does not make it
    safe.  [_is_currently_launched_ammo] indexes [you.inv] behind
    [slot >= 0] alone, where [is_valid], [slot_to_action] and
    [item_is_quivered] also test [slot < ENDOFPACK].  [_load_action] turns
    any saved int into a slot, so [action_cycler::load] hands the launcher
    cycler [ammo_action(100)] from a table that says so: with a bow wielded
    the call reads past the pack.  The same action is refused as not valid
    by [ammo_action::is_valid], and a slot of the pack passes. *)
Theorem launcher_set_reads_past_pack :
  let saved : gmap string store_value :=
    <["param" := SV_INT 100]> {["type" := SV_STR "ammo_action"]} in
  let g := game_new sample_collab archer in
  _load_action saved = Done (Some (ammo_action 100))
  /\ launcher_action_cycler_set sample_collab (Some (ammo_action 100)) g
     = Crash
  /\ action_cycler_load sample_collab the_launcher_action g (Some saved)
     = Crash
  /\ launcher_action_cycler_set sample_collab None g = Crash
  /\ is_valid sample_collab archer (ammo_action 100) = false
  /\ (exists d g',
        launcher_action_cycler_set sample_collab (Some (ammo_action 3)) g
        = Done (d, g')).
Proof.
  cbv zeta. split; [| split; [| split; [| split; [| split]]]].
  - unfold _load_action, table_at.
    rewrite lookup_insert_ne by done. rewrite lookup_singleton_eq.
    rewrite lookup_insert_eq. reflexivity.
  - vm_compute. reflexivity.
  - unfold action_cycler_load. simpl mbind at 1.
    unfold _load_action, table_at.
    rewrite lookup_insert_ne by done. rewrite lookup_singleton_eq.
    rewrite lookup_insert_eq. vm_compute. reflexivity.
  - reflexivity.
  - vm_compute. reflexivity.
  - eexists _, _. vm_compute. reflexivity.
Qed.

Lemma current_never_null_witness :
  exists g a,
    run_cycler_ops sample_collab
      [op_set the_quiver_action None; op_cycle the_launcher_action 1 true;
       op_world wand_bearer; op_cycle the_quiver_action (-1) false;
       op_set_from the_launcher_action the_quiver_action]
      (game_new sample_collab archer) = Done g
    /\ action_cycler_get the_launcher_action g = Done a.
Proof.
  apply (proj1 (proj2 (proj2 (current_never_null sample_collab archer)))).
  - vm_compute. reflexivity.
  - repeat constructor.
Defined.

Lemma launcher_set_rejects_witness :
  exists g',
    launcher_action_cycler_set sample_collab (Some (wand_action 1))
      (sample_game wand_bearer (wand_action 0)) = Done (false, g')
    /\ launcher_action g' = Some (ammo_action (-1))
    /\ g' = with_wield_change true
              (with_redraw_quiver true
                 (sample_game wand_bearer (wand_action 0)))
    /\ quiver_action g' = Some (wand_action 0)
    /\ m_quiver_history g' = ammo_history_new sample_collab
    /\ you g' = wand_bearer
    /\ redraw_quiver g' = true.
Proof.
  apply (launcher_set_rejects sample_collab
           (sample_game wand_bearer (wand_action 0)) (wand_action 1)).
  - reflexivity.
  - discriminate.
Defined.

(** ** The ammo history *)

Section history_facts.
Context (C : collab).

(** One call leaves an entry as it was or overwrites it with a record of
    quantity 1. *)
Lemma run_history_op_entry (op : history_op) (g : game) (t : launcher) :
  m_quiver_history (run_history_op C op g) t = m_quiver_history g t
  \/ exists item,
       m_quiver_history (run_history_op C op g) t = with_quantity 1 item.
Proof.
  assert (Hins : forall t' item,
             (<[t' := with_quantity 1 item]> (m_quiver_history g)) t
             = m_quiver_history g t
             \/ exists item',
                 (<[t' := with_quantity 1 item]> (m_quiver_history g)) t
                 = with_quantity 1 item').
  { intros t' item. destruct (decide (t' = t)) as [-> | Hne].
    - right. exists item. apply fn_lookup_insert.
    - left. by apply fn_lookup_insert_ne. }
  destruct op as [item ammo_type | item explicitly_chosen | p]; simpl.
  - apply Hins.
  - unfold on_item_fired.
    destruct explicitly_chosen; simpl; [| by left].
    destruct (weapon (you g)) as [w |].
    + destruct (launched_by C item w); simpl; [apply Hins |].
      destruct (bool_decide _); simpl; [by left | apply Hins].
    + destruct (bool_decide _); simpl; [by left | apply Hins].
  - by left.
Qed.

Lemma run_history_ops_written (ops : list history_op) (g : game)
    (t : launcher) (item : item_def) :
  m_quiver_history g t = with_quantity 1 item ->
  exists item',
    m_quiver_history (run_history_ops C ops g) t = with_quantity 1 item'.
Proof.
  revert g item. induction ops as [| op ops IH]; intros g item Hg; simpl.
  - eauto.
  - destruct (run_history_op_entry op g t) as [Hsame | [item' Hnew]].
    + apply (IH _ item). by rewrite Hsame.
    + by apply (IH _ item').
Qed.

Lemma run_history_ops_entry (ops : list history_op) (g : game)
    (t : launcher) :
  m_quiver_history (run_history_ops C ops g) t = m_quiver_history g t
  \/ exists item,
       m_quiver_history (run_history_ops C ops g) t = with_quantity 1 item.
Proof.
  revert g. induction ops as [| op ops IH]; intros g; simpl.
  - by left.
  - destruct (run_history_op_entry op g t) as [Hsame | [item Hnew]].
    + destruct (IH (run_history_op C op g)) as [H | H].
      * left. by rewrite H.
      * by right.
    + right. by apply (run_history_ops_written ops _ t item).
Qed.

(** C8.  After any sequence of [set_quiver] and [on_item_fired] calls on the
    history of a freshly constructed game (with arbitrary changes of the game
    state in between), every entry of the table is either the
    default-constructed item it started as, never written, or a record of
    quantity exactly 1; and an entry that holds such a record holds one after
    any further calls: records are overwritten, never removed. *)
Theorem ammo_history_quantity_one (p : player) (ops ops' : list history_op)
    (t : launcher) :
  (m_quiver_history (run_history_ops C ops (game_new C p)) t = item_def_new C
   \/ exists item,
        m_quiver_history (run_history_ops C ops (game_new C p)) t
        = with_quantity 1 item
        /\ quantity
             (m_quiver_history (run_history_ops C ops (game_new C p)) t) = 1)
  /\ (forall item,
        m_quiver_history (run_history_ops C ops (game_new C p)) t
        = with_quantity 1 item ->
        exists item',
          m_quiver_history
            (run_history_ops C ops' (run_history_ops C ops (game_new C p))) t
          = with_quantity 1 item'
          /\ quantity
               (m_quiver_history
                  (run_history_ops C ops'
                     (run_history_ops C ops (game_new C p))) t) = 1).
Proof.
  split.
  - destruct (run_history_ops_entry ops (game_new C p) t) as [H | [item H]].
    + left. by rewrite H.
    + right. exists item. split; [done |]. by rewrite H.
  - intros item H.
    destruct (run_history_ops_written ops' _ t item H) as [item' H'].
    exists item'. split; [done |]. by rewrite H'.
Qed.

End history_facts.

(** ** [find_next] *)

Section find_next_facts.
Context (C : collab) (p : player).


Lemma first_index_first (a : action) (l1 l2 : list action) :
  a ∉ l1 -> first_index a (l1 ++ a :: l2) = length l1.
Proof.
  induction l1 as [| x l1 IH]; intros Hn; simpl.
  - by rewrite action_eqb_refl.
  - apply not_elem_of_cons in Hn as [Hne Hn].
    destruct (action_eqb x a) eqn:E.
    + apply action_eqb_eq in E. congruence.
    + by rewrite IH.
Qed.

Lemma first_index_lookup (a : action) (o : list action) (i : nat) :
  NoDup o -> o !! i = Some a -> first_index a o = i.
Proof.
  intros Hnd Hi.
  destruct (list_elem_of_split_length o i a Hi) as (l1 & l2 & -> & ->).
  apply first_index_first.
  apply list.NoDup_app in Hnd as (_ & Hdisj & _).
  intros Hin. apply (Hdisj a Hin). left.
Qed.

(** Every enumeration keeps only actions that pass [is_valid]. *)
Lemma fire_order_valid (a : action) (allow_disabled : bool) (x : action) :
  concrete a = true ->
  x ∈ get_fire_order C p a allow_disabled -> is_valid C p x = true.
Proof.
  intros Hc Hx.
  assert (Hoff : forall y, offered C p allow_disabled y = true ->
                           is_valid C p y = true).
  { intros y Hy. unfold offered in Hy. by apply andb_prop in Hy as [? _]. }
  assert (Hand : forall b c : bool, b && c = true -> b = true).
  { by intros [] []. }
  destruct a; try discriminate Hc; simpl in Hx.
  1,2: unfold ammo_action_get_fire_order in Hx;
       apply list_elem_of_filter in Hx as [Hx _]; by apply Hoff.
  all: apply list_elem_of_omap in Hx as (y & _ & Hy); cbv beta zeta in Hy.
  - destruct (_ && _) eqn:E in Hy; [| discriminate].
    injection Hy as <-. apply Hoff. by do 2 apply Hand in E.
  - destruct (_pseudoability C y); [discriminate |].
    destruct (offered _ _ _ _) eqn:E in Hy; [| discriminate].
    injection Hy as <-. by apply Hoff.
  - destruct (_ && _) eqn:E in Hy; [| discriminate].
    injection Hy as <-. apply Hoff. by apply Hand in E.
  - destruct (_ && _) eqn:E in Hy; [| discriminate].
    injection Hy as <-. apply Hoff. by apply Hand in E.
  - destruct (offered _ _ _ _) eqn:E in Hy; [| discriminate].
    injection Hy as <-. by apply Hoff.
Qed.

(** The elements of an enumeration enumerate as the action that produced
    it. *)
Lemma fire_order_same (a : action) (allow_disabled : bool) (x : action) :
  concrete a = true ->
  x ∈ get_fire_order C p a allow_disabled ->
  get_fire_order C p x allow_disabled = get_fire_order C p a allow_disabled.
Proof.
  intros Hc Hx.
  destruct a; try discriminate Hc; simpl in Hx.
  1,2: unfold ammo_action_get_fire_order in Hx;
       apply list_elem_of_filter in Hx as [_ Hx];
       apply list_elem_of_fmap in Hx as (s & -> & _); reflexivity.
  all: apply list_elem_of_omap in Hx as (y & _ & Hy); cbv beta zeta in Hy.
  - destruct (_ && _) in Hy; [| discriminate]. by injection Hy as <-.
  - destruct (_pseudoability C y); [discriminate |].
    destruct (offered _ _ _ _) in Hy; [| discriminate]. by injection Hy as <-.
  - destruct (_ && _) in Hy; [| discriminate]. by injection Hy as <-.
  - destruct (_ && _) in Hy; [| discriminate]. by injection Hy as <-.
  - destruct (offered _ _ _ _) in Hy; [| discriminate]. by injection Hy as <-.
Qed.

Lemma elem_of_directed_order (a : action) (dir : Z) (allow_disabled : bool)
    (x : action) :
  x ∈ directed_order C p a dir allow_disabled
  <-> x ∈ get_fire_order C p a allow_disabled.
Proof.
  unfold directed_order. destruct (dir <? 0); [apply elem_of_reverse | done].
Qed.

(** [find_next] in terms of the order it walks. *)
Lemma find_next_unfold (a : action) (dir : Z) (allow_disabled loop : bool) :
  find_next C p a dir allow_disabled loop
  = let o := directed_order C p a dir allow_disabled in
    if (length o =? 0)%nat then None
    else if negb (is_valid C p a) then o !! 0%nat
    else if (first_index a o =? length o)%nat then o !! 0%nat
    else if negb loop && (length o <=? S (first_index a o))%nat then None
    else o !! (S (first_index a o) mod length o)%nat.
Proof.
  unfold find_next, directed_order.
  destruct (dir <? 0); [rewrite length_reverse |]; reflexivity.
Qed.


End find_next_facts.


(** ** The packed sort key *)

Lemma mod32_mod16 (x : Z) : (x mod 2 ^ 32) mod 2 ^ 16 = x mod 2 ^ 16.
Proof.
  rewrite (Z.mod_eq x (2 ^ 32)) by lia.
  replace (x - 2 ^ 32 * (x / 2 ^ 32))
    with (x + (- (2 ^ 16 * (x / 2 ^ 32))) * 2 ^ 16) by lia.
  apply Z.mod_add. lia.
Qed.

Lemma to_int_mod16 (z : Z) : to_int z mod 2 ^ 16 = z mod 2 ^ 16.
Proof.
  unfold to_int.
  replace ((z + 2 ^ 31) mod 2 ^ 32 - 2 ^ 31)
    with ((z + 2 ^ 31) mod 2 ^ 32 + (- 2 ^ 15) * 2 ^ 16) by lia.
  rewrite Z.mod_add by lia. rewrite mod32_mod16.
  replace (z + 2 ^ 31) with (z + 2 ^ 15 * 2 ^ 16) by lia.
  apply Z.mod_add. lia.
Qed.

(** The low 16 bits of a key are the slot, whatever the rank. *)
Lemma fire_key_low (r i : Z) :
  0 <= i < 65536 -> Z.land (fire_key r i) 0xffff = i.
Proof.
  intros Hi. unfold fire_key, to_unsigned.
  change 0xffff with (Z.ones 16). rewrite !Z.land_ones by lia.
  rewrite to_int_mod16.
  rewrite (Z.mod_small i (2 ^ 16)) by lia.
  rewrite (Z.mod_small i (2 ^ 32)) by lia.
  rewrite <- Z.land_ones by lia. rewrite Z.land_lor_distr_l.
  rewrite !Z.land_ones by lia. rewrite mod32_mod16.
  rewrite Z.shiftl_mul_pow2 by lia. rewrite Z.mod_mul by lia.
  rewrite Z.lor_0_l. apply Z.mod_small. lia.
Qed.

(** Below 32768 filters the key is rank * 65536 + slot: nothing wraps. *)
Lemma fire_key_small (r i : Z) :
  0 <= r < 32768 -> 0 <= i < 65536 -> fire_key r i = r * 65536 + i.
Proof.
  intros Hr Hi. unfold fire_key, to_unsigned, to_int.
  change 0xffff with (Z.ones 16). rewrite Z.land_ones by lia.
  rewrite (Z.mod_small i (2 ^ 16)) by lia.
  rewrite (Z.mod_small i (2 ^ 32)) by lia.
  rewrite Z.shiftl_mul_pow2 by lia.
  rewrite (Z.mod_small (r * 2 ^ 16)) by lia.
  assert (Hland : Z.land (r * 2 ^ 16) i = 0).
  { apply Z.bits_inj'. intros n Hn. rewrite Z.land_spec, Z.bits_0.
    destruct (Z.lt_ge_cases n 16).
    - rewrite Z.mul_pow2_bits_low by lia. reflexivity.
    - rewrite <- (Z.mod_small i (2 ^ 16)) by lia.
      rewrite Z.mod_pow2_bits_high by lia. apply andb_false_r. }
  rewrite <- Z.lxor_lor by exact Hland.
  rewrite <- Z.add_nocarry_lxor by exact Hland.
  rewrite Z.mod_small by lia. lia.
Qed.

Lemma first_flag_bounds (test : Z -> bool) (i : Z) (flags : list Z) (r : Z) :
  first_flag test i flags = Some r -> i <= r < i + Z.of_nat (length flags).
Proof.
  revert i. induction flags as [| f flags IH]; intros i H; simpl in *.
  - discriminate.
  - destruct (test f).
    + injection H as <-. lia.
    + apply IH in H. lia.
Qed.

(** ** Lists *)

Lemma NoDup_omap_inj {A B} (f : A -> option B) (l : list A) :
  NoDup l ->
  (forall x y z, x ∈ l -> y ∈ l -> f x = Some z -> f y = Some z -> x = y) ->
  NoDup (omap f l).
Proof.
  induction 1 as [| x l Hx Hl IH]; intros Hinj; simpl.
  - constructor.
  - assert (Htl : NoDup (omap f l)).
    { apply IH. intros a b z Ha Hb. apply Hinj; by right. }
    destruct (f x) as [z |] eqn:E; [| exact Htl].
    constructor; [| exact Htl].
    intros Hin. apply list_elem_of_omap in Hin as (y & Hy & Hfy).
    assert (x = y) by (apply (Hinj x y z); [left | by right | done | done]).
    congruence.
Qed.

Lemma StronglySorted_filter {A} (R : relation A) (P : A -> Prop)
    `{forall x, Decision (P x)} (l : list A) :
  StronglySorted R l -> StronglySorted R (filter P l).
Proof.
  induction 1 as [| x l Hl IH Hx]; [constructor |].
  rewrite filter_cons. destruct (decide (P x)); [| exact IH].
  constructor; [exact IH |].
  apply list.Forall_forall. intros y Hy.
  apply list_elem_of_filter in Hy as [_ Hy].
  rewrite list.Forall_forall in Hx. by apply Hx.
Qed.

Lemma StronglySorted_le_lt (l : list Z) :
  StronglySorted Z.le l -> NoDup l -> StronglySorted Z.lt l.
Proof.
  induction 1 as [| x l Hl IH Hx]; intros Hnd; [constructor |].
  apply list.NoDup_cons in Hnd as [Hnx Hnd].
  constructor; [by apply IH |].
  apply list.Forall_forall. intros y Hy.
  rewrite list.Forall_forall in Hx. specialize (Hx y Hy).
  assert (x <> y) by (intros ->; contradiction). lia.
Qed.

Lemma StronglySorted_fmap_on {A B} (R1 : relation A) (R2 : relation B)
    (P : A -> Prop) (f : A -> B) (l : list A) :
  (forall x y, P x -> P y -> R1 x y -> R2 (f x) (f y)) ->
  Forall P l -> StronglySorted R1 l -> StronglySorted R2 (f <$> l).
Proof.
  intros Hf HP. induction 1 as [| x l Hl IH Hx]; [constructor |].
  apply list.Forall_cons in HP as [HPx HPl].
  rewrite fmap_cons. constructor; [by apply IH |].
  apply list.Forall_forall. intros y Hy.
  apply list_elem_of_fmap in Hy as (z & -> & Hz).
  rewrite list.Forall_forall in Hx, HPl. apply Hf; auto.
Qed.

(** ** The ammo fire order *)

Section fire_order_facts.
Context (C : collab) (p : player).

Lemma fire_candidate_key (ignore_inscription_etc : bool)
    (launcher : ptr item_def) (manual : bool) (i k : Z) :
  fire_candidate C p ignore_inscription_etc launcher manual i = Some k ->
  exists r, fire_rank C p launcher manual i = Some r /\ k = fire_key r i.
Proof.
  unfold fire_candidate, fire_rank.
  destruct (negb (defined C (inv p i))); [discriminate |].
  destruct (_ && _ && _); [discriminate |].
  destruct (_ && _); [discriminate |].
  destruct (first_flag _ _ _) as [r |]; [| discriminate].
  intros [= <-]. eauto.
Qed.

(** The keys pushed by the loop over the inventory. *)
Lemma pushed_keys (launcher : ptr item_def) (manual : bool) (k : Z) :
  0 <= fire_items_start p ->
  k ∈ omap (fire_candidate C p false launcher manual)
        (seqZ (fire_items_start p) (ENDOFPACK - fire_items_start p)) ->
  exists i r, 0 <= i < ENDOFPACK
              /\ fire_rank C p launcher manual i = Some r
              /\ 0 <= r < Z.of_nat (length (fire_order p))
              /\ k = fire_key r i.
Proof.
  intros Hstart Hk.
  apply list_elem_of_omap in Hk as (i & Hi & Hc).
  apply elem_of_seqZ in Hi.
  apply fire_candidate_key in Hc as (r & Hr & ->).
  exists i, r. split; [lia |]. split; [done |]. split; [| done].
  unfold fire_rank in Hr. apply first_flag_bounds in Hr. lia.
Qed.

Lemma NoDup_item_fire_order (launcher : ptr item_def) (manual : bool) :
  0 <= fire_items_start p ->
  NoDup (_get_item_fire_order C p [] false launcher manual).
Proof.
  intros Hstart. unfold _get_item_fire_order. rewrite app_nil_l.
  rewrite merge_sort_Permutation.
  set (l := seqZ _ _).
  assert (Hl : forall i, i ∈ l -> 0 <= i < 65536).
  { intros i Hi. apply elem_of_seqZ in Hi. unfold ENDOFPACK in Hi. lia. }
  assert (Hnd : NoDup l) by apply NoDup_seqZ.
  clearbody l. induction Hnd as [| x l Hx Hnd IH]; simpl; [constructor |].
  assert (Htl : NoDup ((fun k => Z.land k 65535)
                         <$> omap (fire_candidate C p false launcher manual)
                               l)).
  { apply IH. intros i Hi. apply Hl. by right. }
  destruct (fire_candidate C p false launcher manual x) as [k |] eqn:E;
    [| exact Htl].
  rewrite fmap_cons. constructor; [| exact Htl].
  apply fire_candidate_key in E as (r & _ & ->).
  rewrite fire_key_low by (apply Hl; left).
  intros Hin. apply list_elem_of_fmap in Hin as (k' & Hk' & Hin).
  apply list_elem_of_omap in Hin as (y & Hy & Hc).
  apply fire_candidate_key in Hc as (r' & _ & ->).
  rewrite fire_key_low in Hk' by (apply Hl; by right).
  congruence.
Qed.

Lemma slots_of_filter_ammo (P : action -> Prop) `{forall a, Decision (P a)}
    (l : list Z) :
  slots_of C (filter P (ammo_action <$> l))
  = filter (fun s => P (ammo_action s)) l.
Proof.
  unfold slots_of. induction l as [| s l IH]; [done |].
  rewrite fmap_cons, !filter_cons.
  destruct (decide (P (ammo_action s))); [| exact IH].
  rewrite fmap_cons. f_equal. exact IH.
Qed.

Lemma item_fire_order_sorted (launcher : ptr item_def) (manual : bool) :
  0 <= fire_items_start p ->
  Z.of_nat (length (fire_order p)) <= 32768 ->
  StronglySorted (by_rank_then_slot (fire_rank C p launcher manual))
    (_get_item_fire_order C p [] false launcher manual).
Proof.
  intros Hstart Hlen. unfold _get_item_fire_order. rewrite app_nil_l.
  set (K := omap _ _).
  assert (HK : forall k, k ∈ K ->
             exists i r, 0 <= i < 65536
                         /\ fire_rank C p launcher manual i = Some r
                         /\ 0 <= r < 32768 /\ k = r * 65536 + i).
  { intros k Hk. apply pushed_keys in Hk as (i & r & Hi & Hr & Hb & ->);
      [| done].
    exists i, r. unfold ENDOFPACK in Hi.
    split; [lia |]. split; [done |]. split; [lia |].
    apply fire_key_small; lia. }
  assert (Hnd : NoDup K).
  { apply (NoDup_fmap_1 (fun k => Z.land k 65535)).
    pose proof (NoDup_item_fire_order launcher manual Hstart) as H.
    unfold _get_item_fire_order in H. rewrite app_nil_l in H.
    by rewrite merge_sort_Permutation in H. }
  apply (StronglySorted_fmap_on Z.lt _ (fun k => k ∈ K)).
  - intros x y Hx Hy Hlt.
    apply HK in Hx as (i & r & Hi & Hr & Hrb & ->).
    apply HK in Hy as (j & s & Hj & Hs & Hsb & ->).
    change 65535 with (Z.ones 16). rewrite !Z.land_ones by lia.
    replace ((r * 65536 + i) mod 2 ^ 16) with i
      by (symmetry; rewrite Z.add_comm, Z.mod_add by lia;
          apply Z.mod_small; lia).
    replace ((s * 65536 + j) mod 2 ^ 16) with j
      by (symmetry; rewrite Z.add_comm, Z.mod_add by lia;
          apply Z.mod_small; lia).
    unfold by_rank_then_slot. rewrite Hr, Hs. simpl. lia.
  - apply list.Forall_forall. intros k Hk.
    by rewrite merge_sort_Permutation in Hk.
  - apply StronglySorted_le_lt.
    + apply StronglySorted_merge_sort; apply _.
    + by rewrite merge_sort_Permutation.
Qed.

(** C5, as amended.  With the pack listed from a slot that exists and at
    most 32768 entries in [Options.fire_order], the slots of the ammo fire
    order are strictly ascending in the pair (rank, slot), where the rank of
    a slot is the first index of [Options.fire_order] at which its item
    passes the test of the loop: it matches the entry, or auto-switch is
    active, the wielded weapon sits in slot a or b, and the item passes
    [_autoswitch_ammo_check].  Slots of equal rank come in slot order. *)
Theorem ammo_fire_order_sorted (allow_disabled : bool) :
  0 <= fire_items_start p ->
  Z.of_nat (length (fire_order p)) <= 32768 ->
  StronglySorted (by_rank_then_slot (fire_rank C p (weapon p) true))
    (slots_of C (ammo_action_get_fire_order C p allow_disabled)).
Proof.
  intros Hstart Hlen. unfold ammo_action_get_fire_order.
  rewrite slots_of_filter_ammo. apply StronglySorted_filter.
  by apply item_fire_order_sorted.
Qed.

End fire_order_facts.

Lemma ammo_fire_order_sorted_witness :
  StronglySorted
    (by_rank_then_slot (fire_rank sample_collab archer (weapon archer) true))
    (slots_of sample_collab
       (ammo_action_get_fire_order sample_collab archer true)).
Proof.
  apply (ammo_fire_order_sorted sample_collab archer true).
  - vm_compute. discriminate.
  - vm_compute. discriminate.
Defined.

(** The scenario of the specification: a bow wielded, arrows in slots 3 and
    5, launcher ammo first among the filters. *)
Example archer_fire_order :
  ammo_action_get_fire_order sample_collab archer true
  = [ammo_action 3; ammo_action 5].
Proof. vm_compute. reflexivity. Qed.

(** With auto-switch active and the weapon wielded from slot a, javelins
    (slot 3) and stones (slot 5) both get rank 0 from the auto-switch test,
    so the order is [3, 5] although the first filter that matches the stones
    (index 0) comes before the first that matches the javelins (index 1):
    the order is not ascending in (first matching filter, slot). *)
Lemma ammo_fire_order_not_by_first_match :
  ammo_action_get_fire_order sample_collab switcher true
  = [ammo_action 3; ammo_action 5]
  /\ first_matching_filter sample_collab switcher (weapon switcher) true 3
     = Some 1
  /\ first_matching_filter sample_collab switcher (weapon switcher) true 5
     = Some 0
  /\ bool_decide
       (StronglySorted
          (by_rank_then_slot
             (first_matching_filter sample_collab switcher (weapon switcher)
                true))
          (slots_of sample_collab
             (ammo_action_get_fire_order sample_collab switcher true)))
     = false.
Proof. vm_compute. repeat split. Qed.

(** Past 32768 filters the key wraps into the negative [int]s: stones that
    first match filter 32768 are listed before javelins that match filter
    0. *)
Lemma ammo_fire_order_key_wraps :
  ammo_action_get_fire_order sample_collab many_filters true
  = [ammo_action 5; ammo_action 3]
  /\ fire_rank sample_collab many_filters (weapon many_filters) true 3
     = Some 0
  /\ fire_rank sample_collab many_filters (weapon many_filters) true 5
     = Some 32768.
Proof. vm_compute. repeat split. Qed.

(** ** Cycling within one kind *)

Section cycling_facts.
Context (C : collab) (p : player).

Lemma ammo_action_inj : Inj (=) (=) ammo_action.
Proof. by intros x y [= ->]. Qed.

Lemma NoDup_fire_order (a : action) (allow_disabled : bool) :
  enumerations_distinct C p ->
  concrete a = true ->
  NoDup (get_fire_order C p a allow_disabled).
Proof.
  intros (Hstart & Htalents & Hspells) Hc.
  destruct a; try discriminate Hc; simpl.
  1,2: unfold ammo_action_get_fire_order;
       apply list.NoDup_filter, (NoDup_fmap_2_strong ammo_action);
       [intros x y _ _; apply ammo_action_inj
       | by apply NoDup_item_fire_order].
  - apply NoDup_omap_inj; [apply NoDup_seqZ |].
    intros i j z Hi Hj Hfi Hfj. cbv beta zeta in Hfi, Hfj.
    apply elem_of_seqZ in Hi, Hj.
    destruct (_ && _) eqn:Ei in Hfi; [| discriminate].
    destruct (_ && _) in Hfj; [| discriminate].
    injection Hfi as <-. injection Hfj as Hij.
    apply Hspells; [lia | lia | done |].
    apply andb_prop in Ei as [Ei _]. apply andb_prop in Ei as [Ei _].
    unfold offered in Ei. by apply andb_prop in Ei as [Ei _].
  - apply NoDup_omap_inj; [done |].
    intros i j z _ _ Hfi Hfj.
    destruct (_pseudoability C i); [discriminate |].
    destruct (_pseudoability C j); [discriminate |].
    cbv beta zeta in Hfi, Hfj.
    destruct (offered _ _ _ _) in Hfi; [| discriminate].
    destruct (offered _ _ _ _) in Hfj; [| discriminate].
    congruence.
  - apply NoDup_omap_inj; [apply NoDup_seqZ |].
    intros i j z _ _ Hfi Hfj. cbv beta zeta in Hfi, Hfj.
    destruct (_ && _) in Hfi; [| discriminate].
    destruct (_ && _) in Hfj; [| discriminate].
    congruence.
  - apply NoDup_omap_inj; [apply NoDup_seqZ |].
    intros i j z _ _ Hfi Hfj. cbv beta zeta in Hfi, Hfj.
    destruct (_ && _) in Hfi; [| discriminate].
    destruct (_ && _) in Hfj; [| discriminate].
    congruence.
  - apply NoDup_omap_inj; [apply NoDup_seqZ |].
    intros i j z _ _ Hfi Hfj. cbv beta zeta in Hfi, Hfj.
    destruct (offered _ _ _ _) in Hfi; [| discriminate].
    destruct (offered _ _ _ _) in Hfj; [| discriminate].
    congruence.
Qed.

(** One step forward, with [loop], from the element at index [i]. *)
Lemma find_next_at (a : action) (allow_disabled : bool) (i : nat)
    (x : action) :
  enumerations_distinct C p ->
  concrete a = true ->
  get_fire_order C p a allow_disabled !! i = Some x ->
  find_next C p x 1 allow_disabled true
  = get_fire_order C p a allow_disabled
      !! (S i mod length (get_fire_order C p a allow_disabled))%nat.
Proof.
  intros Hd Hc Hi.
  assert (Hx : x ∈ get_fire_order C p a allow_disabled)
    by (by apply list_elem_of_lookup_2 in Hi).
  rewrite find_next_unfold. unfold directed_order. cbv zeta.
  change (1 <? 0) with false. cbv iota.
  rewrite (fire_order_same C p a allow_disabled x Hc Hx).
  rewrite (fire_order_valid C p a allow_disabled x Hc Hx).
  rewrite (first_index_lookup x _ i (NoDup_fire_order a allow_disabled Hd Hc)
             Hi).
  apply lookup_lt_Some in Hi.
  replace (length (get_fire_order C p a allow_disabled) =? 0)%nat with false
    by (symmetry; apply Nat.eqb_neq; lia).
  replace (i =? length (get_fire_order C p a allow_disabled))%nat with false
    by (symmetry; apply Nat.eqb_neq; lia).
  reflexivity.
Qed.

Lemma cycle_forward_at (a : action) (allow_disabled : bool) (k i : nat)
    (x : action) :
  enumerations_distinct C p ->
  concrete a = true ->
  get_fire_order C p a allow_disabled !! i = Some x ->
  cycle_forward C p allow_disabled k x
  = get_fire_order C p a allow_disabled
      !! ((i + k) mod length (get_fire_order C p a allow_disabled))%nat.
Proof.
  intros Hd Hc. revert i x. induction k as [| k IH]; intros i x Hi.
  - simpl. rewrite Nat.add_0_r, Nat.mod_small; [done |].
    by apply lookup_lt_Some in Hi.
  - simpl. rewrite (find_next_at a allow_disabled i x Hd Hc Hi).
    assert (Hlen : (length (get_fire_order C p a allow_disabled) <> 0)%nat).
    { apply lookup_lt_Some in Hi. lia. }
    destruct (lookup_lt_is_Some_2 (get_fire_order C p a allow_disabled)
                (S i mod length (get_fire_order C p a allow_disabled))%nat)
      as [y Hy].
    { by apply Nat.mod_upper_bound. }
    rewrite Hy. rewrite (IH _ y Hy).
    rewrite Nat.Div0.add_mod_idemp_l. f_equal. f_equal. lia.
Qed.

(** C7, as amended.  For a concrete action [a] that occurs in the fire
    order of its kind, of size N, in a fixed state of the game whose
    enumerations list nothing twice (the pack is scanned from a slot that is
    not negative, no talent is listed twice, and no spell the player has sits
    on two letters), applying [find_next(1, allow_disabled, true)] N times
    starting from [a] returns [a]. *)
Theorem cycle_forward_returns (a : action) (allow_disabled : bool) :
  enumerations_distinct C p ->
  concrete a = true ->
  a ∈ get_fire_order C p a allow_disabled ->
  cycle_forward C p allow_disabled
    (length (get_fire_order C p a allow_disabled)) a = Some a.
Proof.
  intros Hd Hc Ha.
  apply list_elem_of_lookup_1 in Ha as [i Hi].
  rewrite (cycle_forward_at a allow_disabled _ i a Hd Hc Hi).
  pose proof (lookup_lt_Some _ _ _ Hi) as Hlt.
  replace (i + length (get_fire_order C p a allow_disabled))%nat
    with (i + 1 * length (get_fire_order C p a allow_disabled))%nat by lia.
  rewrite Nat.Div0.mod_add. by rewrite Nat.mod_small.
Qed.

End cycling_facts.

Lemma wand_bearer_enumerations_distinct :
  enumerations_distinct sample_collab wand_bearer.
Proof.
  split; [vm_compute; discriminate |]. split; [constructor |].
  intros i j _ _ _ H. discriminate H.
Defined.

Lemma cycle_forward_returns_witness :
  cycle_forward sample_collab wand_bearer true 3 (wand_action 1)
  = Some (wand_action 1).
Proof.
  apply (cycle_forward_returns sample_collab wand_bearer (wand_action 1) true
           wand_bearer_enumerations_distinct eq_refl).
  vm_compute. right. left.
Defined.

(** The fire order of the abilities lists the talents as [your_talents]
    returns them.  When one ability is listed twice its action is listed
    twice, the search of [find_next] stops at the first of the two and steps
    to the second, which is the same action: from the last of the three
    entries, three steps forward end on the repeated action and not on the
    one they started from. *)
Lemma cycle_forward_stuck_on_repeated_talent :
  get_fire_order sample_collab twice_talented (ability_action 7) true
  = [ability_action 3; ability_action 3; ability_action 7]
  /\ length (get_fire_order sample_collab twice_talented (ability_action 7)
               true) = 3%nat
  /\ cycle_forward sample_collab twice_talented true 3 (ability_action 7)
     = Some (ability_action 3).
Proof. vm_compute. repeat split. Qed.

(** ** Cycling across kinds *)

Section next_facts.
Context (C : collab).

Lemma first_valid_next_none (p : player) (action_types : list action)
    (dir : Z) (allow_disabled : bool) :
  first_valid_next C p action_types dir allow_disabled = None ->
  forall rep n, rep ∈ action_types ->
    find_next C p rep dir allow_disabled false = Some n ->
    is_valid C p n = false.
Proof.
  induction action_types as [| x rest IH]; simpl; intros H rep n Hrep Hn.
  - by apply elem_of_nil in Hrep.
  - apply elem_of_cons in Hrep as [-> | Hrep].
    + rewrite Hn in H. by destruct (is_valid C p n).
    + destruct (find_next C p x dir allow_disabled false) as [m |].
      * destruct (is_valid C p m); [discriminate |]. by apply (IH H rep).
      * by apply (IH H rep).
Qed.

Lemma get_next_action_type_none (p : player) (a : ptr action) (dir : Z)
    (allow_disabled : bool) :
  _get_next_action_type C p a dir allow_disabled = None ->
  forall rep n, rep ∈ type_order C ->
    find_next C p rep dir allow_disabled false = Some n ->
    is_valid C p n = false.
Proof.
  unfold _get_next_action_type.
  destruct (match a with Some _ => _ | None => _ end) as [i skip_first].
  intros H rep n Hrep. apply (first_valid_next_none _ _ _ _ H).
  set (l := if dir <? 0 then reverse (type_order C) else type_order C) in *.
  assert (Hl : rep ∈ l).
  { unfold l. destruct (dir <? 0); [by apply elem_of_reverse | done]. }
  rewrite <- (take_drop (if skip_first then (S i mod length l)%nat else i) l)
    in Hl.
  apply elem_of_app in Hl. apply elem_of_app. tauto.
Qed.

(** A representative that is not valid, and from which no valid action is
    found, belongs to a kind whose fire order is empty. *)
Lemma invalid_rep_order_empty (p : player) (rep : action) (dir : Z)
    (allow_disabled : bool) :
  concrete rep = true ->
  is_valid C p rep = false ->
  (forall n, find_next C p rep dir allow_disabled false = Some n ->
             is_valid C p n = false) ->
  get_fire_order C p rep allow_disabled = [].
Proof.
  intros Hc Hinv Hnone.
  destruct (get_fire_order C p rep allow_disabled) as [| x o] eqn:Ho; [done |].
  exfalso.
  assert (Hne : directed_order C p rep dir allow_disabled <> []).
  { unfold directed_order. rewrite Ho.
    destruct (dir <? 0); [| done].
    intros Hr. apply (f_equal length) in Hr.
    rewrite length_reverse in Hr. discriminate. }
  destruct (directed_order C p rep dir allow_disabled) as [| y o'] eqn:Hd;
    [done |].
  assert (Hy : is_valid C p y = true).
  { apply (fire_order_valid C p rep allow_disabled y Hc).
    apply (elem_of_directed_order C p rep dir). rewrite Hd. left. }
  specialize (Hnone y). rewrite find_next_unfold, Hd, Hinv in Hnone.
  simpl in Hnone. rewrite Hnone in Hy; [discriminate | reflexivity].
Qed.

Lemma nothing_offered_of_none (p : player) (a : ptr action) (dir : Z)
    (allow_disabled : bool) :
  _get_next_action_type C p a dir allow_disabled = None ->
  nothing_offered C p allow_disabled.
Proof.
  intros H. pose proof (get_next_action_type_none p a dir allow_disabled H)
    as Hrep.
  assert (Hempty : forall rep, rep ∈ type_order C -> concrete rep = true ->
             is_valid C p rep = false ->
             get_fire_order C p rep allow_disabled = []).
  { intros rep Hin Hc Hinv.
    apply (invalid_rep_order_empty p rep dir); [done | done |].
    intros n. by apply Hrep. }
  unfold type_order in Hempty.
  repeat split.
  - apply (Hempty (ammo_action (-1))); [set_solver | done |].
    apply ammo_minus_one_invalid.
  - by apply (Hempty (wand_action (-1))); [set_solver | |].
  - by apply (Hempty (misc_action (-1))); [set_solver | |].
  - by apply (Hempty (artefact_evoke_action (-1))); [set_solver | |].
  - apply (Hempty (ability_action (ABIL_NON_ABILITY C))); [set_solver | done |].
    simpl. unfold ability_action_is_valid. by rewrite Z.eqb_refl.
  - intros Hs.
    by apply (Hempty (spell_action (SPELL_NO_SPELL C))); [set_solver | |].
Qed.

(** C2, as amended.  On a cycler that holds an action, [next] returns a
    non-null action [r].  Either [r] passes [is_valid], or [r] is the
    fallback [ammo_action(-1)], which is not valid and is returned only when
    none of the fire orders of the ammo, wand, misc, artefact and ability
    kinds (under the given [allow_disabled]) offers an action, and neither
    does the fire order of the spells as long as [SPELL_NO_SPELL] is not a
    valid spell action of the player.  [cycle] on the player's quiver
    installs exactly this [r]; on the launcher cycler it installs [r] or
    leaves the current action in place.  For [cycle] to return, the
    [get_item] of the base class, which quiver.h declares, is taken to name
    no slot at or past [ENDOFPACK]. *)
Theorem next_valid_or_fallback (this : cycler) (dir : Z)
    (allow_disabled : bool) (g : game) (a : action) :
  current this g = Some a ->
  exists r,
    action_cycler_next C this dir allow_disabled g = Done (Some r)
    /\ (is_valid C (you g) r = true
        \/ (r = ammo_action (-1)
            /\ is_valid C (you g) r = false
            /\ nothing_offered C (you g) allow_disabled))
    /\ (get_item C base_action < ENDOFPACK ->
        exists d g',
          action_cycler_cycle C this dir allow_disabled g = Done (d, g')
          /\ you g' = you g
          /\ (current this g' = Some r
              \/ (this = the_launcher_action
                  /\ current this g' = current this g))).
Proof.
  intros Ha.
  assert (Hcycle : forall r,
             action_cycler_next C this dir allow_disabled g = Done (Some r) ->
             get_item C base_action < ENDOFPACK ->
             exists d g',
               action_cycler_cycle C this dir allow_disabled g = Done (d, g')
               /\ you g' = you g
               /\ (current this g' = Some r
                   \/ (this = the_launcher_action
                       /\ current this g' = current this g))).
  { intros r Hr Hbase.
    assert (Hb : get_item C r < ENDOFPACK)
      by (by apply (next_in_pack C this dir allow_disabled g)).
    unfold action_cycler_cycle. rewrite Hr. simpl.
    destruct this; simpl.
    - destruct (action_cycler_set_spec C the_quiver_action (Some r) g a Ha
                  Hb) as (g' & -> & Hcur & _ & Hyou).
      eexists _, g'. split; [reflexivity |]. split; [done |]. by left.
    - rewrite (is_currently_launched_in_pack C (you g) _ Hb).
      cbn [mbind outcome_bind]. destruct (_ || _).
      + destruct (action_cycler_set_spec C the_launcher_action (Some r) g a
                    Ha Hb) as (g' & -> & Hcur & _ & Hyou).
        eexists _, g'. split; [reflexivity |]. split; [done |]. by left.
      + eexists _, _. split; [reflexivity |]. split; [done |]. by right. }
  unfold action_cycler_next in *.
  rewrite (action_cycler_get_current this g a Ha) in *. simpl in *.
  destruct (find_next C (you g) a dir allow_disabled false) as [r |] eqn:Hf.
  - destruct (is_valid C (you g) r) eqn:Hv.
    + exists r. split; [done |]. split; [by left | by apply Hcycle].
    + destruct (_get_next_action_type C (you g) (get_ptr this g) dir
                  allow_disabled) as [n |] eqn:Hn.
      * exists n. split; [done |]. split; [| by apply Hcycle].
        left. by apply get_next_action_type_valid in Hn.
      * exists (ammo_action (-1)). split; [done |].
        split; [| by apply Hcycle].
        right. split; [done |]. split; [apply ammo_minus_one_invalid |].
        by apply nothing_offered_of_none in Hn.
  - destruct (_get_next_action_type C (you g) (get_ptr this g) dir
                allow_disabled) as [n |] eqn:Hn.
    + exists n. split; [done |]. split; [| by apply Hcycle].
      left. by apply get_next_action_type_valid in Hn.
    + exists (ammo_action (-1)). split; [done |].
      split; [| by apply Hcycle].
      right. split; [done |]. split; [apply ammo_minus_one_invalid |].
      by apply nothing_offered_of_none in Hn.
Qed.

(** ** The targeting loop *)

(** C4, as amended.  Take any run of the loop of [action_cycler::target] on
    the player's quiver that ends, whatever cycling and selecting went on in
    it, with a cancellation ([what_happened] is [CMD_NO_CMD]) or with the
    triggered action no longer valid ([force_restore_initial]).  If the
    action [i] that was current before the loop is valid in the state the
    loop ends in, names no slot at or past [ENDOFPACK] (which validity
    gives for every kind that has a slot of its own), and the cycler still
    holds an action there, [target] returns with [i] as the current action.
    (An initial action that is no longer valid is not restored.) *)
Theorem target_restores_valid_initial (script : list response) (g g1 : game)
    (what_happened : command_type) (force_restore_initial : bool)
    (i : action) :
  current the_quiver_action g = Some i ->
  target_loop C the_quiver_action script g
  = Done (Some (g1, what_happened, force_restore_initial)) ->
  what_happened = CMD_NO_CMD \/ force_restore_initial = true ->
  is_valid C (you g1) i = true ->
  get_item C i < ENDOFPACK ->
  is_Some (quiver_action g1) ->
  exists g',
    action_cycler_target C the_quiver_action script g = Done (Some g')
    /\ current the_quiver_action g' = Some i
    /\ you g' = you g1.
Proof.
  intros Hi Hloop Hend Hvalid Hb [c Hc].
  unfold action_cycler_target, get_ptr. rewrite Hloop, Hi. simpl.
  rewrite Hvalid.
  replace (bool_decide (what_happened = CMD_NO_CMD) || force_restore_initial)
    with true.
  2: { symmetry. destruct Hend as [-> | ->]; [done | apply orb_true_r]. }
  simpl.
  destruct (action_cycler_set_spec C the_quiver_action (Some i) g1 c Hc Hb)
    as (g' & -> & Hcur & _ & Hyou).
  exists g'. simpl. done.
Qed.

End next_facts.

Lemma next_valid_or_fallback_witness :
  exists r,
    action_cycler_next sample_collab the_quiver_action 1 false
      (sample_game wand_bearer (wand_action 2)) = Done (Some r)
    /\ (is_valid sample_collab wand_bearer r = true
        \/ (r = ammo_action (-1)
            /\ is_valid sample_collab wand_bearer r = false
            /\ nothing_offered sample_collab wand_bearer false))
    /\ exists d g',
         action_cycler_cycle sample_collab the_quiver_action 1 false
           (sample_game wand_bearer (wand_action 2)) = Done (d, g')
         /\ you g' = wand_bearer
         /\ (current the_quiver_action g' = Some r
             \/ (the_quiver_action = the_launcher_action
                 /\ current the_quiver_action g'
                    = Some (wand_action 2))).
Proof.
  destruct (next_valid_or_fallback sample_collab the_quiver_action 1 false
              (sample_game wand_bearer (wand_action 2)) (wand_action 2)
              eq_refl) as (r & Hnext & Hvalid & Hcycle).
  exists r. split; [exact Hnext |]. split; [exact Hvalid |].
  apply Hcycle. vm_compute. reflexivity.
Defined.

(** Cycling from the targeting loop asks for enabled actions only.  With
    three wands in the pack, one of them quivered, while nothing can be
    evoked, every wand action is valid and none is offered: [next] returns
    the fallback, which is not valid, although valid actions exist. *)
Lemma next_fallback_despite_valid_action :
  action_cycler_next sample_collab the_quiver_action 1 false
    (sample_game unable_to_evoke (wand_action 0))
  = Done (Some (ammo_action (-1)))
  /\ is_valid sample_collab unable_to_evoke (ammo_action (-1)) = false
  /\ is_valid sample_collab unable_to_evoke (wand_action 0) = true
  /\ is_valid sample_collab unable_to_evoke (wand_action 1) = true.
Proof. vm_compute. repeat split. Qed.

(** The same with [allow_disabled]: a quivered wand of digging, the only
    item, is valid, and the wand fire order leaves digging out. *)
Example next_fallback_from_digging :
  action_cycler_next sample_collab the_quiver_action 1 true
    (sample_game digger (wand_action 0)) = Done (Some (ammo_action (-1)))
  /\ is_valid sample_collab digger (wand_action 0) = true.
Proof. vm_compute. repeat split. Qed.

Lemma target_restores_valid_initial_witness :
  exists g',
    action_cycler_target sample_collab the_quiver_action
      [press CMD_TARGET_CYCLE_QUIVER_FORWARD;
       press CMD_TARGET_CYCLE_QUIVER_FORWARD; press CMD_NO_CMD]
      (sample_game wand_bearer (wand_action 0)) = Done (Some g')
    /\ current the_quiver_action g' = Some (wand_action 0).
Proof.
  edestruct (target_restores_valid_initial sample_collab
               [press CMD_TARGET_CYCLE_QUIVER_FORWARD;
                press CMD_TARGET_CYCLE_QUIVER_FORWARD; press CMD_NO_CMD]
               (sample_game wand_bearer (wand_action 0)))
    as (g' & Hrun & Hcur & _).
  - reflexivity.
  - vm_compute. reflexivity.
  - left. reflexivity.
  - reflexivity.
  - vm_compute. reflexivity.
  - simpl. eauto.
  - exists g'. split; assumption.
Defined.

(** The quivered wand is zapped from the targeting loop and used up: the
    loop ends on [CMD_FIRE] with the triggered action no longer valid, the
    initial action is that same wand, and the cycler is left on the action
    the item code moved it to, not on the initial one. *)
Lemma target_initial_not_restored :
  quiver_action (sample_game last_charge (wand_action 0))
  = Some (wand_action 0)
  /\ match target_loop sample_collab the_quiver_action [zap_last_charge]
             (sample_game last_charge (wand_action 0)) with
     | Done (Some (_, what_happened, force_restore_initial)) =>
         Some (what_happened, force_restore_initial)
     | _ => None
     end = Some (CMD_FIRE, true)
  /\ match action_cycler_target sample_collab the_quiver_action
             [zap_last_charge] (sample_game last_charge (wand_action 0)) with
     | Done (Some g') => quiver_action g'
     | _ => None
     end = Some (ammo_action (-1)).
Proof. vm_compute. repeat split. Qed.

(** * Further properties *)

(** ** Validity and enablement *)

Section validity_facts.
Context (C : collab) (p : player).

(** X1.  No slot is both a valid ammo action and a valid fumble action; for a
    player who is not a felid, a pack slot holding a defined item is exactly
    one of the two. *)
Theorem ammo_fumble_exclusive (s : Z) :
  is_valid C p (ammo_action s) && is_valid C p (fumble_action s) = false
  /\ (is_felid p = false -> 0 <= s < ENDOFPACK ->
      defined C (inv p s) = true ->
      is_valid C p (fumble_action s) = negb (is_valid C p (ammo_action s))).
Proof.
  simpl. unfold fumble_action_is_valid. split.
  - destruct (ammo_action_is_valid C p s) eqn:E; [| done].
    simpl. destruct (is_felid p); [done |].
    destruct (_ || _); [done |]. by destruct (negb _).
  - intros Hf Hs Hd. rewrite Hf, Hd. unfold ENDOFPACK in *.
    replace (s <? 0) with false by (symmetry; apply Z.ltb_ge; lia).
    replace (52 <=? s) with false by (symmetry; apply Z.leb_gt; lia).
    simpl. by destruct (ammo_action_is_valid C p s).
Qed.

(** X2.  An ammo, fumble, ability or artefact action that is enabled is valid.
    (The spell, wand and misc kinds answer [is_enabled] without looking at
    [is_valid].) *)
Theorem enabled_implies_valid (a : action) :
  typeid a ∈ [T_ammo; T_fumble; T_ability; T_artefact_evoke] ->
  is_enabled C p a = true -> is_valid C p a = true.
Proof.
  intros Hk He. destruct a; simpl in *;
    try (exfalso;
         repeat (apply elem_of_cons in Hk as [Hk | Hk]; [discriminate Hk |]);
         by apply elem_of_nil in Hk).
  - unfold ammo_is_enabled_with in He.
    by destruct (ammo_action_is_valid C p ammo_slot).
  - unfold ammo_is_enabled_with in He.
    by destruct (fumble_action_is_valid C p ammo_slot).
  - by apply andb_prop in He as [? _].
  - unfold artefact_evoke_check in He.
    by destruct (artefact_evoke_action_is_valid C p wand_slot).
Qed.

End validity_facts.

Lemma ammo_fumble_exclusive_witness :
  is_valid sample_collab hoarder (fumble_action 3)
  = negb (is_valid sample_collab hoarder (ammo_action 3)).
Proof.
  apply (proj2 (ammo_fumble_exclusive sample_collab hoarder 3)).
  - reflexivity.
  - unfold ENDOFPACK. lia.
  - reflexivity.
Defined.

Lemma enabled_implies_valid_witness :
  is_valid sample_collab hoarder (ammo_action 2) = true.
Proof.
  apply (enabled_implies_valid sample_collab hoarder (ammo_action 2)).
  - left.
  - reflexivity.
Defined.

(** ** What the fire orders hold *)

Section fire_order_contents.
Context (C : collab) (p : player).

Lemma offered_valid (allow_disabled : bool) (x : action) :
  offered C p allow_disabled x = true ->
  is_valid C p x = true /\ (allow_disabled = false -> is_enabled C p x = true).
Proof.
  unfold offered. intros H. apply andb_prop in H as [Hv He].
  split; [done |]. intros ->. done.
Qed.

(** X3.  Every action in the fire order of a concrete kind is valid, is enabled
    when disabled actions were not asked for, and has that kind (the ammo
    kind for a fumble action, which enumerates as ammo). *)
Theorem fire_order_members (a : action) (allow_disabled : bool)
    (x : action) :
  concrete a = true ->
  x ∈ get_fire_order C p a allow_disabled ->
  is_valid C p x = true
  /\ (allow_disabled = false -> is_enabled C p x = true)
  /\ typeid x = (if bool_decide (typeid a = T_fumble) then T_ammo
                 else typeid a).
Proof.
  intros Hc Hx.
  assert (Hand : forall b c : bool, b && c = true -> b = true).
  { by intros [] []. }
  destruct a; try discriminate Hc; simpl in Hx.
  1,2: unfold ammo_action_get_fire_order in Hx;
       apply list_elem_of_filter in Hx as [Ho Hx];
       apply list_elem_of_fmap in Hx as (s & -> & _);
       apply offered_valid in Ho as [Hv He]; done.
  all: apply list_elem_of_omap in Hx as (y & _ & Hy); cbv beta zeta in Hy.
  - destruct (_ && _) eqn:E in Hy; [| discriminate].
    injection Hy as <-. do 2 apply Hand in E.
    apply offered_valid in E as [Hv He]. done.
  - destruct (_pseudoability C y); [discriminate |].
    destruct (offered _ _ _ _) eqn:E in Hy; [| discriminate].
    injection Hy as <-. apply offered_valid in E as [Hv He]. done.
  - destruct (_ && _) eqn:E in Hy; [| discriminate].
    injection Hy as <-. apply Hand in E.
    apply offered_valid in E as [Hv He]. done.
  - destruct (_ && _) eqn:E in Hy; [| discriminate].
    injection Hy as <-. apply Hand in E.
    apply offered_valid in E as [Hv He]. done.
  - destruct (offered _ _ _ _) eqn:E in Hy; [| discriminate].
    injection Hy as <-. apply offered_valid in E as [Hv He]. done.
Qed.

(** X4.  What the fire orders never list: a wand of digging, a ziggurat, a
    pseudo-ability or an ability that is not among the talents, a spell
    whose failure severity reaches [fail_severity_to_quiver] or that is
    highlighted as forbidden, and any slot outside the pack. *)
Theorem fire_order_exclusions (allow_disabled : bool) :
  (forall s, wand_action s ∈ wand_action_get_fire_order C p allow_disabled ->
     0 <= s < ENDOFPACK /\ sub_type (inv p s) <> WAND_DIGGING C)
  /\ (forall s,
        misc_action s ∈ misc_action_get_fire_order C p allow_disabled ->
        0 <= s < ENDOFPACK /\ sub_type (inv p s) <> MISC_ZIGGURAT C)
  /\ (forall s,
        artefact_evoke_action s
        ∈ artefact_evoke_action_get_fire_order C p allow_disabled ->
        0 <= s < ENDOFPACK)
  /\ (forall w,
        ability_action w ∈ ability_action_get_fire_order C p allow_disabled ->
        _pseudoability C w = false /\ w ∈ your_talents p)
  /\ (forall s,
        spell_action s ∈ spell_action_get_fire_order C p allow_disabled ->
        fail_severity p s < fail_severity_to_quiver p
        /\ spell_highlight_by_utility p s (COL_UNKNOWN C) <> COL_FORBIDDEN C
        /\ exists i, 0 <= i < 52 /\ get_spell_by_letter p i = s).
Proof.
  repeat split.
  all: try (apply list_elem_of_omap in H as (y & Hy & H);
            cbv beta zeta in H).
  - destruct (_ && _) in H; [| discriminate]. injection H as <-.
    apply elem_of_seqZ in Hy. lia.
  - destruct (_ && _) in H; [| discriminate]. injection H as <-.
    apply elem_of_seqZ in Hy. lia.
  - destruct (_ && _) eqn:E in H; [| discriminate]. injection H as <-.
    apply andb_prop in E as [_ E]. apply negb_true_iff, Z.eqb_neq in E. done.
  - destruct (_ && _) in H; [| discriminate]. injection H as <-.
    apply elem_of_seqZ in Hy. lia.
  - destruct (_ && _) in H; [| discriminate]. injection H as <-.
    apply elem_of_seqZ in Hy. lia.
  - destruct (_ && _) eqn:E in H; [| discriminate]. injection H as <-.
    apply andb_prop in E as [_ E]. apply negb_true_iff, Z.eqb_neq in E. done.
  - destruct (offered _ _ _ _) in H; [| discriminate]. injection H as <-.
    apply elem_of_seqZ in Hy. lia.
  - destruct (offered _ _ _ _) in H; [| discriminate]. injection H as <-.
    apply elem_of_seqZ in Hy. lia.
  - destruct (_pseudoability C y) eqn:E; [discriminate |].
    destruct (offered _ _ _ _) in H; [| discriminate]. by injection H as <-.
  - destruct (_pseudoability C y) eqn:E; [discriminate |].
    destruct (offered _ _ _ _) in H; [| discriminate]. by injection H as <-.
  - destruct (_ && _) eqn:E in H; [| discriminate]. injection H as <-.
    apply andb_prop in E as [E _]. apply andb_prop in E as [_ E].
    by apply Z.ltb_lt in E.
  - destruct (_ && _) eqn:E in H; [| discriminate]. injection H as <-.
    apply andb_prop in E as [_ E]. apply negb_true_iff, Z.eqb_neq in E. done.
  - destruct (_ && _) eqn:E in H; [| discriminate]. injection H as <-.
    exists y. apply elem_of_seqZ in Hy. split; [lia | done].
Qed.

Lemma sublist_omap_weaker {A B} (f g : A -> option B) (l : list A) :
  (forall x, f x = None \/ f x = g x) -> sublist (omap f l) (omap g l).
Proof.
  intros Hfg. induction l as [| x l IH]; simpl; [constructor |].
  destruct (Hfg x) as [-> | ->].
  - destruct (g x); [by constructor | done].
  - destruct (g x); [by constructor | done].
Qed.

Lemma offered_weaker (x : action) :
  offered C p false x = true -> offered C p true x = true.
Proof.
  unfold offered. intros H. apply andb_prop in H as [-> _]. done.
Qed.

(** X5.  Leaving disabled actions out only removes entries: the fire order
    without disabled actions is a sublist of the fire order with them, in
    the same relative order. *)
Theorem fire_order_enabled_sublist (a : action) :
  sublist (get_fire_order C p a false) (get_fire_order C p a true).
Proof.
  assert (Hoff : forall x : action,
             offered C p false x = false
             \/ offered C p false x = offered C p true x).
  { intros x. destruct (offered C p false x) eqn:E; [right | by left].
    by rewrite offered_weaker. }
  destruct a; simpl; [done | | | | | | |].
  1,2: unfold ammo_action_get_fire_order;
       generalize (ammo_action <$> _get_item_fire_order C p [] false
                                     (weapon p) true);
       intros l; induction l as [| x l IH]; [constructor |];
       rewrite !filter_cons;
       destruct (decide (offered C p false x = true)) as [E | E];
       [ rewrite decide_True by (by apply offered_weaker); by constructor
       | destruct (decide (offered C p true x = true));
         [by constructor | done] ].
  all: apply sublist_omap_weaker; intros x; cbv beta zeta.
  - destruct (Hoff (spell_action (get_spell_by_letter p x))) as [-> | ->];
      [by left | by right].
  - destruct (_pseudoability C x); [by left |].
    destruct (Hoff (ability_action x)) as [-> | ->]; [by left | by right].
  - destruct (Hoff (wand_action x)) as [-> | ->]; [by left | by right].
  - destruct (Hoff (misc_action x)) as [-> | ->]; [by left | by right].
  - destruct (Hoff (artefact_evoke_action x)) as [-> | ->];
      [by left | by right].
Qed.

Lemma seq_strongly_sorted (a n : nat) : StronglySorted lt (seq a n).
Proof.
  revert a. induction n as [| n IH]; intros a; simpl; [constructor |].
  constructor; [apply IH |].
  apply list.Forall_forall. intros x Hx.
  apply list_elem_of_In, in_seq in Hx. lia.
Qed.

Lemma sorted_omap_seqZ (f : Z -> option action) (m n : Z) :
  (forall i x, f i = Some x -> get_item C x = i) ->
  StronglySorted Z.lt (get_item C <$> omap f (seqZ m n)).
Proof.
  intros Hf.
  assert (Hs : StronglySorted Z.lt (seqZ m n)).
  { unfold seqZ. apply (StronglySorted_fmap_on lt _ (fun _ => True)).
    - intros x y _ _ Hxy. lia.
    - apply list.Forall_forall. done.
    - apply seq_strongly_sorted. }
  induction Hs as [| i l Hl IH Hi]; simpl; [constructor |].
  destruct (f i) as [x |] eqn:E; [| exact IH].
  rewrite fmap_cons, (Hf i x E). constructor; [exact IH |].
  apply list.Forall_forall. intros j Hj.
  apply list_elem_of_fmap in Hj as (y & -> & Hy).
  apply list_elem_of_omap in Hy as (k & Hk & Hfk).
  rewrite (Hf k y Hfk). rewrite list.Forall_forall in Hi. by apply Hi.
Qed.

(** X6.  The wand, misc and artefact fire orders list their slots in strictly
    ascending pack order. *)
Theorem slot_fire_orders_ascending (allow_disabled : bool) :
  StronglySorted Z.lt
    (slots_of C (wand_action_get_fire_order C p allow_disabled))
  /\ StronglySorted Z.lt
       (slots_of C (misc_action_get_fire_order C p allow_disabled))
  /\ StronglySorted Z.lt
       (slots_of C
          (artefact_evoke_action_get_fire_order C p allow_disabled)).
Proof.
  unfold slots_of. repeat split; apply sorted_omap_seqZ; intros i x;
    cbv beta zeta.
  - destruct (_ && _); [| discriminate]. by intros [= <-].
  - destruct (_ && _); [| discriminate]. by intros [= <-].
  - destruct (offered _ _ _ _); [| discriminate]. by intros [= <-].
Qed.

End fire_order_contents.

Lemma fire_order_members_witness :
  is_valid sample_collab wand_bearer (wand_action 1) = true
  /\ (false = false -> is_enabled sample_collab wand_bearer (wand_action 1)
                       = true)
  /\ typeid (wand_action 1) = T_wand.
Proof.
  apply (fire_order_members sample_collab wand_bearer (wand_action 0) false
           (wand_action 1) eq_refl).
  vm_compute. right. left.
Defined.

Lemma fire_order_exclusions_witness :
  0 <= 2 < ENDOFPACK /\ sub_type (inv wand_bearer 2) <> 5.
Proof.
  apply (proj1 (fire_order_exclusions sample_collab wand_bearer true) 2).
  vm_compute. right. right. left.
Defined.

(** ** More on the cyclers *)

Section more_cycler_facts.
Context (C : collab).

Lemma with_current_same (this : cycler) (g : game) (a : action) :
  current this g = Some a -> with_current this (Some a) g = g.
Proof. destruct this, g; simpl; by intros ->. Qed.

(** X7.  Setting an action a second time is a no-op: once the first call
    has returned (it does when the action names no slot at or past
    [ENDOFPACK]), the second returns [false] and changes nothing but the
    redraw request; in particular it writes no ammo history. *)
Theorem set_twice (this : cycler) (new_act : ptr action) (g : game)
    (old : action) :
  current this g = Some old ->
  get_item C (default base_action new_act) < ENDOFPACK ->
  exists d g1,
    action_cycler_set C this new_act g = Done (d, g1)
    /\ action_cycler_set C this new_act g1
       = Done (false, set_needs_redraw this g1).
Proof.
  intros Hold Hb.
  destruct (action_cycler_set_spec C this new_act g old Hold Hb)
    as (g1 & Hset & Hcur & _).
  eexists _, g1. split; [exact Hset |].
  unfold action_cycler_set.
  rewrite (action_cycler_get_current this g1 _ Hcur). simpl.
  replace (match new_act with Some a => a | None => base_action end)
    with (default base_action new_act) by (by destruct new_act).
  rewrite action_eqb_refl. simpl.
  by rewrite (with_current_same this g1 _ Hcur).
Qed.

(** X8.  Handed an action that names no slot at or past [ENDOFPACK], the
    launcher cycler returns, and it changes its action only to the base
    action or to an action whose slot holds ammo launched by the wielded
    weapon; every other call leaves the action it held. *)
Theorem launcher_set_accepts_only_launched (a old : action) (g : game) :
  launcher_action g = Some old ->
  get_item C a < ENDOFPACK ->
  exists d g',
    launcher_action_cycler_set C (Some a) g = Done (d, g')
    /\ ((d = false /\ launcher_action g' = Some old)
        \/ (d = true /\ launcher_action g' = Some a /\ a <> old
            /\ (a = base_action
                \/ _is_currently_launched_ammo C (you g) (get_item C a)
                   = Done true))).
Proof.
  intros Hold Hb. unfold launcher_action_cycler_set.
  destruct (_is_currently_launched_ammo C (you g) (get_item C a))
    as [launched |] eqn:Hl.
  2: { rewrite is_currently_launched_in_pack in Hl by done. discriminate. }
  cbn [mbind outcome_bind].
  destruct (launched || action_eqb a base_action) eqn:Hacc.
  - destruct (action_cycler_set_spec C the_launcher_action (Some a) g old
                Hold Hb) as (g' & -> & Hcur & _).
    simpl in Hcur. eexists _, g'. split; [reflexivity |]. simpl.
    destruct (action_eqb a old) eqn:E; simpl.
    + left. apply action_eqb_eq in E as ->. done.
    + right. apply action_eqb_neq in E. repeat split; [done | done |].
      apply orb_prop in Hacc as [H | H]; [right; by rewrite H | left].
      by apply action_eqb_eq.
  - eexists _, _. split; [reflexivity |]. left. done.
Qed.

(** X9.  [on_actions_changed] leaves a valid current action alone, asking
    only for a redraw; and whenever it returns on the player's quiver, the
    quiver holds a valid action or the empty fallback [ammo_action(-1)]. *)
Theorem on_actions_changed_result (this : cycler) (g : game) (a : action) :
  current this g = Some a ->
  (is_valid C (you g) a = true ->
   action_cycler_on_actions_changed C this g
   = Done (set_needs_redraw this g))
  /\ (forall g',
        this = the_quiver_action ->
        action_cycler_on_actions_changed C this g = Done g' ->
        you g' = you g
        /\ exists a', quiver_action g' = Some a'
             /\ (is_valid C (you g) a' = true \/ a' = ammo_action (-1))).
Proof.
  intros Ha. unfold action_cycler_on_actions_changed.
  rewrite (action_cycler_get_current this g a Ha).
  cbn [mbind outcome_bind]. split.
  - by intros ->.
  - intros g' -> Hrun.
    destruct (is_valid C (you g) a) eqn:Hv; cbn [negb] in Hrun.
    { injection Hrun as <-. split; [done |]. exists a. split; [done |].
      by left. }
    destruct (find_replacement C a g) as [r |];
      [cbn [mbind outcome_bind] in Hrun | done].
    assert (Hset : forall n g1,
               is_valid C (you g) n = true \/ n = ammo_action (-1) ->
               snd <$> action_cycler_set C the_quiver_action (Some n) g
               = Done g1 ->
               you (set_needs_redraw the_quiver_action g1) = you g
               /\ exists a',
                    quiver_action (set_needs_redraw the_quiver_action g1)
                    = Some a'
                    /\ (is_valid C (you g) a' = true
                        \/ a' = ammo_action (-1))).
    { intros n g1 Hn.
      destruct (action_cycler_set C the_quiver_action (Some n) g)
        as [[d g2] |] eqn:E; [| discriminate].
      intros [= <-].
      destruct (action_cycler_set_done C the_quiver_action (Some n) g a d g2
                  Ha E) as (_ & Hcur & _ & Hyou).
      split; [done |]. exists n. split; [exact Hcur | exact Hn]. }
    assert (Hcyc : forall g1,
               snd <$> action_cycler_cycle C the_quiver_action
                         (cycle_default_dir C)
                         (cycle_default_allow_disabled C) g = Done g1 ->
               you (set_needs_redraw the_quiver_action g1) = you g
               /\ exists a',
                    quiver_action (set_needs_redraw the_quiver_action g1)
                    = Some a'
                    /\ (is_valid C (you g) a' = true
                        \/ a' = ammo_action (-1))).
    { intros g1. unfold action_cycler_cycle.
      destruct (action_cycler_next_not_null C the_quiver_action
                  (cycle_default_dir C) (cycle_default_allow_disabled C) g a
                  Ha) as [n Hn].
      rewrite Hn. cbn [mbind outcome_bind cycler_set].
      apply Hset. by apply next_result_valid_or_fallback in Hn. }
    destruct r as [ra |].
    + destruct (is_valid C (you g) ra) eqn:Hra.
      * cbn [cycler_set] in Hrun.
        destruct (snd <$> action_cycler_set C the_quiver_action (Some ra) g)
          as [g1 |] eqn:E; [| done].
        injection Hrun as <-. apply (Hset ra); [by left | done].
      * destruct (snd <$> action_cycler_cycle C the_quiver_action _ _ g)
          as [g1 |] eqn:E; [| done].
        injection Hrun as <-. by apply Hcyc.
    + destruct (snd <$> action_cycler_cycle C the_quiver_action _ _ g)
        as [g1 |] eqn:E; [| done].
      injection Hrun as <-. by apply Hcyc.
Qed.

(** X10.  Saving a cycler that holds a valid action of a concrete kind,
    which names no slot at or past [ENDOFPACK], and loading the saved table
    brings the same action back, and writes nothing to the ammo history. *)
Theorem cycler_save_load_round_trip (this : cycler) (g : game) (a : action)
    (props : option (gmap string store_value)) :
  concrete a = true ->
  is_valid C (you g) a = true ->
  get_item C a < ENDOFPACK ->
  current this g = Some a ->
  exists tbl g',
    action_cycler_save this g props = Done tbl
    /\ action_cycler_load C this g (Some tbl) = Done g'
    /\ current this g' = Some a
    /\ m_quiver_history g' = m_quiver_history g
    /\ you g' = you g.
Proof.
  intros Hc Hv Hb Ha. unfold action_cycler_save, action_cycler_load.
  rewrite (action_cycler_get_current this g a Ha). simpl.
  exists (save a (default ∅ props)).
  rewrite (load_save a (default ∅ props) Hc). cbn [mbind outcome_bind].
  assert (Hset : exists g1,
             cycler_set C this (Some a) g = Done (false, g1)
             /\ current this g1 = Some a
             /\ m_quiver_history g1 = m_quiver_history g
             /\ you g1 = you g).
  { assert (Hsame : exists g1,
               action_cycler_set C this (Some a) g = Done (false, g1)
               /\ current this g1 = Some a
               /\ m_quiver_history g1 = m_quiver_history g
               /\ you g1 = you g).
    { rewrite (action_cycler_set_same C this g a Ha).
      eexists. split; [reflexivity |].
      rewrite current_set_needs_redraw, history_set_needs_redraw,
        you_set_needs_redraw. done. }
    destruct this; cbn [cycler_set]; [exact Hsame |].
    unfold launcher_action_cycler_set.
    rewrite (is_currently_launched_in_pack C (you g) _ Hb).
    cbn [mbind outcome_bind]. destruct (_ || _); [exact Hsame |].
    eexists. split; [reflexivity |]. done. }
  destruct Hset as (g1 & -> & Hcur & Hhist & Hyou). cbn [mbind outcome_bind].
  eexists. split; [reflexivity |].
  unfold action_cycler_on_actions_changed.
  rewrite (action_cycler_get_current this g1 a Hcur). simpl.
  rewrite Hyou, Hv. simpl. split; [reflexivity |].
  rewrite current_set_needs_redraw, history_set_needs_redraw,
    you_set_needs_redraw. done.
Qed.

(** X11.  [_load_action] returns, and never a null pointer, on every table in
    which "type", if present, is a string and "param", if present, is an
    int; when either key is missing the result is [ammo_action(-1)], and a
    type tag that names none of the seven kinds gives the base action. *)
Theorem load_action_total (source : gmap string store_value) :
  (forall v, source !! "type" = Some v -> exists s, v = SV_STR s) ->
  (forall v, source !! "param" = Some v -> exists n, v = SV_INT n) ->
  exists a,
    _load_action source = Done (Some a)
    /\ (source !! "type" = None \/ source !! "param" = None ->
        a = ammo_action (-1))
    /\ (forall s n,
          source !! "type" = Some (SV_STR s) ->
          source !! "param" = Some (SV_INT n) ->
          s ∉ ["ammo_action"; "spell_action"; "ability_action";
               "wand_action"; "misc_action"; "artefact_evoke_action";
               "fumble_action"] ->
          a = base_action).
Proof.
  intros Ht Hp. unfold _load_action, table_at.
  destruct (source !! "type") as [tv |] eqn:Etype.
  2: { exists (ammo_action (-1)). rewrite bool_decide_eq_false_2.
       - simpl. split; [done |]. split; [done |]. discriminate.
       - intros [? ?]. discriminate. }
  destruct (source !! "param") as [pv |] eqn:Eparam.
  2: { exists (ammo_action (-1)).
       rewrite (bool_decide_eq_false_2 (is_Some None)).
       - rewrite orb_true_r. split; [done |]. split; [done |]. discriminate.
       - intros [? ?]. discriminate. }
  rewrite !bool_decide_eq_true_2 by eauto. simpl.
  destruct (Ht tv eq_refl) as [s ->]. destruct (Hp pv eq_refl) as [n ->].
  simpl.
  repeat match goal with
         | |- context [String.eqb s ?k] => destruct (String.eqb_spec s k)
         end;
    eexists; (split; [reflexivity |]); (split; [by intros [|] |]);
    intros s' n' [= <-] _ Hnot; try reflexivity; exfalso; apply Hnot;
    subst; repeat constructor.
Qed.

(** X12.  The base action does not persist by itself: saved into a table without
    a "param" entry it loads as [ammo_action(-1)]; it loads as the base
    action only when the table already held an int under "param". *)
Theorem base_action_save_load (tbl : gmap string store_value) :
  (tbl !! "param" = None ->
   _load_action (save base_action tbl) = Done (Some (ammo_action (-1))))
  /\ (forall n, tbl !! "param" = Some (SV_INT n) ->
        _load_action (save base_action tbl) = Done (Some base_action)).
Proof.
  unfold _load_action, table_at, save. split.
  - intros Hp. rewrite lookup_insert_eq.
    rewrite lookup_insert_ne by done. rewrite Hp.
    rewrite (bool_decide_eq_false_2 (is_Some None)); [by rewrite orb_true_r |].
    intros [? ?]. discriminate.
  - intros n Hp. rewrite lookup_insert_eq.
    rewrite lookup_insert_ne by done. rewrite Hp.
    rewrite !bool_decide_eq_true_2 by eauto. reflexivity.
Qed.

(** X13.  With a current action that is not valid (or none), [target] returns at
    once: whatever the user and the rest of the game would have answered,
    nothing is asked and the game is left exactly as it was. *)
Theorem target_invalid_current_untouched (this : cycler)
    (script : list response) (g : game) :
  (forall a, current this g = Some a -> is_valid C (you g) a = false) ->
  action_cycler_target C this script g = Done (Some g).
Proof.
  intros Hinv. unfold action_cycler_target, get_ptr.
  assert (Hloop : target_loop C this script g
                  = Done (Some (g, CMD_NO_CMD, true))).
  { destruct script; simpl; unfold get_ptr;
      destruct (current this g) as [a |]; try done;
      by rewrite (Hinv a eq_refl). }
  rewrite Hloop. simpl. destruct (current this g) as [a |]; [| done].
  by rewrite (Hinv a eq_refl).
Qed.

End more_cycler_facts.

Lemma set_twice_witness :
  exists d g1,
    action_cycler_set sample_collab the_quiver_action (Some (ammo_action 2))
      (sample_game hoarder (wand_action 0)) = Done (d, g1)
    /\ action_cycler_set sample_collab the_quiver_action
         (Some (ammo_action 2)) g1
       = Done (false, set_needs_redraw the_quiver_action g1).
Proof.
  apply (set_twice sample_collab the_quiver_action (Some (ammo_action 2))
           (sample_game hoarder (wand_action 0)) (wand_action 0)).
  - reflexivity.
  - vm_compute. reflexivity.
Defined.

Lemma launcher_set_accepts_only_launched_witness :
  exists d g',
    launcher_action_cycler_set sample_collab (Some (ammo_action 3))
      (game_new sample_collab archer) = Done (d, g')
    /\ ((d = false /\ launcher_action g' = Some (ammo_action (-1)))
        \/ (d = true /\ launcher_action g' = Some (ammo_action 3)
            /\ ammo_action 3 <> ammo_action (-1)
            /\ (ammo_action 3 = base_action
                \/ _is_currently_launched_ammo sample_collab archer
                     (get_item sample_collab (ammo_action 3))
                   = Done true))).
Proof.
  apply (launcher_set_accepts_only_launched sample_collab (ammo_action 3)
           (ammo_action (-1)) (game_new sample_collab archer)).
  - reflexivity.
  - vm_compute. reflexivity.
Defined.

Lemma on_actions_changed_result_witness :
  action_cycler_on_actions_changed sample_collab the_quiver_action
    (sample_game wand_bearer (wand_action 1))
  = Done (set_needs_redraw the_quiver_action
            (sample_game wand_bearer (wand_action 1))).
Proof.
  apply (proj1 (on_actions_changed_result sample_collab the_quiver_action
                  (sample_game wand_bearer (wand_action 1)) (wand_action 1)
                  eq_refl)).
  reflexivity.
Defined.

Lemma cycler_save_load_round_trip_witness :
  exists tbl g',
    action_cycler_save the_quiver_action
      (sample_game wand_bearer (wand_action 1)) None = Done tbl
    /\ action_cycler_load sample_collab the_quiver_action
         (sample_game wand_bearer (wand_action 1)) (Some tbl) = Done g'
    /\ current the_quiver_action g' = Some (wand_action 1)
    /\ m_quiver_history g' = ammo_history_new sample_collab
    /\ you g' = wand_bearer.
Proof.
  apply (cycler_save_load_round_trip sample_collab the_quiver_action
           (sample_game wand_bearer (wand_action 1)) (wand_action 1) None);
    reflexivity.
Defined.

Lemma load_action_total_witness :
  exists a,
    _load_action (<["type" := SV_STR "bolt_action"]> {["param" := SV_INT 4]})
    = Done (Some a)
    /\ a = base_action.
Proof.
  destruct (load_action_total
              (<["type" := SV_STR "bolt_action"]> {["param" := SV_INT 4]}))
    as (a & Hload & _ & Hbase).
  - intros v Hv. rewrite lookup_insert_eq in Hv. injection Hv as <-. eauto.
  - intros v Hv. rewrite lookup_insert_ne in Hv by done.
    rewrite lookup_singleton_eq in Hv. injection Hv as <-. eauto.
  - exists a. split; [exact Hload |].
    apply (Hbase "bolt_action" 4).
    + apply lookup_insert_eq.
    + rewrite lookup_insert_ne by done. apply lookup_singleton_eq.
    + intros Hin.
      repeat (apply elem_of_cons in Hin as [Hin | Hin]; [discriminate Hin |]).
      by apply elem_of_nil in Hin.
Defined.

Lemma base_action_save_load_witness :
  _load_action (save base_action ∅) = Done (Some (ammo_action (-1))).
Proof.
  apply (proj1 (base_action_save_load ∅)). apply lookup_empty.
Defined.

Lemma target_invalid_current_untouched_witness :
  action_cycler_target sample_collab the_quiver_action [zap_last_charge]
    (game_new sample_collab wand_bearer)
  = Done (Some (game_new sample_collab wand_bearer)).
Proof.
  apply (target_invalid_current_untouched sample_collab the_quiver_action
           [zap_last_charge] (game_new sample_collab wand_bearer)).
  intros a [= <-]. reflexivity.
Defined.

(** ** Slots: the pack, the launcher's replacement, [slot_to_action] *)

Section slot_facts.
Context (C : collab).

Lemma head_filter_Some {A : Type} (test : A -> bool) (l : list A) (x : A) :
  head (filter (fun i => test i = true) l) = Some x ->
  exists k : nat,
    l !! k = Some x /\ test x = true
    /\ forall (k' : nat) (y : A),
         (k' < k)%nat -> l !! k' = Some y -> test y = false.
Proof.
  induction l as [| a l IH]; [discriminate |].
  destruct (test a) eqn:Ea.
  - rewrite filter_cons_True by exact Ea. intros [= <-].
    exists 0%nat. split; [done |]. split; [done |]. intros k' y Hk. lia.
  - rewrite filter_cons_False by congruence. intros H.
    destruct (IH H) as (k & Hk & Ht & Hbefore).
    exists (S k). split; [done |]. split; [done |].
    intros [| k'] y Hlt Hy.
    + injection Hy as <-. exact Ea.
    + apply (Hbefore k' y); [lia | done].
Qed.

Lemma first_slot_Some (test : Z -> bool) (i : Z) :
  first_slot test = Some i ->
  0 <= i < ENDOFPACK /\ test i = true
  /\ forall j, 0 <= j < i -> test j = false.
Proof.
  unfold first_slot. intros H.
  apply head_filter_Some in H as (k & Hk & Ht & Hbefore).
  apply lookup_seqZ in Hk as [-> Hk]. split; [lia |]. split; [exact Ht |].
  intros j Hj. apply (Hbefore (Z.to_nat j)); [lia |].
  apply lookup_seqZ. lia.
Qed.

Lemma first_slot_None (test : Z -> bool) :
  first_slot test = None -> forall j, 0 <= j < ENDOFPACK -> test j = false.
Proof.
  unfold first_slot. intros H j Hj.
  destruct (test j) eqn:Ej; [exfalso | reflexivity].
  assert (Hin : j ∈ filter (fun i => test i = true) (seqZ 0 ENDOFPACK)).
  { apply list_elem_of_filter. split; [exact Ej |]. apply elem_of_seqZ. lia. }
  destruct (filter _ _); [by apply elem_of_nil in Hin | discriminate].
Qed.

(** X14.  What [_get_pack_slot] answers when it is not -1: the item given is
    defined, the slot holds an item that [items_similar] accepts, which
    either has the same [slot] field or carries no "=f" inscription, and the
    slot is either the item's own link or a slot of the pack with a
    non-zero quantity.  An exact match anywhere in the pack wins over an
    inexact one: then the slot returned holds an exact match. *)
Theorem get_pack_slot_result (p : player) (item : item_def) :
  let s := _get_pack_slot C p item in
  (s <> -1 ->
   defined C item = true
   /\ items_similar C item (inv p s) = true
   /\ (slot item = slot (inv p s)
       \/ contains "=f" (inscription (inv p s)) = false)
   /\ (s = link item \/ (0 <= s < ENDOFPACK /\ quantity (inv p s) <> 0)))
  /\ (defined C item = true ->
      forall i, 0 <= i < ENDOFPACK -> quantity (inv p i) <> 0 ->
        _items_similar C item (inv p i) false = true ->
        _items_similar C item (inv p s) false = true).
Proof.
  unfold _get_pack_slot. cbv zeta.
  destruct (defined C item) eqn:Hdef; simpl.
  2: { split; [done | discriminate]. }
  destruct (in_inventory C item
            && _items_similar C item (inv p (link item)) false) eqn:Hlink.
  { apply andb_prop in Hlink as [_ Hsim]. split; [| by intros _ i _ _ _].
    intros _. split; [done |]. pose proof Hsim as Hsim'.
    unfold _items_similar in Hsim. apply andb_prop in Hsim as [H1 H2].
    split; [done |]. simpl in H2. apply Z.eqb_eq in H2.
    split; [by left | by left]. }
  destruct (first_slot (fun i => negb (quantity (inv p i) =? 0)
                                 && _items_similar C item (inv p i) false))
    as [i |] eqn:Hexact.
  { apply first_slot_Some in Hexact as (Hi & Ht & _).
    apply andb_prop in Ht as [Hq Hsim]. apply negb_true_iff in Hq.
    apply Z.eqb_neq in Hq. split; [| by intros _ j _ _ _].
    intros _. split; [done |]. pose proof Hsim as Hsim'.
    unfold _items_similar in Hsim. apply andb_prop in Hsim as [H1 H2].
    split; [done |]. simpl in H2. apply Z.eqb_eq in H2.
    split; [by left | by right]. }
  assert (Hnone : forall i, 0 <= i < ENDOFPACK -> quantity (inv p i) <> 0 ->
                    _items_similar C item (inv p i) false = true -> False).
  { intros i Hi Hq Hsim. pose proof (first_slot_None _ Hexact i Hi) as H.
    simpl in H. rewrite Hsim in H. apply Z.eqb_neq in Hq. by rewrite Hq in H. }
  split; [| intros _ i Hi Hq Hsim; destruct (Hnone i Hi Hq Hsim)].
  destruct (first_slot (fun i => negb (quantity (inv p i) =? 0)
                                 && _items_similar C item (inv p i) true))
    as [i |] eqn:Hloose; [| done].
  apply first_slot_Some in Hloose as (Hi & Ht & _).
  apply andb_prop in Ht as [Hq Hsim]. apply negb_true_iff in Hq.
  apply Z.eqb_neq in Hq.
  destruct (contains "=f" (inscription (inv p i))) eqn:Hf; [done |].
  intros _. split; [done |].
  unfold _items_similar in Hsim. apply andb_prop in Hsim as [H1 _].
  split; [done |]. split; [by right | by right].
Qed.

(** X15.  [find_action_from_launcher] answers a felid with [ammo_action(-1)]
    without looking at anything else.  Whenever it returns, it returns an
    ammo action, never a null pointer and never a fumble; and for a player
    who is not a felid the slot is -1 only if the non-manual fire order for
    the launcher, inscriptions respected, is empty. *)
Theorem find_action_from_launcher_result (item : ptr item_def) (g : game) :
  (is_felid (you g) = true ->
   find_action_from_launcher C item g = Done (Some (ammo_action (-1))))
  /\ (forall r,
        find_action_from_launcher C item g = Done r ->
        exists s,
          r = Some (ammo_action s)
          /\ (is_felid (you g) = false -> s = -1 ->
              _get_item_fire_order C (you g) [] false item false = [])).
Proof.
  unfold find_action_from_launcher.
  destruct (is_felid (you g)) eqn:Hfelid.
  { split; [done |]. intros r [= <-]. exists (-1). done. }
  split; [discriminate |]. intros r.
  destruct (action_cycler_get the_launcher_action g) as [l |]; [| done].
  destruct (action_cycler_get the_quiver_action g) as [q |]; [| done].
  simpl.
  match goal with
  | |- context [mbind _ ?m] => destruct m as [s |] eqn:Hs; [| done]
  end.
  simpl. intros [= <-]. eexists. split; [reflexivity |].
  intros _.
  destruct (s =? -1) eqn:E.
  - destruct (_get_item_fire_order C (you g) [] false item false)
      as [| first rest] eqn:Ho; [done |].
    intros ->. exfalso.
    assert (Hin : -1 ∈ _get_item_fire_order C (you g) [] false item false)
      by (rewrite Ho; apply list_elem_of_here).
    unfold _get_item_fire_order in Hin.
    apply list_elem_of_fmap in Hin as (k & Hk & _).
    pose proof (Z.land_nonneg k 0xffff) as [_ Hnn].
    specialize (Hnn (or_intror ltac:(lia))). lia.
  - apply Z.eqb_neq in E. intros ->. done.
Qed.

(** X16.  The order of preference of [find_action_from_launcher], for
    cyclers whose actions name no slot at or past [ENDOFPACK]: the slot of
    the launcher cycler's action when it holds ammo for the launcher;
    failing that the slot of the quiver's action, on the same test; the
    ammo history and the fire order are asked only when both fail. *)
Theorem find_action_from_launcher_priority (item : ptr item_def) (g : game)
    (l q : action) :
  is_felid (you g) = false ->
  launcher_action g = Some l ->
  quiver_action g = Some q ->
  get_item C l < ENDOFPACK ->
  let fits := fun s =>
    (0 <=? s) && defined C (inv (you g) s)
    && _item_matches C (inv (you g) s) (FIRE_LAUNCHER C) item false in
  (fits (get_item C l) = true ->
   find_action_from_launcher C item g
   = Done (Some (ammo_action (get_item C l))))
  /\ (get_item C q < ENDOFPACK ->
      fits (get_item C l) = false -> fits (get_item C q) = true ->
      find_action_from_launcher C item g
      = Done (Some (ammo_action (get_item C q)))).
Proof.
  intros Hfelid Hl Hq Hbl fits. unfold find_action_from_launcher.
  rewrite Hfelid.
  rewrite (action_cycler_get_current the_launcher_action g l Hl).
  rewrite (action_cycler_get_current the_quiver_action g q Hq).
  cbn [mbind outcome_bind]. cbv zeta.
  rewrite (defined_at_in_pack C (you g) _ _ Hbl).
  cbn [mbind outcome_bind]. fold (fits (get_item C l)).
  assert (Hpos : forall s, fits s = true -> (s =? -1) = false).
  { intros s H. subst fits. cbv beta in H.
    apply andb_prop in H as [H _]. apply andb_prop in H as [H _].
    apply Z.leb_le in H. apply Z.eqb_neq. lia. }
  split.
  - intros H. rewrite H. cbn [mbind outcome_bind]. by rewrite (Hpos _ H).
  - intros Hbq Hno H. rewrite Hno.
    rewrite (defined_at_in_pack C (you g) _ _ Hbq).
    cbn [mbind outcome_bind]. fold (fits (get_item C q)). rewrite H.
    cbn [mbind outcome_bind]. by rewrite (Hpos _ H).
Qed.

Lemma slot_to_action_shape (p : player) (worn : list Z) (slot : Z)
    (force : bool) :
  slot_to_action C p worn slot force = None
  <-> (slot < 0 \/ ENDOFPACK <= slot \/ defined C (inv p slot) = false).
Proof.
  unfold slot_to_action.
  destruct (slot <? 0) eqn:Hlo; simpl.
  { apply Z.ltb_lt in Hlo. split; [intros _; by left | done]. }
  destruct (ENDOFPACK <=? slot) eqn:Hhi; simpl.
  { apply Z.leb_le in Hhi. split; [intros _; right; by left | done]. }
  destruct (defined C (inv p slot)) eqn:Hdef; simpl.
  2: { split; [intros _; right; by right | done]. }
  apply Z.ltb_ge in Hlo. apply Z.leb_gt in Hhi.
  split; [| intros [H | [H | H]]; [lia | lia | discriminate]].
  repeat match goal with
         | |- context [if ?b then _ else _] => destruct b
         end; discriminate.
Qed.

(** X17.  [slot_to_action] is null exactly for a slot outside the pack or one
    that holds no item.  Otherwise a worn slot gives [ammo_action(-1)], and
    any other slot gives an action on that very slot, of the kind the item
    calls for: a wand, a miscellany item, an unrandart, else ammo, or, with
    [force], a fumble when the ammo action is not valid.  With [force] and
    a player who is not a felid, the ammo or fumble action is valid. *)
Theorem slot_to_action_result (p : player) (worn : list Z) (slot : Z)
    (force : bool) :
  (slot_to_action C p worn slot force = None
   <-> (slot < 0 \/ ENDOFPACK <= slot \/ defined C (inv p slot) = false))
  /\ (forall a,
        slot_to_action C p worn slot force = Some a ->
        (slot ∈ worn /\ a = ammo_action (-1))
        \/ ((slot ∉ worn) /\ get_item C a = slot
            /\ (typeid a = T_wand <-> base_type (inv p slot) = OBJ_WANDS)
            /\ (typeid a = T_misc ->
                base_type (inv p slot) = OBJ_MISCELLANY)
            /\ (typeid a = T_artefact_evoke ->
                is_unrandom_artefact C (inv p slot) = true)
            /\ (typeid a = T_fumble -> force = true)
            /\ (typeid a ∈ [T_ammo; T_fumble] -> force = true ->
                is_felid p = false -> is_valid C p a = true))).
Proof.
  unfold slot_to_action.
  destruct (slot <? 0) eqn:Hlo; simpl.
  { apply Z.ltb_lt in Hlo. split; [split; [intros _; by left | done] |].
    discriminate. }
  destruct (ENDOFPACK <=? slot) eqn:Hhi; simpl.
  { apply Z.leb_le in Hhi.
    split; [split; [intros _; right; by left | done] |]. discriminate. }
  destruct (defined C (inv p slot)) eqn:Hdef; simpl.
  2: { split; [split; [intros _; right; by right | done] |]. discriminate. }
  apply Z.ltb_ge in Hlo. apply Z.leb_gt in Hhi.
  split.
  { split; [| intros [H | [H | H]]; [lia | lia | discriminate]].
    repeat match goal with
           | |- context [if ?b then _ else _] => destruct b
           end; discriminate. }
  intros a.
  destruct (existsb (fun equipped => equipped =? slot) worn) eqn:Hworn.
  { intros [= <-]. left. split; [| done].
    apply existsb_exists in Hworn as (x & Hx & Heq).
    apply Z.eqb_eq in Heq as ->. by apply list_elem_of_In. }
  assert (Hnot : slot ∉ worn).
  { intros Hin. apply list_elem_of_In in Hin.
    assert (existsb (fun equipped => equipped =? slot) worn = true).
    { apply existsb_exists. exists slot. split; [done | apply Z.eqb_refl]. }
    congruence. }
  destruct (bool_decide (base_type (inv p slot) = OBJ_WANDS)) eqn:Hw.
  { apply bool_decide_eq_true in Hw. intros [= <-]. right.
    repeat split; try done. intros Hin.
    repeat (apply elem_of_cons in Hin as [Hin | Hin]; [discriminate Hin |]).
    by apply elem_of_nil in Hin. }
  apply bool_decide_eq_false in Hw.
  destruct (bool_decide (base_type (inv p slot) = OBJ_MISCELLANY)) eqn:Hm.
  { apply bool_decide_eq_true in Hm. intros [= <-]. right.
    repeat split; try done. intros Hin.
    repeat (apply elem_of_cons in Hin as [Hin | Hin]; [discriminate Hin |]).
    by apply elem_of_nil in Hin. }
  destruct (is_unrandom_artefact C (inv p slot)) eqn:Hu.
  { intros [= <-]. right.
    repeat split; try done. intros Hin.
    repeat (apply elem_of_cons in Hin as [Hin | Hin]; [discriminate Hin |]).
    by apply elem_of_nil in Hin. }
  destruct force; simpl.
  - destruct (ammo_action_is_valid C p slot) eqn:Hv; simpl;
      intros [= <-]; right; repeat split; try done.
    intros _ _ Hfelid. simpl. unfold fumble_action_is_valid.
    rewrite Hfelid, Hv, Hdef.
    destruct (slot <? 0) eqn:E1; [apply Z.ltb_lt in E1; lia |].
    destruct (ENDOFPACK <=? slot) eqn:E2; [apply Z.leb_le in E2; lia |].
    reflexivity.
  - intros [= <-]. right. repeat split; try done.
Qed.

(** X18.  After a [set] of an action that names no slot at or past
    [ENDOFPACK], the two queries answer by the action just set:
    [spell_is_quivered(s)] says whether it is the spell action of [s], and
    [item_is_quivered(i)] whether [i] is a slot of the pack and the action's
    item. *)
Theorem quivered_after_set (this : cycler) (a old : action) (g : game)
    (s i : Z) :
  current this g = Some old ->
  get_item C a < ENDOFPACK ->
  exists d g',
    action_cycler_set C this (Some a) g = Done (d, g')
    /\ action_cycler_spell_is_quivered this s g'
       = Done (action_eqb a (spell_action s))
    /\ action_cycler_item_is_quivered C this i g'
       = Done ((0 <=? i) && (i <? ENDOFPACK) && (get_item C a =? i)).
Proof.
  intros Hold Hb.
  destruct (action_cycler_set_spec C this (Some a) g old Hold Hb)
    as (g' & Hset & Hcur & _).
  simpl in Hcur. eexists _, g'. split; [exact Hset |].
  unfold action_cycler_spell_is_quivered, action_cycler_item_is_quivered.
  rewrite (action_cycler_get_current this g' a Hcur). simpl.
  split; [done |]. by destruct ((0 <=? i) && (i <? ENDOFPACK)).
Qed.

(** X19.  [set_from_slot] on the quiver, for a slot of the pack that holds
    an item and is not worn, quivers that item: afterwards
    [item_is_quivered] holds of this slot and of no other. *)
Theorem set_from_slot_quivers (worn : list Z) (force : bool) (slot : Z)
    (g : game) (old : action) :
  quiver_action g = Some old ->
  0 <= slot < ENDOFPACK ->
  defined C (inv (you g) slot) = true ->
  slot ∉ worn ->
  exists d g',
    action_cycler_set_from_slot C the_quiver_action worn force slot g
    = Done (d, g')
    /\ forall i, action_cycler_item_is_quivered C the_quiver_action i g'
                 = Done (bool_decide (i = slot)).
Proof.
  intros Hold Hslot Hdef Hworn. unfold action_cycler_set_from_slot.
  destruct (slot_to_action C (you g) worn slot force) as [a |] eqn:Ha.
  2: { apply (proj1 (slot_to_action_shape (you g) worn slot force)) in Ha.
       destruct Ha as [H | [H | H]]; [lia | lia | congruence]. }
  assert (Hitem : get_item C a = slot).
  { revert Ha. unfold slot_to_action.
    repeat match goal with
           | |- context [if ?b then _ else _] =>
               let E := fresh "E" in destruct b eqn:E
           end; intros [= <-]; try reflexivity.
    exfalso. apply Hworn. apply existsb_exists in E0 as (x & Hx & Heq).
    apply Z.eqb_eq in Heq as ->. by apply list_elem_of_In. }
  destruct (action_cycler_set_spec C the_quiver_action (Some a) g old Hold)
    as (g' & Hset & Hcur & _); [simpl; lia |].
  simpl in Hcur. eexists _, g'. split; [exact Hset |].
  intros i. unfold action_cycler_item_is_quivered.
  rewrite (action_cycler_get_current the_quiver_action g' a Hcur). simpl.
  rewrite Hitem.
  destruct (bool_decide (i = slot)) eqn:E.
  - apply bool_decide_eq_true in E as ->.
    destruct (0 <=? slot) eqn:E1; [| apply Z.leb_gt in E1; lia].
    destruct (slot <? ENDOFPACK) eqn:E2; [| apply Z.ltb_ge in E2; lia].
    simpl. by rewrite Z.eqb_refl.
  - apply bool_decide_eq_false in E.
    destruct ((0 <=? i) && (i <? ENDOFPACK)); [| done].
    f_equal. apply Z.eqb_neq. congruence.
Qed.

(** X20.  [set_from_slot] with a slot outside the pack, or an empty one,
    passes a null pointer to [set]: the launcher cycler fails on it, and the
    quiver is cleared to the base action (the [get_item] of the base class,
    which quiver.h declares, taken to name no slot at or past
    [ENDOFPACK]). *)
Theorem set_from_slot_bad_slot (worn : list Z) (force : bool) (slot : Z)
    (g : game) (old : action) :
  quiver_action g = Some old ->
  slot < 0 \/ ENDOFPACK <= slot \/ defined C (inv (you g) slot) = false ->
  (get_item C base_action < ENDOFPACK ->
   exists g',
     action_cycler_set_from_slot C the_quiver_action worn force slot g
     = Done (negb (action_eqb base_action old), g')
     /\ quiver_action g' = Some base_action)
  /\ action_cycler_set_from_slot C the_launcher_action worn force slot g
     = Crash.
Proof.
  intros Hold Hbad. unfold action_cycler_set_from_slot.
  apply (proj2 (slot_to_action_shape (you g) worn slot force)) in Hbad.
  rewrite Hbad. split; [| reflexivity]. intros Hbase.
  destruct (action_cycler_set_spec C the_quiver_action None g old Hold Hbase)
    as (g' & Hset & Hcur & _).
  exists g'. split; [exact Hset | exact Hcur].
Qed.

End slot_facts.

Lemma find_action_from_launcher_result_witness :
  exists s,
    Some (ammo_action 3) = Some (ammo_action s)
    /\ (is_felid archer = false -> s = -1 ->
        _get_item_fire_order sample_collab archer [] false (weapon archer)
          false = []).
Proof.
  apply (proj2 (find_action_from_launcher_result sample_collab
                  (weapon archer) (game_new sample_collab archer))
           (Some (ammo_action 3))).
  vm_compute. reflexivity.
Defined.

Lemma find_action_from_launcher_priority_witness :
  find_action_from_launcher sample_collab (weapon archer)
    (sample_game archer (ammo_action 5))
  = Done (Some (ammo_action 5)).
Proof.
  apply (proj2 (find_action_from_launcher_priority sample_collab
                  (weapon archer) (sample_game archer (ammo_action 5))
                  (ammo_action (-1)) (ammo_action 5)
                  eq_refl eq_refl eq_refl eq_refl));
    reflexivity.
Defined.

Lemma quivered_after_set_witness :
  exists d g',
    action_cycler_set sample_collab the_quiver_action (Some (wand_action 0))
      (game_new sample_collab hoarder) = Done (d, g')
    /\ action_cycler_spell_is_quivered the_quiver_action 4 g'
       = Done (action_eqb (wand_action 0) (spell_action 4))
    /\ action_cycler_item_is_quivered sample_collab the_quiver_action 0 g'
       = Done ((0 <=? 0) && (0 <? ENDOFPACK)
               && (get_item sample_collab (wand_action 0) =? 0)).
Proof.
  apply (quivered_after_set sample_collab the_quiver_action (wand_action 0)
           (ammo_action (-1)) (game_new sample_collab hoarder) 4 0);
    reflexivity.
Defined.

Lemma set_from_slot_quivers_witness :
  exists d g',
    action_cycler_set_from_slot sample_collab the_quiver_action [1] true 3
      (game_new sample_collab hoarder) = Done (d, g')
    /\ forall i,
         action_cycler_item_is_quivered sample_collab the_quiver_action i g'
         = Done (bool_decide (i = 3)).
Proof.
  apply (set_from_slot_quivers sample_collab [1] true 3
           (game_new sample_collab hoarder) (ammo_action (-1))).
  - reflexivity.
  - unfold ENDOFPACK. lia.
  - reflexivity.
  - intros Hin. apply elem_of_cons in Hin as [Hin | Hin]; [discriminate |].
    by apply elem_of_nil in Hin.
Defined.

Lemma set_from_slot_bad_slot_witness :
  (exists g',
     action_cycler_set_from_slot sample_collab the_quiver_action [] false 9
       (sample_game hoarder (wand_action 0))
     = Done (negb (action_eqb base_action (wand_action 0)), g')
     /\ quiver_action g' = Some base_action)
  /\ action_cycler_set_from_slot sample_collab the_launcher_action [] false 9
       (sample_game hoarder (wand_action 0))
     = Crash.
Proof.
  destruct (set_from_slot_bad_slot sample_collab [] false 9
              (sample_game hoarder (wand_action 0)) (wand_action 0) eq_refl)
    as [Hquiver Hlauncher].
  - right. right. reflexivity.
  - split; [apply Hquiver; reflexivity | exact Hlauncher].
Defined.

(** ** The menu of [choose] and the search across kinds *)

Section menu_facts.
Context (C : collab) (p : player).

Lemma fire_order_typeid (a : action) (allow_disabled : bool) (x : action) :
  concrete a = true ->
  x ∈ get_fire_order C p a allow_disabled ->
  typeid x = (if bool_decide (typeid a = T_fumble) then T_ammo
              else typeid a).
Proof.
  intros Hc Hx.
  destruct a; try discriminate Hc; simpl in Hx.
  1,2: unfold ammo_action_get_fire_order in Hx;
       apply list_elem_of_filter in Hx as [_ Hx];
       apply list_elem_of_fmap in Hx as (s & -> & _); reflexivity.
  all: apply list_elem_of_omap in Hx as (y & _ & Hy); cbv beta zeta in Hy.
  - destruct (_ && _) in Hy; [| discriminate]. by injection Hy as <-.
  - destruct (_pseudoability C y); [discriminate |].
    destruct (offered _ _ _ _) in Hy; [| discriminate]. by injection Hy as <-.
  - destruct (_ && _) in Hy; [| discriminate]. by injection Hy as <-.
  - destruct (_ && _) in Hy; [| discriminate]. by injection Hy as <-.
  - destruct (offered _ _ _ _) in Hy; [| discriminate]. by injection Hy as <-.
Qed.

Lemma elem_of_choose_actions (x : action) :
  x ∈ choose_actions C p ->
  exists rep, rep ∈ type_order C /\ x ∈ get_fire_order C p rep true.
Proof.
  unfold choose_actions, type_order. rewrite !elem_of_app.
  intros [H | [H | [H | [H | [H | H]]]]]; eexists; (split; [| exact H]);
    set_solver.
Qed.

Lemma type_order_concrete (rep : action) :
  rep ∈ type_order C -> concrete rep = true.
Proof.
  unfold type_order. intros H.
  repeat (apply elem_of_cons in H as [-> | H]; [reflexivity |]).
  by apply elem_of_nil in H.
Qed.

Lemma choose_lists_every_action_eq :
  choose_entries C p = choose_actions C p.
Proof.
  unfold choose_entries.
  assert (Hall : Forall (fun a => is_valid C p a = true)
                   (choose_actions C p)).
  { apply list.Forall_forall. intros x Hx.
    apply elem_of_choose_actions in Hx as (rep & Hrep & Hx).
    apply (fire_order_valid C p rep true x); [| done].
    by apply type_order_concrete. }
  induction Hall as [| x l Hx _ IH]; [done |].
  rewrite filter_cons_True by done. by rewrite IH.
Qed.

(** X21.  The validity test in the loop of [choose] that adds the menu entries
    skips nothing: every action the six fire orders list gets an entry, in
    the order ammo, wands, miscellany, artefacts, spells, abilities. *)
Theorem choose_lists_every_action :
  choose_entries C p
  = get_fire_order C p (ammo_action (-1)) true
    ++ get_fire_order C p (wand_action (-1)) true
    ++ get_fire_order C p (misc_action (-1)) true
    ++ get_fire_order C p (artefact_evoke_action (-1)) true
    ++ get_fire_order C p (spell_action (SPELL_NO_SPELL C)) true
    ++ get_fire_order C p (ability_action (ABIL_NON_ABILITY C)) true.
Proof.
  change (choose_entries C p = choose_actions C p). unfold choose_entries.
  assert (Hall : Forall (fun a => is_valid C p a = true)
                   (choose_actions C p)).
  { apply list.Forall_forall. intros x Hx.
    apply elem_of_choose_actions in Hx as (rep & Hrep & Hx).
    apply type_order_concrete in Hrep.
    by apply (fire_order_valid C p rep true x). }
  induction Hall as [| x l Hx _ IH]; [done |].
  rewrite filter_cons_True by done. by rewrite IH.
Qed.

(** X22.  No action appears twice in the menu of [choose], as long as the
    talents and the spell letters do not repeat. *)
Theorem choose_entries_NoDup :
  enumerations_distinct C p ->
  NoDup (choose_entries C p).
Proof.
  intros Hd. rewrite choose_lists_every_action_eq. unfold choose_actions.
  assert (Hty : forall rep x, concrete rep = true ->
                  typeid rep <> T_fumble ->
                  x ∈ get_fire_order C p rep true ->
                  typeid x = typeid rep).
  { intros rep x Hc Hnf Hx.
    rewrite (fire_order_typeid rep true x Hc Hx).
    by rewrite bool_decide_eq_false_2. }
  assert (Hne : forall rep rep' x, concrete rep = true ->
                  concrete rep' = true ->
                  typeid rep <> T_fumble -> typeid rep' <> T_fumble ->
                  typeid rep <> typeid rep' ->
                  x ∈ get_fire_order C p rep true ->
                  x ∈ get_fire_order C p rep' true -> False).
  { intros rep rep' x Hc Hc' Hf Hf' Hdiff Hx Hx'.
    apply Hty in Hx; [| done | done]. apply Hty in Hx'; [| done | done].
    congruence. }
  apply list.NoDup_app. split; [by apply NoDup_fire_order |]. split.
  { intros x Hx Hin. rewrite !elem_of_app in Hin.
    destruct Hin as [Hin | [Hin | [Hin | [Hin | Hin]]]];
      by (eapply (Hne _ _ x); [| | | | | exact Hx | exact Hin]). }
  apply list.NoDup_app. split; [by apply NoDup_fire_order |]. split.
  { intros x Hx Hin. rewrite !elem_of_app in Hin.
    destruct Hin as [Hin | [Hin | [Hin | Hin]]];
      by (eapply (Hne _ _ x); [| | | | | exact Hx | exact Hin]). }
  apply list.NoDup_app. split; [by apply NoDup_fire_order |]. split.
  { intros x Hx Hin. rewrite !elem_of_app in Hin.
    destruct Hin as [Hin | [Hin | Hin]];
      by (eapply (Hne _ _ x); [| | | | | exact Hx | exact Hin]). }
  apply list.NoDup_app. split; [by apply NoDup_fire_order |]. split.
  { intros x Hx Hin. rewrite !elem_of_app in Hin.
    destruct Hin as [Hin | Hin];
      by (eapply (Hne _ _ x); [| | | | | exact Hx | exact Hin]). }
  apply list.NoDup_app. split; [by apply NoDup_fire_order |]. split.
  { intros x Hx Hin.
    by (eapply (Hne _ _ x); [| | | | | exact Hx | exact Hin]). }
  by apply NoDup_fire_order.
Qed.

Lemma find_next_invalid (rep : action) (dir : Z) (allow_disabled : bool) :
  is_valid C p rep = false ->
  find_next C p rep dir allow_disabled false
  = head (directed_order C p rep dir allow_disabled).
Proof.
  intros Hinv. rewrite find_next_unfold. cbv zeta. rewrite Hinv. simpl.
  by destruct (directed_order C p rep dir allow_disabled).
Qed.

Lemma first_valid_next_head (reps : list action) (dir : Z)
    (allow_disabled : bool) :
  Forall (fun rep => concrete rep = true /\ is_valid C p rep = false) reps ->
  first_valid_next C p reps dir allow_disabled
  = head (mjoin ((fun rep => directed_order C p rep dir allow_disabled)
                 <$> reps)).
Proof.
  induction 1 as [| rep reps [Hc Hinv] _ IH]; [done |].
  simpl. rewrite (find_next_invalid rep dir allow_disabled Hinv).
  destruct (directed_order C p rep dir allow_disabled) as [| x o] eqn:Ho.
  - simpl. exact IH.
  - simpl.
    assert (Hx : is_valid C p x = true).
    { apply (fire_order_valid C p rep allow_disabled x Hc).
      apply (elem_of_directed_order C p rep dir). rewrite Ho. left. }
    by rewrite Hx.
Qed.

Lemma type_order_invalid :
  spell_action_is_valid C p (SPELL_NO_SPELL C) = false ->
  Forall (fun rep => concrete rep = true /\ is_valid C p rep = false)
    (type_order C).
Proof.
  intros Hs. unfold type_order.
  repeat (apply list.Forall_cons; split;
          [split; [reflexivity | simpl; try done] |]);
    [apply (ammo_minus_one_invalid C p)
    | unfold ability_action_is_valid; by rewrite Z.eqb_refl
    | constructor].
Qed.

(** X23.  With no current action to start from, in the forward direction and
    with disabled actions allowed, [_get_next_action_type] finds what
    [choose] lists first: the first entry of the menu, or nothing when the
    menu is empty.  [SPELL_NO_SPELL] is taken not to be a spell of the
    player. *)
Theorem next_action_type_first_entry (dir : Z) :
  spell_action_is_valid C p (SPELL_NO_SPELL C) = false ->
  0 <= dir ->
  _get_next_action_type C p None dir true = head (choose_entries C p).
Proof.
  intros Hs Hdir. rewrite choose_lists_every_action_eq.
  unfold _get_next_action_type.
  destruct (dir <? 0) eqn:E; [apply Z.ltb_lt in E; lia |].
  simpl drop. simpl take. rewrite app_nil_r.
  rewrite (first_valid_next_head _ _ _ (type_order_invalid Hs)).
  unfold directed_order. rewrite E. unfold type_order, choose_actions.
  simpl. by rewrite app_nil_r.
Qed.

End menu_facts.

Section next_kind_facts.
Context (C : collab).

(** X24.  From an ammo action that is not valid, the empty quiver
    [ammo_action(-1)] of a new cycler among them, [next] in the forward
    direction, disabled actions allowed, returns the first entry of the menu
    of [choose], and the fallback [ammo_action(-1)] when the menu is empty.
    [SPELL_NO_SPELL] is taken not to be a valid spell action of the
    player. *)
Theorem next_from_empty_quiver (this : cycler) (g : game) (s dir : Z) :
  current this g = Some (ammo_action s) ->
  is_valid C (you g) (ammo_action s) = false ->
  spell_action_is_valid C (you g) (SPELL_NO_SPELL C) = false ->
  0 <= dir ->
  action_cycler_next C this dir true g
  = Done (Some (default (ammo_action (-1))
                  (head (choose_entries C (you g))))).
Proof.
  intros Hcur Hinv Hs Hdir.
  unfold action_cycler_next, get_ptr.
  rewrite (action_cycler_get_current this g _ Hcur), Hcur. simpl.
  rewrite (find_next_invalid C (you g) _ dir true Hinv).
  rewrite (choose_lists_every_action_eq C). unfold choose_actions.
  unfold directed_order.
  destruct (dir <? 0) eqn:E; [apply Z.ltb_lt in E; lia |].
  change (get_fire_order C (you g) (ammo_action s) true)
    with (get_fire_order C (you g) (ammo_action (-1)) true).
  destruct (get_fire_order C (you g) (ammo_action (-1)) true)
    as [| x o] eqn:Ho.
  - cbn [head].
    unfold _get_next_action_type. rewrite E.
    change (type_index (ammo_action s) (type_order C)) with 0%nat.
    simpl length. simpl Nat.leb. cbv iota beta.
    change (1 mod 6)%nat with 1%nat.
    pose proof (type_order_invalid C (you g) Hs) as Hall.
    unfold type_order in *. simpl drop. simpl take.
    rewrite first_valid_next_head.
    2: { apply Forall_app. split.
         - by apply Forall_cons_1 in Hall as [_ Hall].
         - apply Forall_cons_1 in Hall as [Hall _]. by constructor. }
    unfold directed_order. rewrite E.
    cbn [fmap list_fmap app mjoin list_join]. rewrite Ho, !app_nil_r.
    cbn [app].
    by destruct (head _).
  - cbn [head].
    assert (Hx : is_valid C (you g) x = true).
    { apply (fire_order_valid C (you g) (ammo_action (-1)) true x);
        [done |]. rewrite Ho. left. }
    by rewrite Hx.
Qed.

Lemma find_next_elem (p : player) (a : action) (dir : Z)
    (allow_disabled loop : bool) (n : action) :
  find_next C p a dir allow_disabled loop = Some n ->
  n ∈ get_fire_order C p a allow_disabled.
Proof.
  rewrite find_next_unfold. cbv zeta. intros H.
  apply (elem_of_directed_order C p a dir).
  repeat match type of H with
         | (if ?b then _ else _) = _ => destruct b
         end; try discriminate; by apply list_elem_of_lookup_2 in H.
Qed.

Lemma first_valid_next_elem (p : player) (reps : list action) (dir : Z)
    (allow_disabled : bool) (n : action) :
  first_valid_next C p reps dir allow_disabled = Some n ->
  exists rep, rep ∈ reps /\ n ∈ get_fire_order C p rep allow_disabled.
Proof.
  induction reps as [| rep reps IH]; [discriminate |]. simpl.
  destruct (find_next C p rep dir allow_disabled false) as [m |] eqn:Hm.
  - destruct (is_valid C p m).
    + intros [= <-]. exists rep. split; [left |].
      by apply find_next_elem in Hm.
    + intros H. destruct (IH H) as (r & Hr & Hn). exists r.
      split; [by right | done].
  - intros H. destruct (IH H) as (r & Hr & Hn). exists r.
    split; [by right | done].
Qed.

(** X25.  Cycling never lands on a fumble or on the base action: from any action
    of a concrete kind, [next] returns an action of one of the six kinds
    that have a fire order of their own. *)
Theorem next_never_fumble (this : cycler) (dir : Z) (allow_disabled : bool)
    (g : game) (a r : action) :
  current this g = Some a ->
  concrete a = true ->
  action_cycler_next C this dir allow_disabled g = Done (Some r) ->
  typeid r ∈ [T_ammo; T_wand; T_misc; T_artefact_evoke; T_spell; T_ability].
Proof.
  intros Hcur Hc. unfold action_cycler_next.
  rewrite (action_cycler_get_current this g a Hcur). simpl.
  assert (Hmem : forall rep x, concrete rep = true ->
                   x ∈ get_fire_order C (you g) rep allow_disabled ->
                   typeid x ∈ [T_ammo; T_wand; T_misc; T_artefact_evoke;
                               T_spell; T_ability]).
  { intros rep x Hrep Hx.
    rewrite (fire_order_typeid C (you g) rep allow_disabled x Hrep Hx).
    destruct rep; try discriminate Hrep; simpl; set_solver. }
  assert (Htype : forall x,
             _get_next_action_type C (you g) (get_ptr this g) dir
               allow_disabled = Some x ->
             typeid x ∈ [T_ammo; T_wand; T_misc; T_artefact_evoke;
                         T_spell; T_ability]).
  { intros x. unfold _get_next_action_type.
    destruct (match get_ptr this g with Some _ => _ | None => _ end)
      as [i skip_first].
    intros H. apply first_valid_next_elem in H as (rep & Hrep & Hx).
    apply (Hmem rep x); [| done].
    apply (type_order_concrete C).
    apply elem_of_app in Hrep as [Hrep | Hrep].
    - apply list_elem_of_lookup_1 in Hrep as [k Hk].
      rewrite lookup_drop in Hk.
      apply list_elem_of_lookup_2 in Hk.
      destruct (dir <? 0); [by apply elem_of_reverse in Hk | done].
    - apply list_elem_of_lookup_1 in Hrep as [k Hk].
      apply lookup_take_Some in Hk as [Hk _].
      apply list_elem_of_lookup_2 in Hk.
      destruct (dir <? 0); [by apply elem_of_reverse in Hk | done]. }
  destruct (find_next C (you g) a dir allow_disabled false) as [n |] eqn:Hn.
  - destruct (is_valid C (you g) n).
    + intros [= <-]. apply find_next_elem in Hn. by apply (Hmem a).
    + destruct (_get_next_action_type _ _ _ _ _) as [m |] eqn:Hm.
      * intros [= <-]. by apply Htype.
      * intros [= <-]. set_solver.
  - destruct (_get_next_action_type _ _ _ _ _) as [m |] eqn:Hm.
    + intros [= <-]. by apply Htype.
    + intros [= <-]. set_solver.
Qed.

End next_kind_facts.

Lemma hoarder_enumerations_distinct :
  enumerations_distinct sample_collab hoarder.
Proof.
  split; [vm_compute; discriminate |]. split; [constructor |].
  intros i j _ _ _ H. discriminate H.
Defined.

Lemma choose_entries_NoDup_witness :
  NoDup (choose_entries sample_collab hoarder).
Proof.
  apply (choose_entries_NoDup sample_collab hoarder
           hoarder_enumerations_distinct).
Defined.

Lemma next_action_type_first_entry_witness :
  _get_next_action_type sample_collab hoarder None 1 true
  = head (choose_entries sample_collab hoarder).
Proof.
  apply (next_action_type_first_entry sample_collab hoarder 1);
    [reflexivity | lia].
Defined.

Lemma next_from_empty_quiver_witness :
  action_cycler_next sample_collab the_quiver_action 1 true
    (game_new sample_collab hoarder)
  = Done (Some (default (ammo_action (-1))
                  (head (choose_entries sample_collab hoarder)))).
Proof.
  apply (next_from_empty_quiver sample_collab the_quiver_action
           (game_new sample_collab hoarder) (-1) 1);
    [reflexivity | reflexivity | reflexivity | lia].
Defined.

Lemma next_never_fumble_witness :
  typeid (ammo_action 2)
  ∈ [T_ammo; T_wand; T_misc; T_artefact_evoke; T_spell; T_ability].
Proof.
  apply (next_never_fumble sample_collab the_quiver_action 1 true
           (sample_game hoarder (fumble_action 3)) (fumble_action 3)
           (ammo_action 2));
    [reflexivity | reflexivity |].
  vm_compute. reflexivity.
Defined.

(** ** What the item fire order lists *)

Section item_order_facts.
Context (C : collab) (p : player).

Lemma first_flag_witness (test : Z -> bool) (i : Z) (flags : list Z)
    (r : Z) :
  first_flag test i flags = Some r ->
  exists f, f ∈ flags /\ test f = true.
Proof.
  revert i. induction flags as [| f flags IH]; intros i H; simpl in *.
  - discriminate.
  - destruct (test f) eqn:E.
    + exists f. split; [left | done].
    + destruct (IH _ H) as (f' & Hin & Ht). exists f'.
      split; [by right | done].
Qed.

(** X26.  Every slot that [_get_item_fire_order] returns lies in the part of the
    pack that was scanned, holds an item, passes the test of at least one
    filter of [Options.fire_order], and, unless inscriptions are ignored, is
    not inscribed "=f" ("=F" in manual mode); with a launcher that shoots
    and outside manual mode, no item that would be thrown is listed. *)
Theorem item_fire_order_members (ignore_inscription_etc : bool)
    (launcher : ptr item_def) (manual : bool) (s : Z) :
  0 <= fire_items_start p ->
  s ∈ _get_item_fire_order C p [] ignore_inscription_etc launcher manual ->
  (if ignore_inscription_etc then 0 else fire_items_start p) <= s < ENDOFPACK
  /\ defined C (inv p s) = true
  /\ (ignore_inscription_etc = false ->
      contains (if manual then "=F" else "=f") (inscription (inv p s))
      = false)
  /\ (exists flags, flags ∈ fire_order p
        /\ fire_flag_test C p (inv p s) launcher manual flags = true)
  /\ (manual = false ->
      _get_weapon_ammo_type C launcher <> AMMO_THROW ->
      is_launched p launcher (inv p s) <> THROWN).
Proof.
  intros Hstart Hs. unfold _get_item_fire_order in Hs.
  rewrite app_nil_l in Hs.
  apply list_elem_of_fmap in Hs as (k & -> & Hk).
  rewrite merge_sort_Permutation in Hk.
  apply list_elem_of_omap in Hk as (i & Hi & Hc).
  apply elem_of_seqZ in Hi.
  assert (Hrange : (if ignore_inscription_etc then 0 else fire_items_start p)
                   <= i < ENDOFPACK) by lia.
  assert (Hi16 : 0 <= i < 65536).
  { unfold ENDOFPACK in Hrange. destruct ignore_inscription_etc; lia. }
  unfold fire_candidate in Hc. cbv zeta in Hc.
  destruct (defined C (inv p i)) eqn:Hdef; [simpl in Hc | discriminate].
  destruct (negb manual
            && negb (bool_decide (_get_weapon_ammo_type C launcher
                                  = AMMO_THROW))
            && bool_decide (is_launched p launcher (inv p i) = THROWN))
    eqn:Hthrown; [discriminate |].
  destruct (negb ignore_inscription_etc
            && contains (if manual then "=F" else "=f")
                 (inscription (inv p i))) eqn:Hins; [discriminate |].
  destruct (first_flag _ _ _) as [r |] eqn:Hr; [| discriminate].
  injection Hc as <-. rewrite (fire_key_low r i Hi16).
  split; [exact Hrange |]. split; [exact Hdef |]. split; [| split].
  - intros ->. exact Hins.
  - by apply first_flag_witness in Hr.
  - intros -> Hnt Hth. simpl in Hthrown.
    rewrite bool_decide_eq_false_2 in Hthrown by done.
    rewrite bool_decide_eq_true_2 in Hthrown by done. discriminate.
Qed.

(** X27.  The sort key of [_get_item_fire_order] keeps the rank of the
    filter only up to 32767.  A rank from 32768 to 65535 sets the sign bit
    of the [int]: the key is negative and sorts before every key of a lower
    rank.  And a rank of 65536 or more loses its high bits in the shift:
    the key is that of the rank less 65536. *)
Theorem fire_key_wraps (r i : Z) :
  0 <= i < 65536 ->
  (32768 <= r < 65536 ->
   fire_key r i = (r - 65536) * 65536 + i
   /\ forall r' i', 0 <= r' < 32768 -> 0 <= i' < 65536 ->
        fire_key r i < fire_key r' i')
  /\ fire_key (r + 65536) i = fire_key r i.
Proof.
  intros Hi. split.
  - intros Hr.
    assert (Hkey : fire_key r i = (r - 65536) * 65536 + i).
    { unfold fire_key, to_unsigned, to_int.
      change 0xffff with (Z.ones 16). rewrite Z.land_ones by lia.
      rewrite (Z.mod_small i (2 ^ 16)) by lia.
      rewrite (Z.mod_small i (2 ^ 32)) by lia.
      rewrite Z.shiftl_mul_pow2 by lia.
      rewrite (Z.mod_small (r * 2 ^ 16)) by lia.
      assert (Hland : Z.land (r * 2 ^ 16) i = 0).
      { apply Z.bits_inj'. intros n Hn. rewrite Z.land_spec, Z.bits_0.
        destruct (Z.lt_ge_cases n 16).
        - rewrite Z.mul_pow2_bits_low by lia. reflexivity.
        - rewrite (Z.bits_above_log2 i n); [apply andb_false_r | lia |].
          destruct (Z.eq_dec i 0) as [-> | Hne]; [simpl; lia |].
          apply Z.log2_lt_pow2; [lia |].
          apply Z.lt_le_trans with (2 ^ 16); [lia |].
          apply Z.pow_le_mono_r; lia. }
      rewrite <- Z.add_nocarry_lor by exact Hland.
      replace (r * 2 ^ 16 + i + 2 ^ 31)
        with ((r * 2 ^ 16 + i - 2 ^ 31) + 1 * 2 ^ 32) by lia.
      rewrite Z.mod_add by lia. rewrite Z.mod_small by lia. lia. }
    split; [exact Hkey |].
    intros r' i' Hr' Hi'. rewrite Hkey, (fire_key_small r' i' Hr' Hi'). lia.
  - unfold fire_key, to_unsigned. do 2 f_equal.
    rewrite !Z.shiftl_mul_pow2 by lia.
    replace ((r + 65536) * 2 ^ 16) with (r * 2 ^ 16 + 1 * 2 ^ 32) by lia.
    apply Z.mod_add. lia.
Qed.

End item_order_facts.

(** ** The ammo history on disk *)

Section marshalling_facts.
Context (C : collab).

Lemma unmarshall_entries_saved (entries : list launcher)
    (h h0 : ammo_history) (rest : list marshalled) :
  exists h',
    unmarshall_entries entries h0
      (((fun t => M_item (h t)) <$> entries) ++ rest) = Done (h', rest)
    /\ (forall t, t ∈ entries -> h' t = h t)
    /\ (forall t, t ∉ entries -> h' t = h0 t).
Proof.
  revert h0. induction entries as [| t entries IH]; intros h0.
  - exists h0. split; [done |]. split; [| done].
    intros t Ht. by apply elem_of_nil in Ht.
  - destruct (IH (<[t := h t]> h0)) as (h' & Hrun & Hin & Hout).
    exists h'. split; [exact Hrun |]. split.
    + intros t' Ht'. destruct (decide (t' ∈ entries)) as [Hmem | Hmem].
      * by apply Hin.
      * rewrite (Hout t' Hmem).
        apply elem_of_cons in Ht' as [-> | Ht']; [| done].
        apply fn_lookup_insert.
    + intros t' Ht'. apply not_elem_of_cons in Ht' as [Hne Hmem].
      rewrite (Hout t' Hmem). by apply fn_lookup_insert_ne.
Qed.

(** X28.  What [ammo_history::save] writes, [ammo_history::load] reads back,
    consuming exactly that: every entry of the array is restored.  A stream
    saved with a shorter array, a prefix of the present one, loads as well:
    the entries it holds are restored and the others keep the value they
    had. *)
Theorem ammo_history_save_load (layout saved : list launcher)
    (h h0 : ammo_history) (rest : list marshalled) :
  saved `prefix_of` layout ->
  Z.of_nat (length layout) < 2 ^ 32 ->
  exists h',
    ammo_history_load layout h0 (ammo_history_save C saved h [] ++ rest)
    = Done (h', rest)
    /\ (forall t, t ∈ saved -> h' t = h t)
    /\ (forall t, t ∉ saved -> h' t = h0 t).
Proof.
  intros [tail ->] Hlen.
  destruct (unmarshall_entries_saved saved h h0 rest)
    as (h' & Hrun & Hin & Hout).
  exists h'. split; [| done].
  unfold ammo_history_load, ammo_history_save. simpl.
  rewrite length_app in Hlen |- *.
  unfold to_unsigned. rewrite Z.mod_small by lia.
  destruct (Z.of_nat (length saved) <=? Z.of_nat (length saved + length tail))
    eqn:E; [| apply Z.leb_gt in E; lia].
  simpl. rewrite Nat2Z.id. rewrite take_app_length. exact Hrun.
Qed.

(** X29.  [ammo_history::load] fails its assertions on a stream that starts with
    another cookie, and on one that announces more entries than the array
    has; a negative count is read as unsigned and fails likewise. *)
Theorem ammo_history_load_rejects (layout : list launcher)
    (h0 : ammo_history) :
  (forall cooky inf, cooky <> QUIVER_COOKIE ->
     ammo_history_load layout h0 (M_short cooky :: inf) = Crash)
  /\ (forall dummy unused n inf,
        Z.of_nat (length layout) < to_unsigned n ->
        ammo_history_load layout h0
          (M_short QUIVER_COOKIE :: M_item dummy :: M_int unused :: M_int n
           :: inf) = Crash)
  /\ (forall n, - 2 ^ 31 <= n < 0 ->
        Z.of_nat (length layout) < 2 ^ 31 ->
        Z.of_nat (length layout) < to_unsigned n).
Proof.
  repeat split.
  - intros cooky inf Hc. unfold ammo_history_load. simpl.
    apply Z.eqb_neq in Hc. by rewrite Hc.
  - intros dummy unused n inf Hn. unfold ammo_history_load. simpl.
    apply Z.leb_gt in Hn. by rewrite Hn.
  - intros n Hn Hlen. unfold to_unsigned.
    replace n with ((n + 2 ^ 32) + (-1) * 2 ^ 32) by lia.
    rewrite Z.mod_add by lia. rewrite Z.mod_small by lia. lia.
Qed.

End marshalling_facts.

(** ** Targeting of spells *)

Section spell_facts.
Context (S : spell_targeting).

(** X30.  The targeting overrides of a quivered spell.  A spell that needs
    manual targeting is also incompatible with automatic targeting, and no
    such spell allows autofight; a spell that allows autofight is targeted
    and is cast at exactly the target it was triggered with.  [trigger]
    never switches interactive targeting off, and it casts at the target
    given, at the player's own position, or at (-1, -1). *)
Theorem spell_targeting_overrides (spell : Z) (pos : Z * Z) (t : dist) :
  (_spell_needs_manual_targeting S spell = true ->
   _spell_autotarget_incompatible S spell = true)
  /\ (_spell_autotarget_incompatible S spell = true ->
      spell_action_allow_autofight S spell = false)
  /\ (spell_action_allow_autofight S spell = true ->
      spell_action_is_targeted S spell = true
      /\ spell_action_trigger_target S spell pos t = t)
  /\ (interactive t = true ->
      interactive (spell_action_trigger_target S spell pos t) = true)
  /\ (target (spell_action_trigger_target S spell pos t)
      ∈ [target t; pos; (-1, -1)]).
Proof.
  unfold spell_action_allow_autofight, spell_action_is_targeted,
    spell_action_trigger_target, _spell_autotarget_incompatible.
  destruct (_spell_needs_manual_targeting S spell) eqn:Hm;
    destruct (negb (simple_targeting S)
              && targeter_affects_outside_range S spell) eqn:Hout;
    destruct ((spell =? SPELL_LRD S) || (spell =? SPELL_INVISIBILITY S)
              || (spell =? SPELL_APPORTATION S)) eqn:Hsw;
    destruct (spell_action_is_dynamic_targeted S spell) eqn:Hdyn;
    simpl; repeat split; try done; try (intros; discriminate);
    try set_solver.
  all: by destruct t.
Qed.

End spell_facts.

Lemma item_fire_order_members_witness :
  (if false then 0 else fire_items_start archer) <= 5 < ENDOFPACK
  /\ defined sample_collab (inv archer 5) = true
  /\ (false = false -> contains "=f" (inscription (inv archer 5)) = false)
  /\ (exists flags, flags ∈ fire_order archer
        /\ fire_flag_test sample_collab archer (inv archer 5)
             (weapon archer) false flags = true)
  /\ (false = false ->
      _get_weapon_ammo_type sample_collab (weapon archer) <> AMMO_THROW ->
      is_launched archer (weapon archer) (inv archer 5) <> THROWN).
Proof.
  apply (item_fire_order_members sample_collab archer false (weapon archer)
           false 5).
  - vm_compute. discriminate.
  - vm_compute. right. left.
Defined.

Lemma fire_key_wraps_witness :
  (32768 <= 32768 < 65536 ->
   fire_key 32768 3 = (32768 - 65536) * 65536 + 3
   /\ forall r' i', 0 <= r' < 32768 -> 0 <= i' < 65536 ->
        fire_key 32768 3 < fire_key r' i')
  /\ fire_key (32768 + 65536) 3 = fire_key 32768 3.
Proof.
  apply (fire_key_wraps 32768 3). lia.
Defined.

Lemma ammo_history_save_load_witness :
  exists h',
    ammo_history_load sample_layout (ammo_history_new sample_collab)
      (ammo_history_save sample_collab [AMMO_THROW; AMMO_BOW] sample_history
         [] ++ [M_short 7])
    = Done (h', [M_short 7])
    /\ (forall t, t ∈ [AMMO_THROW; AMMO_BOW] -> h' t = sample_history t)
    /\ (forall t, t ∉ [AMMO_THROW; AMMO_BOW] ->
          h' t = ammo_history_new sample_collab t).
Proof.
  apply (ammo_history_save_load sample_collab sample_layout
           [AMMO_THROW; AMMO_BOW] sample_history
           (ammo_history_new sample_collab) [M_short 7]).
  - exists [AMMO_SLING; AMMO_CROSSBOW]. reflexivity.
  - vm_compute. reflexivity.
Defined.
